(** * html-sketchapp-cli: the commands of [bin/cli.js]

    A shallow embedding of the capture pipeline: the viewport parser
    ([cli.js] lines 133-135), the target URL resolution (lines 95-96) and
    the asynchronous handler with its nested [try]/[finally] regions
    (lines 90-165); and of the [install] command (lines 167-190).  The
    properties proved about them follow the definitions. *)

From Stdlib Require Import ZArith NArith Ascii String List Lia.
From stdpp Require Import base option list strings pretty gmap.

Local Open Scope Z_scope.

(** ** JavaScript values used by the command *)

(** A JavaScript number as far as the command produces one: [NaN], an
    infinity, or the Number value of the decimal
    [(-1)^neg * mant * 10^exp10], that is the binary64 nearest to it (an
    infinity when the decimal is out of range).  [parseInt] and
    [parseFloat] are embedded up to that decimal, the mathematical value of
    what they read; its rounding is the same function for every decimal
    and is not computed here. *)
Inductive number :=
| NaN
| Infinity (neg : bool)
| Dec (neg : bool) (mant : N) (exp10 : Z).

(** The literal [1] of line 135. *)
Definition one : number := Dec false 1 0.

(** A string of the model is the sequence of the code units of the
    JavaScript string, each below 256: a character stands for the code
    unit of its number.  Strings with higher code units are outside the
    model. *)
Module JS.

(** Truthiness of an optional string: [undefined] and [''] are falsy. *)
Definition truthy (x : option string) : bool :=
  match x with
  | None => false
  | Some s => negb (String.eqb s "")
  end.

(** [a || b] on optional strings. *)
Definition or_else (x : option string) (d : string) : string :=
  match x with
  | Some s => if String.eqb s "" then d else s
  | None => d
  end.

(** [s.split(sep)] for a separator of one character.  The result is never
    the empty array: [''.split('@')] is [['']]. *)
Fixpoint split (sep : ascii) (s : string) : list string :=
  match s with
  | EmptyString => [EmptyString]
  | String c s' =>
      if Ascii.eqb c sep then EmptyString :: split sep s'
      else match split sep s' with
           | [] => [String c EmptyString]
           | h :: t => String c h :: t
           end
  end.

Definition is_digit (c : ascii) : bool :=
  let n := N_of_ascii c in ((48 <=? n) && (n <=? 57))%N.

Definition digit_value (c : ascii) : N := (N_of_ascii c - 48)%N.

(** White space and line terminators, which [parseInt] and [parseFloat]
    skip: TAB, LF, VT, FF, CR, SPACE and the no-break space U+00A0.  The
    others (U+1680, U+2000 to U+200A, U+2028, U+2029, U+202F, U+205F,
    U+3000 and U+FEFF) are code units above 255. *)
Definition is_space (c : ascii) : bool :=
  let n := N_of_ascii c in
  ((n =? 9) || (n =? 10) || (n =? 11) || (n =? 12) || (n =? 13) || (n =? 32)
   || (n =? 160))%N.

Fixpoint trim_start (s : string) : string :=
  match s with
  | String c s' => if is_space c then trim_start s' else s
  | EmptyString => EmptyString
  end.

(** An optional sign: [(true, rest)] after a [-]. *)
Definition strip_sign (s : string) : bool * string :=
  match s with
  | String c s' =>
      if Ascii.eqb c "-" then (true, s')
      else if Ascii.eqb c "+" then (false, s')
      else (false, s)
  | EmptyString => (false, s)
  end.

(** The longest prefix of decimal digits, and what follows it. *)
Fixpoint take_digits (s : string) : string * string :=
  match s with
  | String c s' =>
      if is_digit c then
        let '(ds, rest) := take_digits s' in (String c ds, rest)
      else (EmptyString, s)
  | EmptyString => (EmptyString, EmptyString)
  end.

Fixpoint dec_value_from (acc : N) (ds : string) : N :=
  match ds with
  | String c ds' => dec_value_from (10 * acc + digit_value c)%N ds'
  | EmptyString => acc
  end.

(** The number written by a string of decimal digits. *)
Definition dec_value (ds : string) : N := dec_value_from 0 ds.

(** [parseInt(s, 10)]: white space, an optional sign, then the longest run
    of decimal digits; [NaN] when that run is empty.  What follows the
    digits is ignored. *)
Definition parseInt10 (s : string) : number :=
  let '(neg, body) := strip_sign (trim_start s) in
  let '(ds, _) := take_digits body in
  if String.eqb ds "" then NaN else Dec neg (dec_value ds) 0.

Fixpoint starts_with (p s : string) : bool :=
  match p, s with
  | EmptyString, _ => true
  | String a p', String b s' => Ascii.eqb a b && starts_with p' s'
  | String _ _, EmptyString => false
  end.

(** The exponent part [e], [E] followed by a signed run of digits; [0]
    when it is absent or has no digit. *)
Definition exponent (s : string) : Z :=
  match s with
  | String c s' =>
      if Ascii.eqb c "e" || Ascii.eqb c "E" then
        let '(eneg, body) := strip_sign s' in
        let '(ds, _) := take_digits body in
        if String.eqb ds "" then 0
        else if eneg then - Z.of_N (dec_value ds) else Z.of_N (dec_value ds)
      else 0
  | EmptyString => 0
  end.

(** [parseFloat(s)]: white space, then the longest prefix that is a
    decimal literal (sign, [Infinity] or digits with an optional fraction
    and exponent); [NaN] when there is none, as for the empty string. *)
Definition parseFloat (s : string) : number :=
  let '(neg, body) := strip_sign (trim_start s) in
  if starts_with "Infinity" body then Infinity neg
  else
    let '(ip, r) := take_digits body in
    let '(fp, r') :=
      match r with
      | String c r1 => if Ascii.eqb c "." then take_digits r1 else (EmptyString, r)
      | EmptyString => (EmptyString, r)
      end in
    if String.eqb ip "" && String.eqb fp "" then NaN
    else Dec neg (dec_value (ip +:+ fp)) (exponent r' - Z.of_nat (String.length fp)).

End JS.

(** ** The viewport parser (lines 133-135) *)

(** The argument of [page.setViewport]: [width] and [height] are [None] when
    the destructured array is too short ([undefined]). *)
Record Viewport := {
  width : option number;
  height : option number;
  deviceScaleFactor : number
}.

(** [[size, scale] = viewport.split('@')],
    [[width, height] = size.split('x').map(x => parseInt(x, 10))],
    [deviceScaleFactor = typeof scale === 'undefined' ? 1 : parseFloat(scale)].
    An array element past the end is [undefined], here [None]. *)
Definition parse_viewport (viewport : string) : Viewport :=
  let parts := JS.split "@" viewport in
  let size := hd EmptyString parts in
  let scale := parts !! 1%nat in
  let dims := map JS.parseInt10 (JS.split "x" size) in
  {| width := dims !! 0%nat;
     height := dims !! 1%nat;
     deviceScaleFactor :=
       match scale with
       | None => one
       | Some sc => JS.parseFloat sc
       end |}.

(** ** The command line and the collaborators *)

(** [argv] as yargs hands it to the handler.  An option is [None] when it
    is absent and a string when it is given with a value (the booleans and
    numbers yargs can also produce are outside the model; [debug] is kept
    by its truthiness).  [viewports] lists the own enumerable properties of
    the object in the order [for ... in] visits them; its keys are
    distinct. *)
Record Argv := {
  serve : option string;
  url : option string;
  file : option string;
  outDir : string;
  viewports : option (list (string * string));
  debug : bool;
  puppeteerArgs : option string;
  puppeteerExecutablePath : option string;
  puppeteerUserDataDir : option string;
  puppeteerWaitUntil : string
}.

(** The options object of [puppeteer.launch] (lines 99-104). *)
Record LaunchArgs := {
  args : list string;
  executablePath : option string;
  headless : bool;
  userDataDir : option string
}.

(** A thrown value, by its message. *)
Definition error := string.

(** How a promise settles. *)
Inductive result (A : Type) :=
| Resolved (a : A)
| Rejected (e : error).
Arguments Resolved {A} a.
Arguments Rejected {A} e.

Definition rejection {A} (r : result A) : option error :=
  match r with Resolved _ => None | Rejected e => Some e end.

(** The pure functions the handler takes from Node and from [url-join],
    and the two ambient paths. *)
Class Node := {
  path_join : string -> string -> string;
  path_resolve : string -> string -> string;
  urlJoin : string -> string -> string;
  cwd : string;
  dirname : string
}.

(** What the asynchronous collaborators answer.  The calls of the capture
    loop are told apart by the name of the viewport being processed.

    [listen dir port] is what becomes of [server.listen]: [Resolved] when
    the server listens, [Rejected e] when it emits the error [e] instead
    (the port is taken, say).

    The last three fields are the timing of the host's writes, which the
    handler does not control.  [write_lag name] is the number of awaited
    calls of the handler that settle between the issue of the write for the
    viewport [name] and the settlement of that write; [write_rank name]
    orders the writes that settle within the same awaited call (the lower
    rank first; writes settle one at a time, so a run gives the writes it
    cannot tell apart by their lag distinct ranks).  [write_cut name] is
    what the host has put on disk of the document of [name] when the
    process ends without having waited for the write: [None] when the file
    is as it was, [Some n] when it holds the first [n] bytes of the
    document. *)
Record Env := {
  getPort : result N;
  listen : string -> option N -> result unit;
  launch : LaunchArgs -> result unit;
  newPage : result unit;
  goto : option string -> string -> result unit;
  addScriptTag : string -> result unit;
  setViewport : string -> Viewport -> result unit;
  evaluate : string -> Viewport -> result string;
  mkdirp : string -> string -> result unit;
  writeFile : string -> string -> string -> result unit;
  write_lag : string -> nat;
  write_rank : string -> nat;
  write_cut : string -> option nat
}.

(** The calls the handler makes on its collaborators.  The [name] of the
    loop's calls is the loop variable [viewportName]. *)
Inductive Call :=
| CGetPort
| CListen (dir : string) (port : option N)
| CLaunch (la : LaunchArgs)
| CNewPage
| CBringToFront
| COnConsole
| CGoto (target : option string) (waitUntil : string)
| CAddScriptTag (path : string)
| CSetViewport (name : string) (v : Viewport)
| CEvaluate (name : string)
| CMkdirp (name : string) (path : string)
| CWriteFile (name : string) (path content : string)
| CPromiseAll
| CBrowserClose
| CServerClose
| CConsoleError (e : error)
| CExit (code : Z).

(** One entry of the run's history: a call the handler awaited, entered
    when it settles, with the error it rejected with if it did; a call the
    handler made without awaiting its completion; or the end the runtime
    puts to the process on an error nothing handles: it prints the error
    on the error stream and the process exits with the status 1.  An
    awaited call that has not settled when the process ends has no
    entry. *)
Inductive Event :=
| Await (c : Call) (failure : option error)
| Fire (c : Call)
| Abort (e : error).

(** A promise of [fs.writeFile]: how it settles, and when.  It settles
    while the handler waits for the call it awaits after [instant] awaited
    calls have settled; [rank] orders the promises of one instant. *)
Record Promise := {
  outcome : result unit;
  instant : nat;
  rank : nat
}.

(** The world the run acts on: the history of calls, the files and the
    directories on disk, the status the process has exited with, and what
    the runtime keeps of the progress of the handler: the number of awaited
    calls that have settled, and the promises of the writes issued so
    far.  While the handler runs [files] is the disk as the run found it:
    the writes are the host's work, and [run] leaves in [files] what they
    have put on disk once the process has ended. *)
Record World := {
  log : list Event;
  files : gmap string string;
  dirs : gset string;
  exited : option Z;
  clock : nat;
  issued : list Promise
}.

(** The exit status of the process: the status it has exited with, [0]
    when the handler's promise resolved. *)
Definition exit_code (w : World) : Z := default 0 (exited w).

(** The process has not exited. *)
Definition alive (w : World) : bool :=
  match exited w with None => true | Some _ => false end.

Definition set_exited (code : Z) (w : World) : World :=
  {| log := log w; files := files w; dirs := dirs w; exited := Some code;
     clock := clock w; issued := issued w |}.

(** ** What the calls do to the world *)

(** The directories on the way to [path], [path] included, for a path
    with [/] as its separator, as [path.resolve] gives on POSIX:
    [/work/out] has [/work] and [/work/out]. *)
Fixpoint prefixes_from (base : string) (segments : list string) : list string :=
  match segments with
  | [] => []
  | s :: rest =>
      (if String.eqb (base +:+ s) "" then [] else [base +:+ s])
      ++ prefixes_from (base +:+ s +:+ "/") rest
  end.

Definition ancestors (path : string) : list string :=
  prefixes_from "" (JS.split "/" path).

(** The effect of one event on the directories: [mkdirp] makes the
    directory and every missing directory on the way to it. *)
Definition made (ds : gset string) (e : Event) : gset string :=
  match e with
  | Await (CMkdirp _ path) None => list_to_set (ancestors path) ∪ ds
  | _ => ds
  end.

Definition made_dirs (evs : list Event) (ds : gset string) : gset string :=
  fold_left made evs ds.

(** The promise of the write for the viewport [name], issued when [k]
    awaited calls have settled. *)
Definition promise_of (env : Env) (k : nat) (name path content : string) : Promise :=
  {| outcome := writeFile env name path content;
     instant := k + write_lag env name;
     rank := write_rank env name |}.

(** The world after one more event: an awaited call that settles is one
    more on the clock, a directory creation that resolves has made its
    directories, a write that is issued has its promise. *)
Definition after (env : Env) (w : World) (e : Event) : World :=
  {| log := log w ++ [e];
     files := files w;
     dirs := made (dirs w) e;
     exited := exited w;
     clock := match e with Await _ _ => S (clock w) | _ => clock w end;
     issued := match e with
               | Fire (CWriteFile name path content) =>
                   issued w ++ [promise_of env (clock w) name path content]
               | _ => issued w
               end |}.

(** The world [w] after the events [evs]. *)
Definition extend (env : Env) (evs : list Event) (w : World) : World :=
  fold_left (after env) evs w.

(** What a write has left in its file when the process has ended: the
    whole document when the handler has [waited] for the writes (then
    [Promise.all] resolved, so every write did), what the host had put on
    disk by then otherwise. *)
Definition landed (env : Env) (waited : bool) (fs : gmap string string) (e : Event)
    : gmap string string :=
  match e with
  | Fire (CWriteFile name path content) =>
      if waited then <[path := content]> fs
      else match write_cut env name with
           | Some n => <[path := String.substring 0 n content]> fs
           | None => fs
           end
  | _ => fs
  end.

(** The disk after the writes of a history, taken in the order of their
    issue. *)
Definition replay (env : Env) (waited : bool) (evs : list Event)
    (fs : gmap string string) : gmap string string :=
  fold_left (landed env waited) evs fs.

(** The disk settled once the process has ended; [n] is the length of the
    history before the run. *)
Definition settle (env : Env) (n : nat) (w : World) : World :=
  {| log := log w;
     files := replay env (alive w) (drop n (log w)) (files w);
     dirs := dirs w;
     exited := exited w;
     clock := clock w;
     issued := issued w |}.

(** ** Promises that nothing waits for *)

(** [p] settles no later than [q]. *)
Definition sooner (p q : Promise) : bool :=
  (instant p <? instant q)%nat
  || ((instant p =? instant q)%nat && (rank p <=? rank q)%nat).

(** The promise that rejects first, in time, among [ps]. *)
Fixpoint first_rejection (ps : list Promise) : option Promise :=
  match ps with
  | [] => None
  | p :: ps' =>
      match outcome p, first_rejection ps' with
      | Resolved _, later => later
      | Rejected _, None => Some p
      | Rejected _, Some q => if sooner p q then Some p else Some q
      end
  end.

(** [Promise.all]: resolved when every promise is, rejected with the first
    rejection, in time, otherwise. *)
Definition all_settled (ps : list Promise) : result unit :=
  match first_rejection ps with
  | Some p => outcome p
  | None => Resolved tt
  end.

(** The rejection, if any, that has reached the runtime with no handler
    when [k] awaited calls have settled and the promises [ps] are the ones
    issued: an unhandled rejection, on which the runtime ends the process.
    That is what Node does from version 15 on; the earlier versions, which
    only warn, are outside the model. *)
Definition doom_at (k : nat) (ps : list Promise) : option error :=
  match first_rejection ps with
  | Some p => if (instant p <=? k)%nat then rejection (outcome p) else None
  | None => None
  end.

Definition doom (w : World) : option error := doom_at (clock w) (issued w).

(** ** The handler's monad: state and exceptions *)

Definition M (A : Type) : Type := World -> result A * World.

#[export] Instance M_ret : MRet M := fun A a w => (Resolved a, w).

#[export] Instance M_bind : MBind M := fun A B f m w =>
  match m w with
  | (Resolved a, w') => f a w'
  | (Rejected e, w') => (Rejected e, w')
  end.

#[export] Instance M_fmap : FMap M := fun A B f m w =>
  match m w with
  | (Resolved a, w') => (Resolved (f a), w')
  | (Rejected e, w') => (Rejected e, w')
  end.

(** The runtime ends the process on the error [e]. *)
Definition abort {A} (env : Env) (e : error) : M A :=
  fun w => (Rejected e, set_exited 1 (after env w (Abort e))).

(** [await c]: the call is made and the handler is suspended until it
    settles; a rejection is thrown.  When the rejection of a write issued
    before reaches the runtime in the meantime, the process ends there. *)
Definition await {A} (env : Env) (c : Call) (r : result A) : M A :=
  fun w =>
    match doom w with
    | Some e => abort env e w
    | None => (r, after env w (Await c (rejection r)))
    end.

(** A call whose promise (if any) is dropped or kept for later. *)
Definition fire (env : Env) (c : Call) : M unit :=
  fun w => (Resolved tt, after env w (Fire c)).

(** [await Promise.all(ps)]: from here on the promises have a handler. *)
Definition promise_all (env : Env) (ps : list Promise) : M unit :=
  fun w =>
    (all_settled ps, after env w (Await CPromiseAll (rejection (all_settled ps)))).

(** [process.exit(code)]. *)
Definition process_exit (env : Env) (code : Z) : M unit :=
  fun w => (Resolved tt, set_exited code (after env w (Fire (CExit code)))).

(** [try { body } finally { fin }]; nothing runs once the process has
    exited. *)
Definition try_finally {A} (body : M A) (fin : M unit) : M A :=
  fun w =>
    match body w with
    | (r, w1) =>
        if alive w1 then
          match fin w1 with
          | (Resolved _, w2) => (r, w2)
          | (Rejected e, w2) => (Rejected e, w2)
          end
        else (r, w1)
    end.

(** [try { body } catch (err) { handle err }]. *)
Definition try_catch {A} (body : M A) (handle : error -> M A) : M A :=
  fun w =>
    match body w with
    | (Resolved a, w1) => (Resolved a, w1)
    | (Rejected e, w1) => if alive w1 then handle e w1 else (Rejected e, w1)
    end.

(** ** The default command (lines 89-166) *)

Section Handler.

Context `{Node} (env : Env) (argv : Argv).

(** [String(port)]; the port is [null] when nothing is served. *)
Definition port_string (port : option N) : string :=
  match port with Some p => pretty p | None => "null" end.

(** [makeServer] (lines 18-30): resolves once the server listens.  The
    callback handed to [server.listen] is the listener of ['listening'] and
    is called without an argument, so the promise of line 26 never
    rejects; a server that cannot listen emits ['error'], which nothing
    listens to, and the runtime ends the process.  The server object is
    stood for by the port it was given. *)
Definition makeServer (relativePath : string) (port : option N) : M (option N) :=
  match listen env relativePath port with
  | Resolved _ =>
      _ ← await env (CListen relativePath port) (Resolved tt);
      mret port
  | Rejected e => abort env e
  end.

(** Line 95. *)
Definition target_url : option string :=
  if JS.truthy (file argv)
  then Some ("file://" +:+ path_join cwd (default EmptyString (file argv)))
  else url argv.

(** Line 96. *)
Definition symbolsUrl (port : option N) : option string :=
  if JS.truthy (serve argv)
  then Some (urlJoin ("http://localhost:" +:+ port_string port)
                     (JS.or_else (url argv) "/"))
  else target_url.

(** Lines 99-104. *)
Definition launchArgs : LaunchArgs :=
  {| args := if JS.truthy (puppeteerArgs argv)
             then JS.split " " (default EmptyString (puppeteerArgs argv))
             else [];
     executablePath := puppeteerExecutablePath argv;
     headless := negb (debug argv);
     userDataDir := puppeteerUserDataDir argv |}.

(** Lines 142 and 145. *)
Definition outputPath : string := path_resolve cwd (outDir argv).

Definition outputPagePath (viewport : string) : string :=
  path_join outputPath ("page-" +:+ viewport +:+ ".asketch.json").

(** [await mkdirpAsync(path)] (line 143). *)
Definition mkdirpAsync (name path : string) : M unit :=
  await env (CMkdirp name path) (mkdirp env name path).

(** [writeFileAsync] without [await] (line 146): the write is issued and
    its promise returned. *)
Definition writeFileAsync (name path content : string) : M Promise :=
  fun w =>
    (Resolved (promise_of env (clock w) name path content),
     after env w (Fire (CWriteFile name path content))).

(** The body of the [for ... in] loop (lines 130-149), over the entries
    still to visit; [promises] is [asketchPageJSONStringPromises]. *)
Fixpoint capture_loop (entries : list (string * string))
    (promises : list Promise) : M (list Promise) :=
  match entries with
  | [] => mret promises
  | (viewportName, viewport) :: rest =>
      let v := parse_viewport viewport in
      _ ← await env (CSetViewport viewportName v) (setViewport env viewportName v);
      asketchPageJSONString ←
        await env (CEvaluate viewportName) (evaluate env viewportName v);
      _ ← mkdirpAsync viewportName outputPath;
      asketchPageJSONPromise ←
        writeFileAsync viewportName (outputPagePath viewport) asketchPageJSONString;
      capture_loop rest (promises ++ [asketchPageJSONPromise])
  end.

(** Line 127. *)
Definition viewport_entries : list (string * string) :=
  default [("Desktop", "1024x768")] (viewports argv).

(** Lines 111-114. *)
Definition debug_hooks : M unit :=
  if debug argv then _ ← fire env CBringToFront; fire env COnConsole else mret tt.

(** Lines 109-151: the region guarded by the browser's [finally]. *)
Definition page_region (port : option N) : M unit :=
  _ ← await env CNewPage (newPage env);
  _ ← debug_hooks;
  _ ← await env (CGoto (symbolsUrl port) (puppeteerWaitUntil argv))
            (goto env (symbolsUrl port) (puppeteerWaitUntil argv));
  _ ← await env (CAddScriptTag (path_resolve dirname "./page2layers.bundle.js"))
            (addScriptTag env (path_resolve dirname "./page2layers.bundle.js"));
  asketchPageJSONStringPromises ← capture_loop viewport_entries [];
  promise_all env asketchPageJSONStringPromises.

(** Lines 152-156. *)
Definition browser_finally : M unit :=
  if negb (debug argv) then fire env CBrowserClose else mret tt.

(** Lines 95-156: the region guarded by the server's [finally]. *)
Definition browser_region (port : option N) : M unit :=
  _ ← await env (CLaunch launchArgs) (launch env launchArgs);
  try_finally (page_region port) browser_finally.

(** Lines 157-161; [server] is [null] when nothing is served. *)
Definition server_finally (server : option (option N)) : M unit :=
  match server with
  | Some _ => fire env CServerClose
  | None => mret tt
  end.

(** Lines 91-161. *)
Definition guarded : M unit :=
  port ← (if JS.truthy (serve argv)
          then Some <$> await env CGetPort (getPort env)
          else mret None);
  server ← (if JS.truthy (serve argv)
            then Some <$> makeServer (default EmptyString (serve argv)) port
            else mret None);
  try_finally (browser_region port) (server_finally server).

(** Lines 162-165. *)
Definition report (err : error) : M unit :=
  _ ← fire env (CConsoleError err);
  process_exit env 1.

Definition handler : M unit := try_catch guarded report.

(** The world once the command has run from [w] and the process has
    ended. *)
Definition run (w : World) : World :=
  settle env (length (log w)) (handler w).2.

End Handler.


(** ** The [install] command (lines 167-190) *)

Module Install.

(** What the command does, call by call: a line on the console, an awaited
    call with the error it rejected with if it did, or the plugin handed to
    the desktop. *)
Inductive Step :=
| Print (line : string)
| Rimraf (path : string) (failure : option error)
| Mkdirp (path : string) (failure : option error)
| Get (url : string) (failure : option error)
| Decompress (data path : string) (failure : option error)
| Open (path : string).

(** What the asynchronous collaborators of the command answer; [axios]
    resolves with the body of the response. *)
Record Host := {
  rimrafAsync : string -> result unit;
  mkdirpAsync : string -> result unit;
  axios : string -> result string;
  decompress : string -> string -> result unit
}.

(** The command's monad: the steps made so far, and exceptions.  The
    command has no [try]: a rejection ends it. *)
Definition Cmd (A : Type) : Type := list Step -> result A * list Step.

#[export] Instance Cmd_ret : MRet Cmd := fun A a h => (Resolved a, h).

#[export] Instance Cmd_bind : MBind Cmd := fun A B f m h =>
  match m h with
  | (Resolved a, h') => f a h'
  | (Rejected e, h') => (Rejected e, h')
  end.

Definition wait_for {A} (step : option error -> Step) (r : result A) : Cmd A :=
  fun h => (r, h ++ [step (rejection r)]).

Definition emit (s : Step) : Cmd unit := fun h => (Resolved tt, h ++ [s]).

(** An element of a destructured array inside a template literal: a
    missing one is [undefined] and prints as such. *)
Definition part (parts : list string) (i : nat) : string :=
  default "undefined" (parts !! i).

(** Lines 176-177: [[major, minor, patch] = version.split('.')] and the
    template of the release. *)
Definition releaseUrl (version : string) : string :=
  let parts := JS.split "." version in
  "http://github.com/brainly/html-sketchapp/releases/download/v" +:+ version
  +:+ "/asketch2sketch-" +:+ part parts 0 +:+ "-" +:+ part parts 1
  +:+ "-" +:+ part parts 2 +:+ ".sketchplugin.zip".

Section Command.

Context `{Node} (host : Host).

(** Line 171: [path.resolve(__dirname, '../', '.tmp')], the segments
    resolved from left to right. *)
Definition tmpDirPath : string :=
  path_resolve (path_resolve dirname "../") ".tmp".

(** Line 186. *)
Definition pluginPath : string :=
  path_resolve tmpDirPath "asketch2sketch.sketchplugin".

(** The handler of the command, for the [version] field of the
    [package.json] of html-sketchapp. *)
Definition install (version : string) : Cmd unit :=
  _ ← emit (Print ("Detected html-sketchapp v" +:+ version));
  _ ← wait_for (Rimraf tmpDirPath) (rimrafAsync host tmpDirPath);
  _ ← wait_for (Mkdirp tmpDirPath) (mkdirpAsync host tmpDirPath);
  _ ← emit (Print ("Downloading from " +:+ releaseUrl version));
  data ← wait_for (Get (releaseUrl version)) (axios host (releaseUrl version));
  _ ← emit (Print ("Extracting to " +:+ tmpDirPath));
  _ ← wait_for (Decompress data tmpDirPath) (decompress host data tmpDirPath);
  _ ← emit (Print ("Installing from " +:+ pluginPath));
  emit (Open pluginPath).

End Command.

(** The error an awaited step rejected with. *)
Definition failure_of (s : Step) : option error :=
  match s with
  | Rimraf _ f | Mkdirp _ f | Get _ f | Decompress _ _ f => f
  | Print _ | Open _ => None
  end.

(** The steps of a command that runs to its end with the response body
    [data]. *)
Definition script `{Node} (version data : string) : list Step :=
  [Print ("Detected html-sketchapp v" +:+ version);
   Rimraf tmpDirPath None;
   Mkdirp tmpDirPath None;
   Print ("Downloading from " +:+ releaseUrl version);
   Get (releaseUrl version) None;
   Print ("Extracting to " +:+ tmpDirPath);
   Decompress data tmpDirPath None;
   Print ("Installing from " +:+ pluginPath);
   Open pluginPath].

End Install.

(** ** The exit paths of the handler, as relations on histories *)

Section Traces.

Context `{Node} (env : Env) (argv : Argv).

(** What [console.error] and [process.exit] add for an outcome. *)
Definition report_events (o : option error) : list Event :=
  match o with
  | None => []
  | Some e => [Fire (CConsoleError e); Fire (CExit 1)]
  end.

Definition debug_events : list Event :=
  if debug argv then [Fire CBringToFront; Fire COnConsole] else [].

Definition script_path : string := path_resolve dirname "./page2layers.bundle.js".

(** The page is open, navigated to [symbolsUrl port] and the script is in. *)
Definition page_ready (port : option N) : list Event :=
  Await CNewPage None
  :: debug_events
  ++ [Await (CGoto (symbolsUrl argv port) (puppeteerWaitUntil argv)) None;
      Await (CAddScriptTag script_path) None].

(** One complete pass of the loop body for an entry whose page document
    is [doc]. *)
Definition iteration (name viewport doc : string) : list Event :=
  [Await (CSetViewport name (parse_viewport viewport)) None;
   Await (CEvaluate name) None;
   Await (CMkdirp name (outputPath argv)) None;
   Fire (CWriteFile name (outputPagePath argv viewport) doc)].

(** The promise of the write of a pass that started when [k] awaited calls
    had settled: three more have when the write is issued. *)
Definition written (k : nat) (name viewport doc : string) : Promise :=
  promise_of env (S (S (S k))) name (outputPagePath argv viewport) doc.

(** [loop_trace k ps0 entries evs ps o]: started when [k] awaited calls
    have settled and the promises [ps0] are issued, the loop makes over
    [entries] the calls [evs], collects the promises [ps] and ends with
    [o] ([Some e] when an awaited call threw [e]); no rejection reaches the
    runtime on the way. *)
Inductive loop_trace :
  nat -> list Promise -> list (string * string) ->
  list Event -> list Promise -> option error -> Prop :=
| loop_done k ps0 : loop_trace k ps0 [] [] [] None
| loop_resize_fails k ps0 name viewport rest e :
    doom_at k ps0 = None ->
    setViewport env name (parse_viewport viewport) = Rejected e ->
    loop_trace k ps0 ((name, viewport) :: rest)
      [Await (CSetViewport name (parse_viewport viewport)) (Some e)] [] (Some e)
| loop_evaluate_fails k ps0 name viewport rest e :
    doom_at (S k) ps0 = None ->
    setViewport env name (parse_viewport viewport) = Resolved tt ->
    evaluate env name (parse_viewport viewport) = Rejected e ->
    loop_trace k ps0 ((name, viewport) :: rest)
      [Await (CSetViewport name (parse_viewport viewport)) None;
       Await (CEvaluate name) (Some e)] [] (Some e)
| loop_mkdirp_fails k ps0 name viewport rest doc e :
    doom_at (S (S k)) ps0 = None ->
    setViewport env name (parse_viewport viewport) = Resolved tt ->
    evaluate env name (parse_viewport viewport) = Resolved doc ->
    mkdirp env name (outputPath argv) = Rejected e ->
    loop_trace k ps0 ((name, viewport) :: rest)
      [Await (CSetViewport name (parse_viewport viewport)) None;
       Await (CEvaluate name) None;
       Await (CMkdirp name (outputPath argv)) (Some e)] [] (Some e)
| loop_iteration k ps0 name viewport rest doc evs ps o :
    doom_at (S (S k)) ps0 = None ->
    setViewport env name (parse_viewport viewport) = Resolved tt ->
    evaluate env name (parse_viewport viewport) = Resolved doc ->
    mkdirp env name (outputPath argv) = Resolved tt ->
    loop_trace (S (S (S k))) (ps0 ++ [written k name viewport doc]) rest evs ps o ->
    loop_trace k ps0 ((name, viewport) :: rest)
      (iteration name viewport doc ++ evs)
      (written k name viewport doc :: ps) o.

(** [loop_death k ps0 entries evs e]: the rejection [e] of a write reaches
    the runtime while the loop waits for a call: the history stops with
    the calls [evs] that had settled and the end of the process. *)
Inductive loop_death :
  nat -> list Promise -> list (string * string) -> list Event -> error -> Prop :=
| death_resizing k ps0 name viewport rest e :
    doom_at k ps0 = Some e ->
    loop_death k ps0 ((name, viewport) :: rest) [Abort e] e
| death_extracting k ps0 name viewport rest e :
    doom_at k ps0 = None ->
    setViewport env name (parse_viewport viewport) = Resolved tt ->
    doom_at (S k) ps0 = Some e ->
    loop_death k ps0 ((name, viewport) :: rest)
      [Await (CSetViewport name (parse_viewport viewport)) None; Abort e] e
| death_making k ps0 name viewport rest doc e :
    doom_at (S k) ps0 = None ->
    setViewport env name (parse_viewport viewport) = Resolved tt ->
    evaluate env name (parse_viewport viewport) = Resolved doc ->
    doom_at (S (S k)) ps0 = Some e ->
    loop_death k ps0 ((name, viewport) :: rest)
      [Await (CSetViewport name (parse_viewport viewport)) None;
       Await (CEvaluate name) None; Abort e] e
| death_later k ps0 name viewport rest doc evs e :
    doom_at (S (S k)) ps0 = None ->
    setViewport env name (parse_viewport viewport) = Resolved tt ->
    evaluate env name (parse_viewport viewport) = Resolved doc ->
    mkdirp env name (outputPath argv) = Resolved tt ->
    loop_death (S (S (S k))) (ps0 ++ [written k name viewport doc]) rest evs e ->
    loop_death k ps0 ((name, viewport) :: rest)
      (iteration name viewport doc ++ evs) e.

(** The region inside the browser's [try], entered when [k] awaited calls
    have settled and no write is issued. *)
Inductive page_trace (port : option N) (k : nat) : list Event -> option error -> Prop :=
| page_newPage_fails e :
    newPage env = Rejected e ->
    page_trace port k [Await CNewPage (Some e)] (Some e)
| page_goto_fails e :
    newPage env = Resolved tt ->
    goto env (symbolsUrl argv port) (puppeteerWaitUntil argv) = Rejected e ->
    page_trace port k
      (Await CNewPage None
       :: debug_events
       ++ [Await (CGoto (symbolsUrl argv port) (puppeteerWaitUntil argv)) (Some e)])
      (Some e)
| page_inject_fails e :
    newPage env = Resolved tt ->
    goto env (symbolsUrl argv port) (puppeteerWaitUntil argv) = Resolved tt ->
    addScriptTag env script_path = Rejected e ->
    page_trace port k
      (Await CNewPage None
       :: debug_events
       ++ [Await (CGoto (symbolsUrl argv port) (puppeteerWaitUntil argv)) None;
           Await (CAddScriptTag script_path) (Some e)])
      (Some e)
| page_loop_fails evs ps e :
    newPage env = Resolved tt ->
    goto env (symbolsUrl argv port) (puppeteerWaitUntil argv) = Resolved tt ->
    addScriptTag env script_path = Resolved tt ->
    loop_trace (S (S (S k))) [] (viewport_entries argv) evs ps (Some e) ->
    page_trace port k (page_ready port ++ evs) (Some e)
| page_captured evs ps :
    newPage env = Resolved tt ->
    goto env (symbolsUrl argv port) (puppeteerWaitUntil argv) = Resolved tt ->
    addScriptTag env script_path = Resolved tt ->
    loop_trace (S (S (S k))) [] (viewport_entries argv) evs ps None ->
    page_trace port k
      (page_ready port ++ evs ++ [Await CPromiseAll (rejection (all_settled ps))])
      (rejection (all_settled ps)).

(** The process ends inside the loop. *)
Inductive page_death (port : option N) (k : nat) : list Event -> error -> Prop :=
| page_dies evs e :
    newPage env = Resolved tt ->
    goto env (symbolsUrl argv port) (puppeteerWaitUntil argv) = Resolved tt ->
    addScriptTag env script_path = Resolved tt ->
    loop_death (S (S (S k))) [] (viewport_entries argv) evs e ->
    page_death port k (page_ready port ++ evs) e.

Definition browser_close_events : list Event :=
  if debug argv then [] else [Fire CBrowserClose].

(** The region inside the server's [try]. *)
Inductive browser_trace (port : option N) (k : nat) : list Event -> option error -> Prop :=
| browser_launch_fails e :
    launch env (launchArgs argv) = Rejected e ->
    browser_trace port k [Await (CLaunch (launchArgs argv)) (Some e)] (Some e)
| browser_used pg o :
    launch env (launchArgs argv) = Resolved tt ->
    page_trace port (S k) pg o ->
    browser_trace port k
      (Await (CLaunch (launchArgs argv)) None :: pg ++ browser_close_events) o.

(** The process ends while the browser runs: no [finally] is reached. *)
Inductive browser_death (port : option N) (k : nat) : list Event -> error -> Prop :=
| browser_dies pg e :
    launch env (launchArgs argv) = Resolved tt ->
    page_death port (S k) pg e ->
    browser_death port k (Await (CLaunch (launchArgs argv)) None :: pg) e.

Definition served_dir : string := default EmptyString (serve argv).

(** The whole handler, from a world in which nothing has happened yet.
    The paths on which the runtime ends the process stop at its [Abort]:
    nothing is released and nothing is reported by the handler. *)
Inductive run_trace : list Event -> option error -> Prop :=
| run_getPort_fails e :
    JS.truthy (serve argv) = true ->
    getPort env = Rejected e ->
    run_trace (Await CGetPort (Some e) :: report_events (Some e)) (Some e)
| run_listen_aborts p e :
    JS.truthy (serve argv) = true ->
    getPort env = Resolved p ->
    listen env served_dir (Some p) = Rejected e ->
    run_trace [Await CGetPort None; Abort e] (Some e)
| run_served p body o :
    JS.truthy (serve argv) = true ->
    getPort env = Resolved p ->
    listen env served_dir (Some p) = Resolved tt ->
    browser_trace (Some p) 2 body o ->
    run_trace
      (Await CGetPort None :: Await (CListen served_dir (Some p)) None
       :: body ++ Fire CServerClose :: report_events o)
      o
| run_served_dies p body e :
    JS.truthy (serve argv) = true ->
    getPort env = Resolved p ->
    listen env served_dir (Some p) = Resolved tt ->
    browser_death (Some p) 2 body e ->
    run_trace
      (Await CGetPort None :: Await (CListen served_dir (Some p)) None :: body)
      (Some e)
| run_unserved body o :
    JS.truthy (serve argv) = false ->
    browser_trace None 0 body o ->
    run_trace (body ++ report_events o) o
| run_unserved_dies body e :
    JS.truthy (serve argv) = false ->
    browser_death None 0 body e ->
    run_trace body (Some e).

End Traces.

(** The world before a run: nothing logged, the given disk. *)
Definition fresh (fs : gmap string string) (ds : gset string) : World :=
  {| log := []; files := fs; dirs := ds; exited := None; clock := 0;
     issued := [] |}.

(** ** A reference host and reference collaborators

    Concrete values for the closed examples.  [posix] joins with a single
    [/]; it agrees with Node and [url-join] on operands that are already
    normalised (no [..] segment, no [.] segment other than a leading [./],
    no doubled or trailing [/] except the lone [/] of a root-relative
    url). *)

Definition drop_leading_slash (s : string) : string :=
  match s with
  | String c s' => if Ascii.eqb c "/" then s' else s
  | EmptyString => s
  end.

Definition drop_dot_slash (s : string) : string :=
  if JS.starts_with "./" s then String.substring 2 (String.length s - 2) s else s.

#[export] Instance posix : Node := {|
  path_join a b := a +:+ "/" +:+ b;
  path_resolve a b := if JS.starts_with "/" b then b
                      else a +:+ "/" +:+ drop_dot_slash b;
  urlJoin a b := a +:+ "/" +:+ drop_leading_slash b;
  cwd := "/work";
  dirname := "/opt/cli/bin"
|}.

(** Every collaborator succeeds; the page yields [doc name] for the
    viewport [name]. *)
Definition all_ok (port : N) (doc : string -> string) : Env := {|
  getPort := Resolved port;
  listen _ _ := Resolved tt;
  launch _ := Resolved tt;
  newPage := Resolved tt;
  goto _ _ := Resolved tt;
  addScriptTag _ := Resolved tt;
  setViewport _ _ := Resolved tt;
  evaluate name _ := Resolved (doc name);
  mkdirp _ _ := Resolved tt;
  writeFile _ _ _ := Resolved tt;
  write_lag _ := 0%nat;
  write_rank _ := 0%nat;
  write_cut _ := None
|}.

(** As [all_ok], but navigation always fails. *)
Definition goto_fails (port : N) (doc : string -> string) : Env := {|
  getPort := Resolved port;
  listen _ _ := Resolved tt;
  launch _ := Resolved tt;
  newPage := Resolved tt;
  goto _ _ := Rejected "navigation failed";
  addScriptTag _ := Resolved tt;
  setViewport _ _ := Resolved tt;
  evaluate name _ := Resolved (doc name);
  mkdirp _ _ := Resolved tt;
  writeFile _ _ _ := Resolved tt;
  write_lag _ := 0%nat;
  write_rank _ := 0%nat;
  write_cut _ := None
|}.

Definition base_argv : Argv := {|
  serve := None; url := None; file := None; outDir := "out";
  viewports := None; debug := false;
  puppeteerArgs := None; puppeteerExecutablePath := None;
  puppeteerUserDataDir := None; puppeteerWaitUntil := "networkidle2"
|}.

Definition with_url (u : string) (a : Argv) : Argv := {|
  serve := serve a; url := Some u; file := file a; outDir := outDir a;
  viewports := viewports a; debug := debug a;
  puppeteerArgs := puppeteerArgs a;
  puppeteerExecutablePath := puppeteerExecutablePath a;
  puppeteerUserDataDir := puppeteerUserDataDir a;
  puppeteerWaitUntil := puppeteerWaitUntil a
|}.

Definition with_serve (d : string) (a : Argv) : Argv := {|
  serve := Some d; url := url a; file := file a; outDir := outDir a;
  viewports := viewports a; debug := debug a;
  puppeteerArgs := puppeteerArgs a;
  puppeteerExecutablePath := puppeteerExecutablePath a;
  puppeteerUserDataDir := puppeteerUserDataDir a;
  puppeteerWaitUntil := puppeteerWaitUntil a
|}.

Definition with_file (f : string) (a : Argv) : Argv := {|
  serve := serve a; url := url a; file := Some f; outDir := outDir a;
  viewports := viewports a; debug := debug a;
  puppeteerArgs := puppeteerArgs a;
  puppeteerExecutablePath := puppeteerExecutablePath a;
  puppeteerUserDataDir := puppeteerUserDataDir a;
  puppeteerWaitUntil := puppeteerWaitUntil a
|}.

Definition with_viewports (vs : list (string * string)) (a : Argv) : Argv := {|
  serve := serve a; url := url a; file := file a; outDir := outDir a;
  viewports := Some vs; debug := debug a;
  puppeteerArgs := puppeteerArgs a;
  puppeteerExecutablePath := puppeteerExecutablePath a;
  puppeteerUserDataDir := puppeteerUserDataDir a;
  puppeteerWaitUntil := puppeteerWaitUntil a
|}.

Definition with_debug (a : Argv) : Argv := {|
  serve := serve a; url := url a; file := file a; outDir := outDir a;
  viewports := viewports a; debug := true;
  puppeteerArgs := puppeteerArgs a;
  puppeteerExecutablePath := puppeteerExecutablePath a;
  puppeteerUserDataDir := puppeteerUserDataDir a;
  puppeteerWaitUntil := puppeteerWaitUntil a
|}.

(** ** The vocabulary of the statements *)

(** *** Spec strings *)

(** A string of decimal digits. *)
Fixpoint all_digits (s : string) : bool :=
  match s with
  | EmptyString => true
  | String c s' => JS.is_digit c && all_digits s'
  end.

(** The character [c] occurs in [s]. *)
Fixpoint has_char (c : ascii) (s : string) : bool :=
  match s with
  | EmptyString => false
  | String a s' => Ascii.eqb a c || has_char c s'
  end.

(** A character that can start neither a number nor a separator: not a
    digit, a sign, white space, [x] or [@]. *)
Definition starts_no_number (c : ascii) : bool :=
  negb (JS.is_digit c) && negb (JS.is_space c)
  && negb (Ascii.eqb c "-") && negb (Ascii.eqb c "+")
  && negb (Ascii.eqb c "x") && negb (Ascii.eqb c "@").

(** *** Kinds of events *)

(** The calls ahead of the capture loop. *)
Definition setting_up (e : Event) : Prop :=
  match e with
  | Await CGetPort _ | Await (CListen _ _) _ | Await (CLaunch _) _
  | Await CNewPage _ | Fire CBringToFront | Fire COnConsole
  | Await (CGoto _ _) _ | Await (CAddScriptTag _) _ => True
  | _ => False
  end.

(** The calls of the capture loop. *)
Definition in_loop (e : Event) : Prop :=
  match e with
  | Await (CSetViewport _ _) _ | Await (CEvaluate _) _
  | Await (CMkdirp _ _) _ | Fire (CWriteFile _ _ _) => True
  | _ => False
  end.

(** The joint wait on the writes. *)
Definition is_join (e : Event) : Prop :=
  match e with
  | Await CPromiseAll _ => True
  | _ => False
  end.

(** The calls made on the page, between the launch and the teardown. *)
Definition on_page (e : Event) : Prop :=
  match e with
  | Await CNewPage _ | Fire CBringToFront | Fire COnConsole
  | Await (CGoto _ _) _ | Await (CAddScriptTag _) _
  | Await (CSetViewport _ _) _ | Await (CEvaluate _) _
  | Await (CMkdirp _ _) _ | Fire (CWriteFile _ _ _)
  | Await CPromiseAll _ => True
  | _ => False
  end.

(** A release. *)
Definition is_close (e : Event) : Prop :=
  match e with
  | Fire CBrowserClose | Fire CServerClose => True
  | _ => False
  end.

(** The releases and the report. *)
Definition winding (e : Event) : Prop :=
  match e with
  | Fire CBrowserClose | Fire CServerClose
  | Fire (CConsoleError _) | Fire (CExit _) => True
  | _ => False
  end.

(** What follows the browser's close: the server's close and the report. *)
Definition winding_down (e : Event) : Prop :=
  match e with
  | Fire CServerClose | Fire (CConsoleError _) | Fire (CExit _) => True
  | _ => False
  end.

(** Neither a release nor a report. *)
Definition working (e : Event) : Prop :=
  match e with
  | Fire CBrowserClose | Fire CServerClose
  | Fire (CConsoleError _) | Fire (CExit _) => False
  | _ => True
  end.

(** An awaited call that rejected. *)
Definition failed (e : Event) : Prop :=
  match e with
  | Await _ (Some _) => True
  | _ => False
  end.

(** The server listens. *)
Definition listening (e : Event) : Prop :=
  match e with
  | Await (CListen _ _) None => True
  | _ => False
  end.

(** A navigation is attempted. *)
Definition navigating (e : Event) : Prop :=
  match e with
  | Await (CGoto _ _) _ => True
  | _ => False
  end.

(** The extraction script is in the page. *)
Definition injected (e : Event) : Prop :=
  match e with
  | Await (CAddScriptTag _) None => True
  | _ => False
  end.

(** The resize for the viewport [name] has completed. *)
Definition resized (name : string) (e : Event) : Prop :=
  match e with
  | Await (CSetViewport n _) None => n = name
  | _ => False
  end.

(** The extraction for the viewport [name] is attempted. *)
Definition extracting (name : string) (e : Event) : Prop :=
  match e with
  | Await (CEvaluate n) _ => n = name
  | _ => False
  end.

(** The extraction for the viewport [name] has completed. *)
Definition extracted (name : string) (e : Event) : Prop :=
  match e with
  | Await (CEvaluate n) None => n = name
  | _ => False
  end.

(** The write for the viewport [name] is issued. *)
Definition writing (name : string) (e : Event) : Prop :=
  match e with
  | Fire (CWriteFile n _ _) => n = name
  | _ => False
  end.

(** The end the runtime puts to the process. *)
Definition dying (e : Event) : Prop :=
  match e with
  | Abort _ => True
  | _ => False
  end.

(** *** The histories of the loop *)

Section LoopEvents.

Context `{Node} (env : Env) (argv : Argv).

(** What the loop can leave in a history over [entries], however it ends:
    complete passes, then nothing more, a pass cut short by a call that
    rejects, or a pass cut short by the end of the process. *)
Inductive loop_events : list (string * string) -> list Event -> Prop :=
| events_done : loop_events [] []
| events_abort entries e : loop_events entries [Abort e]
| events_resize_fails name viewport rest e :
    loop_events ((name, viewport) :: rest)
      [Await (CSetViewport name (parse_viewport viewport)) (Some e)]
| events_resized_abort name viewport rest e :
    loop_events ((name, viewport) :: rest)
      [Await (CSetViewport name (parse_viewport viewport)) None; Abort e]
| events_evaluate_fails name viewport rest e :
    loop_events ((name, viewport) :: rest)
      [Await (CSetViewport name (parse_viewport viewport)) None;
       Await (CEvaluate name) (Some e)]
| events_extracted_abort name viewport rest e :
    loop_events ((name, viewport) :: rest)
      [Await (CSetViewport name (parse_viewport viewport)) None;
       Await (CEvaluate name) None; Abort e]
| events_mkdirp_fails name viewport rest e :
    loop_events ((name, viewport) :: rest)
      [Await (CSetViewport name (parse_viewport viewport)) None;
       Await (CEvaluate name) None;
       Await (CMkdirp name (outputPath argv)) (Some e)]
| events_iteration name viewport rest doc evs :
    evaluate env name (parse_viewport viewport) = Resolved doc ->
    loop_events rest evs ->
    loop_events ((name, viewport) :: rest) (iteration argv name viewport doc ++ evs).

End LoopEvents.

(** *** Orders *)

(** [precedes P Q l]: every [Q]-event of [l] has a [P]-event before it. *)
Definition precedes (P Q : Event -> Prop) (l : list Event) : Prop :=
  forall l1 e l2, l = l1 ++ e :: l2 -> Q e -> Exists P l1.

(** A resize or an extraction, by the viewport's name. *)
Inductive Capture :=
| Resize (name : string)
| Extract (name : string).

Definition capture_of (e : Event) : option Capture :=
  match e with
  | Await (CSetViewport name _) _ => Some (Resize name)
  | Await (CEvaluate name) _ => Some (Extract name)
  | _ => None
  end.

Definition is_capture (e : Event) : Prop :=
  match capture_of e with Some _ => True | None => False end.

(** The captures of a history, in order. *)
Definition captures (l : list Event) : list Capture := omap capture_of l.

(** The captures the entries call for: each entry's resize, then its
    extraction, entry after entry. *)
Definition schedule (entries : list (string * string)) : list Capture :=
  flat_map (fun entry => [Resize entry.1; Extract entry.1]) entries.

(** *** Outcomes *)

(** The promise of a region that ended with [o]. *)
Definition settled (o : option error) : result unit :=
  match o with
  | None => Resolved tt
  | Some e => Rejected e
  end.

(** The handler has waited for the writes: the run ended without an
    error. *)
Definition waited (o : option error) : bool :=
  match o with None => true | Some _ => false end.

(** The histories of an outcome: without a failure every awaited call
    resolved; with the failure [e] the awaited calls resolved up to the one
    that rejected with [e], which is the last call of the segment. *)
Definition ends_with (o : option error) (l : list Event) : Prop :=
  match o with
  | None => Forall (fun x => ~ failed x) l
  | Some e =>
      exists pre c,
        l = pre ++ [Await c (Some e)] /\ Forall (fun x => ~ failed x) pre
  end.

(** What follows the loop when it ends with [o]: the joint wait on the
    promises [ps] when it completed, nothing when it threw. *)
Definition join_events (ps : list Promise) (o : option error) : list Event :=
  match o with
  | None => [Await CPromiseAll (rejection (all_settled ps))]
  | Some _ => []
  end.

(** *** Acquisition and release *)

Definition is_listen_ok (e : Event) : bool :=
  match e with Await (CListen _ _) None => true | _ => false end.

Definition is_launch_ok (e : Event) : bool :=
  match e with Await (CLaunch _) None => true | _ => false end.

(** The server listens after [body]. *)
Definition acquired_server (body : list Event) : bool := existsb is_listen_ok body.

(** The browser runs after [body]. *)
Definition acquired_browser (body : list Event) : bool := existsb is_launch_ok body.

(** The releases owed after [body], the later acquisition first; the
    browser's is not made in debug mode. *)
Definition teardown (argv : Argv) (body : list Event) : list Event :=
  (if acquired_browser body && negb (debug argv) then [Fire CBrowserClose] else [])
  ++ (if acquired_server body then [Fire CServerClose] else []).

(** A call ahead of the loop or of the loop that resolved or was issued:
    what a history holds before the runtime ends the process. *)
Definition underway (e : Event) : Prop :=
  (setting_up e \/ in_loop e) /\ ~ failed e.

(** What makes the runtime end the process with the error [e] in a run
    whose history is [l]: a served directory whose server cannot listen,
    or a write of the history that is rejected with [e]. *)
Definition abort_cause `{Node} (env : Env) (argv : Argv) (l : list Event)
    (e : error) : Prop :=
  (JS.truthy (serve argv) = true
   /\ exists p, getPort env = Resolved p
                /\ listen env (served_dir argv) (Some p) = Rejected e)
  \/ (exists name path content,
        Fire (CWriteFile name path content) ∈ l
        /\ writeFile env name path content = Rejected e).

(** The server stage is passed: nothing is served, or the port is
    assigned and the server listens. *)
Definition server_ready (env : Env) (argv : Argv) : Prop :=
  JS.truthy (serve argv) = false
  \/ exists p, getPort env = Resolved p
               /\ listen env (served_dir argv) (Some p) = Resolved tt.

(** C1 as it is worded, for one history: whatever was acquired is
    released. *)
Definition releases_all_acquired (l : list Event) : Prop :=
  (acquired_server l = true -> Fire CServerClose ∈ l)
  /\ (acquired_browser l = true -> Fire CBrowserClose ∈ l).

(** *** Targets *)

(** The port the server was given, when one is served. *)
Definition assigned_port (env : Env) (argv : Argv) : option N :=
  if JS.truthy (serve argv)
  then match getPort env with
       | Resolved p => Some p
       | Rejected _ => None
       end
  else None.

(** C2 as it is worded: the file first, then the served origin, then the
    url. *)
Definition file_first_url `{Node} (argv : Argv) (port : option N) : option string :=
  if JS.truthy (file argv)
  then Some ("file://" +:+ path_join cwd (default EmptyString (file argv)))
  else if JS.truthy (serve argv)
       then Some (urlJoin ("http://localhost:" +:+ port_string port)
                          (JS.or_else (url argv) "/"))
       else url argv.

(** The order the handler follows: the served origin first. *)
Definition serve_first_url `{Node} (argv : Argv) (port : option N) : option string :=
  if JS.truthy (serve argv)
  then Some (urlJoin ("http://localhost:" +:+ port_string port)
                     (JS.or_else (url argv) "/"))
  else if JS.truthy (file argv)
       then Some ("file://" +:+ path_join cwd (default EmptyString (file argv)))
       else url argv.

(** Every stage ahead of the capture loop succeeds: the server (when one
    is asked for), the launch, the page, the navigation and the injection. *)
Definition before_loop_ok `{Node} (env : Env) (argv : Argv) : Prop :=
  (JS.truthy (serve argv) = true ->
   exists p, getPort env = Resolved p
             /\ listen env (served_dir argv) (Some p) = Resolved tt)
  /\ launch env (launchArgs argv) = Resolved tt
  /\ newPage env = Resolved tt
  /\ goto env (symbolsUrl argv (assigned_port env argv)) (puppeteerWaitUntil argv)
     = Resolved tt
  /\ addScriptTag env script_path = Resolved tt.

(** *** Output files *)

(** The document the page yields for an entry. *)
Definition doc_of (env : Env) (name viewport : string) : string :=
  match evaluate env name (parse_viewport viewport) with
  | Resolved doc => doc
  | Rejected _ => EmptyString
  end.

(** The file an entry leaves when its write succeeds. *)
Definition write_entry `{Node} (env : Env) (argv : Argv)
    (fs : gmap string string) (entry : string * string) : gmap string string :=
  <[outputPagePath argv entry.2 := doc_of env entry.1 entry.2]> fs.

(** *** Sample command lines and collaborators *)

(** As [all_ok], but the extraction for the viewport [bad] throws. *)
Definition evaluate_fails (bad : string) (doc : string -> string) : Env := {|
  getPort := Resolved 3000%N;
  listen _ _ := Resolved tt;
  launch _ := Resolved tt;
  newPage := Resolved tt;
  goto _ _ := Resolved tt;
  addScriptTag _ := Resolved tt;
  setViewport _ _ := Resolved tt;
  evaluate name _ :=
    if String.eqb name bad then Rejected "extraction failed"
    else Resolved (doc name);
  mkdirp _ _ := Resolved tt;
  writeFile _ _ _ := Resolved tt;
  write_lag _ := 0%nat;
  write_rank _ := 0%nat;
  write_cut _ := None
|}.

(** As [all_ok], but the browser refuses a viewport whose width or height
    is not a number. *)
Definition refuses_NaN (doc : string -> string) : Env := {|
  getPort := Resolved 3000%N;
  listen _ _ := Resolved tt;
  launch _ := Resolved tt;
  newPage := Resolved tt;
  goto _ _ := Resolved tt;
  addScriptTag _ := Resolved tt;
  setViewport _ v :=
    match width v, height v with
    | Some (Dec _ _ _), Some (Dec _ _ _) => Resolved tt
    | _, _ => Rejected "invalid viewport"
    end;
  evaluate name _ := Resolved (doc name);
  mkdirp _ _ := Resolved tt;
  writeFile _ _ _ := Resolved tt;
  write_lag _ := 0%nat;
  write_rank _ := 0%nat;
  write_cut _ := None
|}.

(** None of [url], [serve] and [file]. *)
Definition nothing_configured : Argv := base_argv.

(** A served directory. *)
Definition plain_run : Argv := with_serve "dist" base_argv.

(** A served directory, in debug mode. *)
Definition debug_run : Argv :=
  with_debug (with_serve "dist" base_argv).

(** A served directory and a file. *)
Definition serve_and_file : Argv :=
  with_file "index.html" (with_serve "dist" base_argv).

(** A viewports object without entries. *)
Definition empty_viewports : Argv :=
  with_viewports [] (with_url "http://example.test/" base_argv).

(** One viewport whose width and height are not numbers. *)
Definition malformed_spec : Argv :=
  with_viewports [("Desktop", "axb")] (with_url "http://example.test/" base_argv).

(** Two viewports of different sizes. *)
Definition two_viewports : Argv :=
  with_viewports [("Desktop", "1024x768"); ("Mobile", "320x568")]
    (with_url "http://example.test/" base_argv).

(** Two viewports with the same spec string. *)
Definition same_spec_twice : Argv :=
  with_viewports [("Desktop", "1024x768"); ("Tablet", "1024x768")]
    (with_url "http://example.test/" base_argv).

(** Two viewports of different sizes, on a served directory. *)
Definition served_two_viewports : Argv :=
  with_viewports [("Desktop", "1024x768"); ("Mobile", "320x568")]
    (with_serve "dist" base_argv).

(** *** More on strings *)

(** [s] does not start with a decimal digit. *)
Definition no_leading_digit (s : string) : bool :=
  match s with
  | String c _ => negb (JS.is_digit c)
  | EmptyString => true
  end.

(** The number of occurrences of [c] in [s]. *)
Fixpoint count_char (c : ascii) (s : string) : nat :=
  match s with
  | EmptyString => 0%nat
  | String a s' => ((if Ascii.eqb a c then 1 else 0) + count_char c s')%nat
  end.

(** A command line with the given [--puppeteer-args]. *)
Definition with_puppeteerArgs (s : string) (a : Argv) : Argv := {|
  serve := serve a; url := url a; file := file a; outDir := outDir a;
  viewports := viewports a; debug := debug a;
  puppeteerArgs := Some s;
  puppeteerExecutablePath := puppeteerExecutablePath a;
  puppeteerUserDataDir := puppeteerUserDataDir a;
  puppeteerWaitUntil := puppeteerWaitUntil a
|}.

(** *** Stages of a run *)

(** The calls outside the capture loop, by kind. *)
Inductive Stage :=
| SGetPort | SListen | SLaunch | SNewPage | SBringToFront | SOnConsole
| SGoto | SInject | SJoin | SBrowserClose | SServerClose | SReport | SExit.

#[export] Instance Stage_eq_dec : EqDecision Stage.
Proof. solve_decision. Defined.

Definition stage_of (e : Event) : option Stage :=
  match e with
  | Await CGetPort _ => Some SGetPort
  | Await (CListen _ _) _ => Some SListen
  | Await (CLaunch _) _ => Some SLaunch
  | Await CNewPage _ => Some SNewPage
  | Fire CBringToFront => Some SBringToFront
  | Fire COnConsole => Some SOnConsole
  | Await (CGoto _ _) _ => Some SGoto
  | Await (CAddScriptTag _) _ => Some SInject
  | Await CPromiseAll _ => Some SJoin
  | Fire CBrowserClose => Some SBrowserClose
  | Fire CServerClose => Some SServerClose
  | Fire (CConsoleError _) => Some SReport
  | Fire (CExit _) => Some SExit
  | _ => None
  end.

(** The calls made on the server. *)
Definition on_server (e : Event) : Prop :=
  match e with
  | Await CGetPort _ | Await (CListen _ _) _ | Fire CServerClose => True
  | _ => False
  end.

(** The two hooks of the debug mode. *)
Definition is_hook (e : Event) : Prop :=
  match e with
  | Fire CBringToFront | Fire COnConsole => True
  | _ => False
  end.

(** The output directory was made for the viewport [name]. *)
Definition dir_made (name : string) (e : Event) : Prop :=
  match e with
  | Await (CMkdirp n _) None => n = name
  | _ => False
  end.

Definition is_mkdirp_ok (e : Event) : bool :=
  match e with Await (CMkdirp _ _) None => true | _ => false end.

(** *** Entries that go through *)

(** The awaited calls of an entry's pass through the loop resolve. *)
Definition capture_ok `{Node} (env : Env) (argv : Argv) (entry : string * string)
    : Prop :=
  setViewport env entry.1 (parse_viewport entry.2) = Resolved tt
  /\ (exists doc, evaluate env entry.1 (parse_viewport entry.2) = Resolved doc)
  /\ mkdirp env entry.1 (outputPath argv) = Resolved tt.

(** How the write of an entry's document settles. *)
Definition write_result `{Node} (env : Env) (argv : Argv) (entry : string * string)
    : result unit :=
  writeFile env entry.1 (outputPagePath argv entry.2) (doc_of env entry.1 entry.2).

Definition entry_ok `{Node} (env : Env) (argv : Argv) (entry : string * string)
    : Prop :=
  capture_ok env argv entry /\ write_result env argv entry = Resolved tt.

(** The complete pass of the loop body for an entry. *)
Definition full_iteration `{Node} (env : Env) (argv : Argv)
    (entry : string * string) : list Event :=
  iteration argv entry.1 entry.2 (doc_of env entry.1 entry.2).

(** The number of awaited calls that have settled when the loop starts:
    the port and the server of a served run, the launch, the page, the
    navigation and the script. *)
Definition loop_start (argv : Argv) : nat :=
  if JS.truthy (serve argv) then 6%nat else 4%nat.

(** The promises of the writes of a loop that goes through every entry,
    started when [k] awaited calls have settled. *)
Fixpoint loop_promises `{Node} (env : Env) (argv : Argv) (k : nat)
    (entries : list (string * string)) : list Promise :=
  match entries with
  | [] => []
  | (name, viewport) :: rest =>
      written env argv k name viewport (doc_of env name viewport)
      :: loop_promises env argv (S (S (S k))) rest
  end.

(** The outcome of the loop and the joint wait: the loop's error when it
    threw, what the joint wait rejects with otherwise. *)
Definition loop_outcome (ol : option error) (ps : list Promise)
    : option error :=
  match ol with
  | Some e => Some e
  | None => rejection (all_settled ps)
  end.

(** As [all_ok], but the write for the viewport [bad] is rejected. *)
Definition write_fails (bad : string) (doc : string -> string) : Env := {|
  getPort := Resolved 3000%N;
  listen _ _ := Resolved tt;
  launch _ := Resolved tt;
  newPage := Resolved tt;
  goto _ _ := Resolved tt;
  addScriptTag _ := Resolved tt;
  setViewport _ _ := Resolved tt;
  evaluate name _ := Resolved (doc name);
  mkdirp _ _ := Resolved tt;
  writeFile name _ _ :=
    if String.eqb name bad then Rejected "ENOSPC: no space left on device"
    else Resolved tt;
  write_lag _ := 0%nat;
  write_rank _ := 0%nat;
  write_cut _ := Some 0%nat
|}.

(** As [env], on a host that has put the first [n] bytes of each document
    on disk when the process ends without having waited for the writes. *)
Definition cut_short (n : nat) (env : Env) : Env := {|
  getPort := getPort env;
  listen := listen env;
  launch := launch env;
  newPage := newPage env;
  goto := goto env;
  addScriptTag := addScriptTag env;
  setViewport := setViewport env;
  evaluate := evaluate env;
  mkdirp := mkdirp env;
  writeFile := writeFile env;
  write_lag := write_lag env;
  write_rank := write_rank env;
  write_cut _ := Some n
|}.

(** No [--viewports]: the default of line 127 applies. *)
Definition default_run : Argv := with_url "http://example.test/" base_argv.

(** *** The page and its hooks *)

(** The page is open. *)
Definition page_opened (e : Event) : Prop :=
  match e with
  | Await CNewPage None => True
  | _ => False
  end.

Definition brought_to_front (e : Event) : Prop :=
  match e with
  | Fire CBringToFront => True
  | _ => False
  end.

Definition console_hooked (e : Event) : Prop :=
  match e with
  | Fire COnConsole => True
  | _ => False
  end.

(** The viewport of the default entry. *)
Definition desktop : Viewport :=
  {| width := Some (Dec false 1024 0); height := Some (Dec false 768 0);
     deviceScaleFactor := one |}.


(** * Properties *)

(** ** Worlds and histories *)

Lemma extend_nil env w : extend env [] w = w.
Proof. reflexivity. Qed.

Lemma extend_app env l1 l2 w :
  extend env l2 (extend env l1 w) = extend env (l1 ++ l2) w.
Proof. unfold extend. by rewrite fold_left_app. Qed.

Lemma extend_cons env e l w :
  extend env l (extend env [e] w) = extend env (e :: l) w.
Proof. by rewrite extend_app. Qed.

Lemma log_extend env evs : forall w, log (extend env evs w) = log w ++ evs.
Proof.
  induction evs as [|e evs IH]; intros w; simpl; [by rewrite app_nil_r|].
  rewrite IH. simpl. by rewrite <- app_assoc.
Qed.

Lemma files_extend env evs : forall w, files (extend env evs w) = files w.
Proof. induction evs as [|e evs IH]; intros w; simpl; [done|]. by rewrite IH. Qed.

Lemma exited_extend env evs : forall w, exited (extend env evs w) = exited w.
Proof. induction evs as [|e evs IH]; intros w; simpl; [done|]. by rewrite IH. Qed.

Lemma dirs_extend env evs : forall w,
  dirs (extend env evs w) = made_dirs evs (dirs w).
Proof.
  unfold made_dirs. induction evs as [|e evs IH]; intros w; simpl; [done|].
  by rewrite IH.
Qed.

Lemma alive_extend env evs w : alive (extend env evs w) = alive w.
Proof. unfold alive. by rewrite exited_extend. Qed.

Lemma doom_at_nil k : doom_at k [] = None.
Proof. reflexivity. Qed.

Ltac as_extend env :=
  repeat match goal with
         | |- context [after env ?w ?e] =>
             change (after env w e) with (extend env [e] w)
         end.

Arguments extend : simpl never.

(** Two ways of writing the world after the same events. *)
Ltac same_world env :=
  as_extend env; rewrite ?extend_app; simpl;
  repeat (rewrite <- app_assoc; simpl);
  rewrite ?app_nil_r; try reflexivity.

Section Soundness.

Context `{Node} (env : Env) (argv : Argv).

(** The world after a complete pass: three awaited calls have settled and
    the write has its promise. *)
Lemma iteration_world name viewport doc w :
  clock (extend env (iteration argv name viewport doc) w) = S (S (S (clock w)))
  /\ issued (extend env (iteration argv name viewport doc) w)
     = issued w ++ [written env argv (clock w) name viewport doc].
Proof. done. Qed.

Lemma page_ready_world port w :
  clock (extend env (page_ready argv port) w) = S (S (S (clock w)))
  /\ issued (extend env (page_ready argv port) w) = issued w.
Proof. unfold page_ready, debug_events. by destruct (debug argv). Qed.

(** The loop either runs to its end or to a rejected call, or the process
    ends in it. *)
Lemma capture_loop_sound entries : forall ps0 w,
  (exists evs ps o,
      loop_trace env argv (clock w) (issued w) entries evs ps o
      /\ capture_loop env argv entries ps0 w
         = (match o with
            | None => Resolved (ps0 ++ ps)
            | Some e => Rejected e
            end, extend env evs w))
  \/ (exists evs e,
        loop_death env argv (clock w) (issued w) entries evs e
        /\ capture_loop env argv entries ps0 w
           = (Rejected e, set_exited 1 (extend env evs w))).
Proof.
  induction entries as [|[name viewport] rest IH]; intros ps0 w.
  - left. exists [], [], None. split; [constructor|].
    simpl. unfold mret, M_ret. by rewrite app_nil_r.
  - simpl. unfold mbind, M_bind, mkdirpAsync, writeFileAsync, await, doom.
    destruct (doom_at (clock w) (issued w)) as [e|] eqn:Hd0.
    { right. exists [Abort e], e. split; [by apply death_resizing|done]. }
    destruct (setViewport env name (parse_viewport viewport)) as [[]|e] eqn:Hsv.
    2:{ left. eexists _, _, (Some e). split; [by apply loop_resize_fails|done]. }
    simpl.
    destruct (doom_at (S (clock w)) (issued w)) as [e|] eqn:Hd1.
    { right. eexists [_; Abort e], e. split; [by apply death_extracting|done]. }
    destruct (evaluate env name (parse_viewport viewport)) as [doc|e] eqn:Hev.
    2:{ left. eexists _, _, (Some e). split; [by apply loop_evaluate_fails|done]. }
    simpl.
    destruct (doom_at (S (S (clock w))) (issued w)) as [e|] eqn:Hd2.
    { right. eexists [_; _; Abort e], e. split; [by eapply death_making|done]. }
    destruct (mkdirp env name (outputPath argv)) as [[]|e] eqn:Hmk.
    2:{ left. eexists _, _, (Some e). split; [by eapply loop_mkdirp_fails|done]. }
    simpl.
    destruct (IH (ps0 ++ [promise_of env (S (S (S (clock w)))) name
                            (outputPagePath argv viewport) doc])
                (extend env (iteration argv name viewport doc) w))
      as [(evs & ps & o & Ht & Heq)|(evs & e & Ht & Heq)].
    + left. exists (iteration argv name viewport doc ++ evs),
        (written env argv (clock w) name viewport doc :: ps), o.
      split; [by apply loop_iteration|].
      unfold extend in *. simpl in *. rewrite Heq.
      unfold written. by rewrite <- app_assoc.
    + right. exists (iteration argv name viewport doc ++ evs), e.
      split; [by eapply death_later|].
      unfold extend in *. simpl in *. by rewrite Heq.
Qed.

Lemma settled_rejection (r : result unit) : settled (rejection r) = r.
Proof. by destruct r as [[]|e]. Qed.

Lemma debug_hooks_sound w :
  debug_hooks env argv w = (Resolved tt, extend env (debug_events argv) w).
Proof.
  unfold debug_hooks, debug_events. by destruct (debug argv).
Qed.

Lemma page_region_sound port w :
  issued w = [] ->
  (exists pg o,
      page_trace env argv port (clock w) pg o
      /\ page_region env argv port w = (settled o, extend env pg w))
  \/ (exists pg e,
        page_death env argv port (clock w) pg e
        /\ page_region env argv port w
           = (Rejected e, set_exited 1 (extend env pg w))).
Proof.
  intros Hissued.
  unfold page_region, mbind, M_bind, await, doom. rewrite Hissued, doom_at_nil.
  destruct (newPage env) as [[]|e] eqn:Hnp.
  2:{ left. eexists _, (Some e). split; [by apply page_newPage_fails|done]. }
  rewrite debug_hooks_sound. simpl.
  assert (Hhooks : issued (extend env (debug_events argv)
                             (after env w (Await CNewPage None))) = []).
  { unfold debug_events. by destruct (debug argv). }
  rewrite Hhooks, doom_at_nil.
  destruct (goto env (symbolsUrl argv port) (puppeteerWaitUntil argv))
    as [[]|e] eqn:Hgo.
  2:{ left. eexists _, (Some e). split; [by apply page_goto_fails|].
      by same_world env. }
  simpl. rewrite Hhooks, doom_at_nil.
  destruct (addScriptTag env (path_resolve dirname "./page2layers.bundle.js"))
    as [[]|e] eqn:Hadd.
  2:{ left. eexists _, (Some e). split; [by apply page_inject_fails|].
      by same_world env. }
  simpl.
  replace (after env
             (after env
                (extend env (debug_events argv) (after env w (Await CNewPage None)))
                (Await (CGoto (symbolsUrl argv port) (puppeteerWaitUntil argv)) None))
             (Await (CAddScriptTag (path_resolve dirname "./page2layers.bundle.js"))
                None))
    with (extend env (page_ready argv port) w)
    by (unfold page_ready, script_path; by same_world env).
  destruct (page_ready_world port w) as [Hclock Hready].
  destruct (capture_loop_sound (viewport_entries argv) []
              (extend env (page_ready argv port) w))
    as [(evs & ps & o & Ht & Heq)|(evs & e & Ht & Heq)];
    rewrite Hclock, Hready, Hissued in Ht; rewrite Heq.
  - destruct o as [e|].
    + left. eexists _, (Some e). split; [by eapply page_loop_fails|].
      by rewrite extend_app.
    + left. eexists _, _. split; [by eapply page_captured|].
      simpl. unfold promise_all. rewrite settled_rejection.
      by same_world env.
  - right. eexists _, e. split; [by eapply page_dies|].
    by rewrite extend_app.
Qed.

Lemma browser_region_sound port w :
  issued w = [] -> exited w = None ->
  (exists body o,
      browser_trace env argv port (clock w) body o
      /\ browser_region env argv port w = (settled o, extend env body w))
  \/ (exists body e,
        browser_death env argv port (clock w) body e
        /\ browser_region env argv port w
           = (Rejected e, set_exited 1 (extend env body w))).
Proof.
  intros Hissued Hexited.
  unfold browser_region, mbind, M_bind, await, doom, try_finally.
  rewrite Hissued, doom_at_nil.
  destruct (launch env (launchArgs argv)) as [[]|e] eqn:Hla.
  2:{ left. eexists _, (Some e). split; [by apply browser_launch_fails|done]. }
  simpl.
  destruct (page_region_sound port (after env w (Await (CLaunch (launchArgs argv)) None)))
    as [(pg & o & Ht & ->)|(pg & e & Ht & ->)]; [done| |].
  - left. exists (Await (CLaunch (launchArgs argv)) None
                  :: pg ++ browser_close_events argv), o.
    split; [by apply browser_used|].
    as_extend env. rewrite alive_extend. unfold alive. simpl. rewrite Hexited.
    unfold browser_finally, browser_close_events.
    destruct (debug argv); simpl.
    + unfold mret, M_ret. by same_world env.
    + unfold fire. by same_world env.
  - right. exists (Await (CLaunch (launchArgs argv)) None :: pg), e.
    split; [by apply browser_dies|].
    by same_world env.
Qed.

(** The world the handler leaves, read off an exit path. *)
Lemma handler_sound fs ds :
  exists tr o,
    run_trace env argv tr o
    /\ (handler env argv (fresh fs ds)).2
       = match o with
         | None => extend env tr (fresh fs ds)
         | Some _ => set_exited 1 (extend env tr (fresh fs ds))
         end.
Proof.
  unfold handler, try_catch, guarded, mbind, M_bind, fmap, M_fmap,
    makeServer, await, doom, try_finally.
  destruct (JS.truthy (serve argv)) eqn:Hserve.
  - simpl.
    destruct (getPort env) as [p|e] eqn:Hport.
    2:{ eexists _, (Some e). split; [by apply run_getPort_fails|done]. }
    simpl. fold (served_dir argv).
    destruct (listen env (served_dir argv) (Some p)) as [[]|e] eqn:Hli.
    2:{ eexists _, (Some e). split; [by eapply run_listen_aborts|done]. }
    simpl. unfold mbind, M_bind, await, doom. simpl.
    destruct (browser_region_sound (Some p)
      (after env (after env (fresh fs ds) (Await CGetPort None))
         (Await (CListen (served_dir argv) (Some p)) None)))
      as [(body & o & Ht & ->)|(body & e & Ht & ->)]; [done|done| |].
    + exists (Await CGetPort None :: Await (CListen (served_dir argv) (Some p)) None
              :: body ++ Fire CServerClose :: report_events o), o.
      split; [by apply run_served|].
      as_extend env. rewrite !extend_app, alive_extend.
      unfold server_finally, fire.
      destruct o as [e|]; simpl.
      * rewrite alive_extend. simpl.
        unfold report, mbind, M_bind, fire, process_exit. simpl.
        by same_world env.
      * by same_world env.
    + exists (Await CGetPort None :: Await (CListen (served_dir argv) (Some p)) None
              :: body), (Some e).
      split; [by apply run_served_dies|].
      by same_world env.
  - simpl. unfold mret, M_ret.
    destruct (browser_region_sound None (fresh fs ds))
      as [(body & o & Ht & ->)|(body & e & Ht & ->)]; [done|done| |].
    + exists (body ++ report_events o), o.
      split; [by apply run_unserved|].
      rewrite alive_extend. simpl. unfold server_finally, mret, M_ret.
      destruct o as [e|]; simpl.
      * rewrite alive_extend. simpl.
        unfold report, mbind, M_bind, fire, process_exit. simpl.
        by same_world env.
      * by rewrite app_nil_r.
    + exists body, (Some e). split; [by apply run_unserved_dies|done].
Qed.

End Soundness.

(** ** Strings of digits and separators *)

Lemma digit_is_plain c :
  JS.is_digit c = true ->
  JS.is_space c = false /\ Ascii.eqb c "-" = false /\ Ascii.eqb c "+" = false
  /\ Ascii.eqb c "x" = false /\ Ascii.eqb c "@" = false /\ Ascii.eqb c "." = false.
Proof.
  destruct c as [[] [] [] [] [] [] [] []]; vm_compute; intros; try discriminate;
    repeat split.
Qed.

Lemma all_digits_no_char ds c :
  JS.is_digit c = false -> all_digits ds = true -> has_char c ds = false.
Proof.
  intros Hc. induction ds as [|a ds IH]; simpl; [done|].
  intros [Ha Hds]%andb_prop. rewrite (IH Hds), orb_false_r.
  destruct (Ascii.eqb_spec a c) as [->|]; [congruence|done].
Qed.

Lemma split_no_sep sep s : has_char sep s = false -> JS.split sep s = [s].
Proof.
  induction s as [|a s IH]; simpl; [done|].
  intros [Ha Hs]%orb_false_elim. rewrite Ha, (IH Hs). done.
Qed.

Lemma append_nil_l s : EmptyString +:+ s = s.
Proof. reflexivity. Qed.

Lemma append_cons c a b : String c a +:+ b = String c (a +:+ b).
Proof. reflexivity. Qed.

Lemma split_at_sep sep a b :
  has_char sep a = false ->
  JS.split sep (a +:+ String sep b) = a :: JS.split sep b.
Proof.
  induction a as [|c a IH]; simpl.
  - intros _. rewrite ?append_nil_l. simpl. by rewrite Ascii.eqb_refl.
  - intros [Hc Ha]%orb_false_elim. rewrite ?append_cons. simpl.
    rewrite Hc, (IH Ha). done.
Qed.

Lemma append_assoc a b c : a +:+ b +:+ c = (a +:+ b) +:+ c.
Proof.
  induction a as [|x a IH]; [done|]. by rewrite !append_cons, IH.
Qed.

Lemma split_prefix sep a b h t :
  has_char sep a = false ->
  JS.split sep b = h :: t ->
  JS.split sep (a +:+ b) = (a +:+ h) :: t.
Proof.
  intros Ha Hb. induction a as [|c a IH].
  - by rewrite !append_nil_l.
  - simpl in Ha. apply orb_false_elim in Ha as [Hc Ha].
    rewrite !append_cons. simpl. by rewrite Hc, (IH Ha).
Qed.

Lemma take_digits_all ds rest :
  all_digits ds = true ->
  (JS.take_digits rest).1 = EmptyString ->
  JS.take_digits (ds +:+ rest) = (ds, (JS.take_digits rest).2).
Proof.
  intros Hds Hrest. induction ds as [|c ds IH].
  - rewrite append_nil_l.
    destruct (JS.take_digits rest) as [a b]. simpl in *. by subst.
  - simpl in Hds. apply andb_prop in Hds as [Hc Hds].
    rewrite append_cons. simpl. rewrite Hc, (IH Hds). done.
Qed.

Lemma take_digits_only ds :
  all_digits ds = true -> JS.take_digits ds = (ds, EmptyString).
Proof.
  induction ds as [|c ds IH]; simpl; [done|].
  intros [Hc Hds]%andb_prop. rewrite Hc, (IH Hds). done.
Qed.

Lemma parseInt10_digits ds :
  all_digits ds = true -> ds <> EmptyString ->
  JS.parseInt10 ds = Dec false (JS.dec_value ds) 0.
Proof.
  intros Hds Hne. unfold JS.parseInt10.
  destruct ds as [|c ds]; [done|].
  pose proof Hds as Hall. simpl in Hds. apply andb_prop in Hds as [Hc Hds].
  destruct (digit_is_plain c Hc) as (Hsp & Hm & Hp & _).
  simpl JS.trim_start. rewrite Hsp. unfold JS.strip_sign. rewrite Hm, Hp.
  rewrite (take_digits_only _ Hall). done.
Qed.

Lemma parseInt10_no_number c s :
  JS.is_digit c = false -> JS.is_space c = false ->
  Ascii.eqb c "-" = false -> Ascii.eqb c "+" = false ->
  JS.parseInt10 (String c s) = NaN.
Proof.
  intros Hd Hs Hm Hp. unfold JS.parseInt10. simpl JS.trim_start.
  rewrite Hs. unfold JS.strip_sign. rewrite Hm, Hp. simpl. by rewrite Hd.
Qed.

Lemma split_head_char sep c r :
  Ascii.eqb c sep = false ->
  exists h t, JS.split sep (String c r) = String c h :: t.
Proof.
  intros Hc. simpl. rewrite Hc.
  destruct (JS.split sep r) as [|h t]; eauto.
Qed.

Lemma digits_led_plain ds :
  all_digits ds = true -> ds <> EmptyString ->
  JS.strip_sign (JS.trim_start ds) = (false, ds)
  /\ JS.starts_with "Infinity" ds = false.
Proof.
  intros Hds Hne. destruct ds as [|c ds]; [done|].
  simpl in Hds. apply andb_prop in Hds as [Hc _].
  destruct (digit_is_plain c Hc) as (Hsp & Hm & Hp & _).
  simpl JS.trim_start. rewrite Hsp. unfold JS.strip_sign. rewrite Hm, Hp.
  split; [done|].
  destruct c as [[] [] [] [] [] [] [] []]; try discriminate Hc; reflexivity.
Qed.

Lemma append_nil_r s : s +:+ EmptyString = s.
Proof.
  induction s as [|c s IH]; [done|]. by rewrite append_cons, IH.
Qed.

Lemma has_char_append c a b :
  has_char c (a +:+ b) = has_char c a || has_char c b.
Proof.
  induction a as [|x a IH]; [done|].
  rewrite append_cons. simpl. by rewrite IH, orb_assoc.
Qed.

Lemma parseFloat_integer ds :
  all_digits ds = true -> ds <> EmptyString ->
  JS.parseFloat ds = Dec false (JS.dec_value ds) 0.
Proof.
  intros Hds Hne. unfold JS.parseFloat.
  destruct (digits_led_plain ds Hds Hne) as [-> ->].
  rewrite (take_digits_only ds Hds).
  destruct ds as [|c ds]; [done|]. simpl.
  by rewrite append_nil_r.
Qed.

Lemma parseFloat_fraction ip fp :
  all_digits ip = true -> ip <> EmptyString -> all_digits fp = true ->
  JS.parseFloat (ip +:+ "." +:+ fp)
  = Dec false (JS.dec_value (ip +:+ fp)) (- Z.of_nat (String.length fp)).
Proof.
  intros Hip Hne Hfp. unfold JS.parseFloat.
  change (ip +:+ "." +:+ fp) with (ip +:+ String "." fp).
  assert (Hled : JS.strip_sign (JS.trim_start (ip +:+ String "." fp))
                 = (false, ip +:+ String "." fp)
                 /\ JS.starts_with "Infinity" (ip +:+ String "." fp) = false).
  { destruct ip as [|c ip]; [done|].
    pose proof Hip as Hc. simpl in Hc. apply andb_prop in Hc as [Hc _].
    destruct (digit_is_plain c Hc) as (Hsp & Hm & Hp & _).
    rewrite append_cons. simpl JS.trim_start. rewrite Hsp.
    unfold JS.strip_sign. rewrite Hm, Hp. split; [done|].
    destruct c as [[] [] [] [] [] [] [] []]; try discriminate Hc; reflexivity. }
  destruct Hled as [-> ->].
  rewrite (take_digits_all ip (String "." fp) Hip); [|done].
  simpl. rewrite (take_digits_only fp Hfp).
  destruct ip as [|c ip]; [done|]. simpl. done.
Qed.

(** ** The parser on well-formed and malformed specs *)

Lemma parse_viewport_size W Hh :
  all_digits W = true -> W <> EmptyString ->
  all_digits Hh = true -> Hh <> EmptyString ->
  map JS.parseInt10 (JS.split "x" (W +:+ "x" +:+ Hh))
  = [Dec false (JS.dec_value W) 0; Dec false (JS.dec_value Hh) 0].
Proof.
  intros HW HWne HH HHne.
  change (W +:+ "x" +:+ Hh) with (W +:+ String "x" Hh).
  rewrite split_at_sep by (by apply all_digits_no_char).
  rewrite split_no_sep by (by apply all_digits_no_char).
  simpl. by rewrite !parseInt10_digits.
Qed.

Lemma size_has_no_at W Hh :
  all_digits W = true -> all_digits Hh = true ->
  has_char "@" (W +:+ "x" +:+ Hh) = false.
Proof.
  intros HW HH. rewrite !has_char_append.
  by rewrite (all_digits_no_char W "@"), (all_digits_no_char Hh "@").
Qed.

Lemma parse_viewport_no_at s :
  has_char "@" s = false ->
  parse_viewport s
  = {| width := map JS.parseInt10 (JS.split "x" s) !! 0%nat;
       height := map JS.parseInt10 (JS.split "x" s) !! 1%nat;
       deviceScaleFactor := one |}.
Proof.
  intros Hs. unfold parse_viewport. rewrite (split_no_sep "@" s) by done.
  reflexivity.
Qed.

Lemma parse_viewport_at size scale :
  has_char "@" size = false -> has_char "@" scale = false ->
  parse_viewport (size +:+ "@" +:+ scale)
  = {| width := map JS.parseInt10 (JS.split "x" size) !! 0%nat;
       height := map JS.parseInt10 (JS.split "x" size) !! 1%nat;
       deviceScaleFactor := JS.parseFloat scale |}.
Proof.
  intros Hsize Hscale. unfold parse_viewport.
  change (size +:+ "@" +:+ scale) with (size +:+ String "@" scale).
  rewrite (split_at_sep "@" size) by done.
  rewrite (split_no_sep "@" scale) by done. reflexivity.
Qed.

Lemma parse_viewport_width_NaN c r :
  starts_no_number c = true -> width (parse_viewport (String c r)) = Some NaN.
Proof.
  unfold starts_no_number. intros Hc.
  repeat (apply andb_prop in Hc as [Hc ?]).
  repeat match goal with H : negb _ = true |- _ => apply negb_true_iff in H end.
  unfold parse_viewport.
  destruct (split_head_char "@" c r) as (h & t & ->); [done|]. simpl hd.
  destruct (split_head_char "x" c h) as (h' & t' & ->); [done|].
  simpl. by rewrite parseInt10_no_number.
Qed.

Lemma parse_viewport_height_NaN W c r :
  all_digits W = true ->
  starts_no_number c = true ->
  height (parse_viewport (W +:+ "x" +:+ String c r)) = Some NaN.
Proof.
  unfold starts_no_number. intros HW Hc.
  repeat (apply andb_prop in Hc as [Hc ?]).
  repeat match goal with H : negb _ = true |- _ => apply negb_true_iff in H end.
  unfold parse_viewport.
  destruct (split_head_char "@" c r) as (h & t & Hsplit); [done|].
  assert (Hparts :
    JS.split "@" ((W +:+ "x") +:+ String c r) = ((W +:+ "x") +:+ String c h) :: t).
  { apply split_prefix; [|done].
    rewrite has_char_append. by rewrite (all_digits_no_char W "@"). }
  rewrite <- !append_assoc in Hparts. rewrite Hparts. simpl hd.
  change (W +:+ "x" +:+ String c h) with (W +:+ String "x" (String c h)).
  rewrite split_at_sep by (by apply all_digits_no_char).
  destruct (split_head_char "x" c h) as (h' & t' & ->); [done|].
  simpl. by rewrite parseInt10_no_number.
Qed.


(** ** Histories of a run from a fresh world *)

Lemma run_fresh `{Node} env argv fs ds :
  exists tr o,
    run_trace env argv tr o
    /\ log (run env argv (fresh fs ds)) = tr
    /\ files (run env argv (fresh fs ds)) = replay env (waited o) tr fs
    /\ dirs (run env argv (fresh fs ds)) = made_dirs tr ds
    /\ exit_code (run env argv (fresh fs ds))
       = match o with None => 0 | Some _ => 1 end.
Proof.
  destruct (handler_sound env argv fs ds) as (tr & o & Ht & Heq).
  exists tr, o. split; [done|]. unfold run, settle, exit_code. rewrite Heq.
  destruct o; simpl;
    rewrite ?log_extend, ?dirs_extend, ?files_extend, ?exited_extend;
    unfold alive; simpl; rewrite ?exited_extend; simpl; by rewrite ?drop_0.
Qed.

(** Every exit path, one goal each. *)
Ltac exit_paths :=
  repeat match goal with
         | Ht : run_trace _ _ _ _ |- _ => inversion Ht; subst; clear Ht
         | Ht : browser_trace _ _ _ _ _ _ |- _ => inversion Ht; subst; clear Ht
         | Ht : browser_death _ _ _ _ _ _ |- _ => inversion Ht; subst; clear Ht
         | Ht : page_trace _ _ _ _ _ _ |- _ => inversion Ht; subst; clear Ht
         | Ht : page_death _ _ _ _ _ _ |- _ => inversion Ht; subst; clear Ht
         end.

Section LoopFacts.

Context `{Node} (env : Env) (argv : Argv).

Lemma loop_trace_in_loop k ps0 entries evs ps o :
  loop_trace env argv k ps0 entries evs ps o -> Forall in_loop evs.
Proof.
  induction 1; repeat constructor; try done.
Qed.

(** Both ways through the loop leave one of the loop's histories. *)
Lemma loop_trace_events k ps0 entries evs ps o :
  loop_trace env argv k ps0 entries evs ps o -> loop_events env argv entries evs.
Proof. induction 1; by econstructor. Qed.

Lemma loop_death_events k ps0 entries evs e :
  loop_death env argv k ps0 entries evs e -> loop_events env argv entries evs.
Proof. induction 1; by econstructor. Qed.

Lemma loop_events_kinds entries evs :
  loop_events env argv entries evs -> Forall (fun e => in_loop e \/ dying e) evs.
Proof.
  induction 1; repeat (apply Forall_cons_2; [simpl; tauto|]);
    try apply Forall_nil_2; done.
Qed.

(** Each resize gets what the parser made of an entry's spec. *)
Lemma loop_events_resized entries evs name v f :
  loop_events env argv entries evs ->
  Await (CSetViewport name v) f ∈ evs ->
  exists viewport,
    (name, viewport) ∈ entries /\ v = parse_viewport viewport.
Proof.
  induction 1 as [|entries e|n s rest e|n s rest e|n s rest e|n s rest e
                  |n s rest e|n s rest doc evs Hev Hl IH];
    intros Hin;
    try (unfold iteration in Hin; simpl in Hin);
    repeat (apply elem_of_cons in Hin as [Hin|Hin]; try discriminate Hin);
    try (by apply elem_of_nil in Hin);
    try (injection Hin as -> -> _; exists s; split; [left|done]).
  destruct (IH Hin) as (s' & Hs' & ->). exists s'. split; [by right|done].
Qed.

(** Each write goes to the path made of an entry's spec string and carries
    the document extracted for that entry. *)
Lemma loop_events_written entries evs name path content :
  loop_events env argv entries evs ->
  Fire (CWriteFile name path content) ∈ evs ->
  exists viewport,
    (name, viewport) ∈ entries
    /\ path = outputPagePath argv viewport
    /\ evaluate env name (parse_viewport viewport) = Resolved content.
Proof.
  induction 1 as [|entries e|n s rest e|n s rest e|n s rest e|n s rest e
                  |n s rest e|n s rest doc evs Hev Hl IH];
    intros Hin;
    try (unfold iteration in Hin; simpl in Hin);
    repeat (apply elem_of_cons in Hin as [Hin|Hin]; try discriminate Hin);
    try (by apply elem_of_nil in Hin).
  - injection Hin as -> -> ->. exists s. split; [left|done].
  - destruct (IH Hin) as (s' & Hs' & -> & Hdoc).
    exists s'. split; [by right|done].
Qed.

Lemma loop_trace_empty k ps0 evs ps o :
  loop_trace env argv k ps0 [] evs ps o -> evs = [] /\ ps = [] /\ o = None.
Proof. by inversion 1. Qed.

Lemma loop_death_empty k ps0 evs e : ~ loop_death env argv k ps0 [] evs e.
Proof. by inversion 1. Qed.

End LoopFacts.

(** Membership in a history, down to its single events and the loop's. *)
Ltac unfold_segments :=
  unfold page_ready, iteration, debug_events, browser_close_events,
    report_events in *.

Ltac split_membership :=
  repeat match goal with
         | H : _ ∈ _ ++ _ |- _ => apply elem_of_app in H as [H|H]
         | H : _ ∈ _ :: _ |- _ => apply elem_of_cons in H as [H|H]
         | H : _ ∈ [] |- _ => by apply elem_of_nil in H
         | H : _ ∈ (if ?b then _ else _) |- _ => destruct b eqn:?
         | H : _ ∈ match ?x with Some _ => _ | None => _ end |- _ =>
             destruct x eqn:?
         end.

(** What the loop left, whichever way it ended. *)
Ltac loop_histories :=
  repeat match goal with
         | Hl : loop_trace _ _ _ _ _ _ _ _ |- _ =>
             apply loop_trace_events in Hl
         | Hl : loop_death _ _ _ _ _ _ _ |- _ =>
             apply loop_death_events in Hl
         end.

(** An event that is no call of the loop is not in the loop's history. *)
Ltac not_of_the_loop :=
  match goal with
  | Hl : loop_events _ _ _ ?evs, Hi : _ ∈ ?evs |- _ =>
      apply loop_events_kinds in Hl;
      rewrite Forall_forall in Hl; apply Hl in Hi; simpl in Hi; tauto
  end.

(** ** C6: nothing configured *)

(** C6, as amended.  When none of [url], [serve] and [file] is supplied the
    handler checks nothing: no server is started, the browser launch is the
    first call it makes, and the navigation it then attempts is to an
    undefined target; a failure is reported only after the launch was
    attempted. *)
Theorem C6_no_target_reaches_launch `{Node} env argv fs ds :
  serve argv = None -> url argv = None -> file argv = None ->
  (exists f rest,
      log (run env argv (fresh fs ds))
      = Await (CLaunch (launchArgs argv)) f :: rest)
  /\ (forall target wu f,
        Await (CGoto target wu) f ∈ log (run env argv (fresh fs ds)) ->
        target = None).
Proof.
  intros Hserve Hurl Hfile.
  destruct (run_fresh env argv fs ds) as (tr & o & Ht & -> & _).
  assert (Htruthy : JS.truthy (serve argv) = false) by by rewrite Hserve.
  assert (Htarget : symbolsUrl argv None = None).
  { unfold symbolsUrl, target_url. by rewrite Htruthy, Hfile, Hurl. }
  split.
  - exit_paths; try congruence; simpl; eauto.
  - intros target wu f Hin.
    exit_paths; try congruence; loop_histories; unfold_segments; simpl in Hin;
      split_membership; try discriminate;
      try (injection Hin as -> _ _; exact Htarget);
      not_of_the_loop.
Qed.

Lemma C6_no_target_reaches_launch_witness :
  (exists f rest,
      log (run (goto_fails 3000 (fun n => n)) nothing_configured (fresh ∅ ∅))
      = Await (CLaunch (launchArgs nothing_configured)) f :: rest)
  /\ (forall target wu f,
        Await (CGoto target wu) f
          ∈ log (run (goto_fails 3000 (fun n => n)) nothing_configured (fresh ∅ ∅)) ->
        target = None).
Proof.
  apply (C6_no_target_reaches_launch (goto_fails 3000 (fun n => n))
           nothing_configured ∅ ∅); reflexivity.
Defined.

(** The claim as worded fails: with nothing configured and a navigation
    that rejects, the browser has been launched and a page opened before
    anything fails, and the failure reported is the navigation's. *)
Lemma C6_launch_precedes_failure :
  log (run (goto_fails 3000 (fun n => n)) nothing_configured (fresh ∅ ∅))
  = [Await (CLaunch {| args := []; executablePath := None; headless := true;
                       userDataDir := None |}) None;
     Await CNewPage None;
     Await (CGoto None "networkidle2") (Some "navigation failed");
     Fire CBrowserClose;
     Fire (CConsoleError "navigation failed");
     Fire (CExit 1)].
Proof. reflexivity. Qed.

(** ** C10: an empty viewports object *)

Lemma replay_nil env b fs : replay env b [] fs = fs.
Proof. reflexivity. Qed.

(** C10.  With a viewports object that is present and empty the loop body
    never runs: the history has no resize, no extraction, no directory
    creation and no write; the directories and the files are those the run
    started from; and the run ends with exit code 0 -- exactly when the
    stages ahead of the loop succeed, which the empty loop cannot undo. *)
Theorem C10_empty_viewports `{Node} env argv fs ds :
  viewports argv = Some [] ->
  Forall (fun e => ~ in_loop e) (log (run env argv (fresh fs ds)))
  /\ dirs (run env argv (fresh fs ds)) = ds
  /\ files (run env argv (fresh fs ds)) = fs
  /\ (before_loop_ok env argv -> exit_code (run env argv (fresh fs ds)) = 0)
  /\ (exit_code (run env argv (fresh fs ds)) = 0 -> before_loop_ok env argv).
Proof.
  intros Hv.
  destruct (run_fresh env argv fs ds) as (tr & o & Ht & -> & -> & -> & ->).
  assert (Hentries : viewport_entries argv = []) by (unfold viewport_entries; by rewrite Hv).
  unfold before_loop_ok, assigned_port.
  exit_paths;
    repeat match goal with
           | Hl : loop_trace _ _ _ _ (viewport_entries _) _ _ _ |- _ =>
               rewrite Hentries in Hl;
               apply loop_trace_empty in Hl as (-> & -> & ?)
           | Hl : loop_death _ _ _ _ (viewport_entries _) _ _ |- _ =>
               rewrite Hentries in Hl; by apply loop_death_empty in Hl
           end;
    try discriminate;
    unfold_segments; destruct (debug argv); simpl;
    (split; [repeat (apply Forall_cons_2; [simpl; tauto|]); apply Forall_nil_2|]);
    (split; [done|]); (split; [done|]);
    (split; [intros (Hsrv & Hla & Hnp & Hgo & Hadd)|intros Hexit]);
    try discriminate;
    repeat match goal with
           | Hs : JS.truthy (serve argv) = _ |- _ => rewrite Hs in *
           | Hp : getPort env = _ |- _ => rewrite Hp in *
           end;
    try (destruct Hsrv as (p' & Hp' & Hl'); [done|]);
    try congruence;
    try done;
    by (repeat split; eauto).
Qed.

Lemma C10_empty_viewports_witness :
  Forall (fun e => ~ in_loop e)
    (log (run (all_ok 3000 (fun n => n)) empty_viewports (fresh ∅ ∅)))
  /\ dirs (run (all_ok 3000 (fun n => n)) empty_viewports (fresh ∅ ∅)) = ∅
  /\ files (run (all_ok 3000 (fun n => n)) empty_viewports (fresh ∅ ∅)) = ∅
  /\ exit_code (run (all_ok 3000 (fun n => n)) empty_viewports (fresh ∅ ∅)) = 0.
Proof.
  destruct (C10_empty_viewports (all_ok 3000 (fun n => n)) empty_viewports ∅ ∅
              eq_refl) as (Hlog & Hdirs & Hfiles & Hexit & _).
  split; [exact Hlog|]. split; [exact Hdirs|]. split; [exact Hfiles|].
  apply Hexit. repeat split. intros Hs. discriminate Hs.
Defined.

(** A call of the loop found in a history was made by the loop. *)
Lemma run_loop_events `{Node} env argv fs ds e :
  e ∈ log (run env argv (fresh fs ds)) ->
  in_loop e ->
  exists evs,
    loop_events env argv (viewport_entries argv) evs /\ e ∈ evs.
Proof.
  intros Hin Hloop.
  destruct (run_fresh env argv fs ds) as (tr & o & Ht & Hlog & _).
  rewrite Hlog in Hin. clear Hlog.
  exit_paths; loop_histories; unfold_segments; simpl in Hin; split_membership;
    subst; try (by destruct Hloop); eauto.
Qed.

(** ** C5 and C9: the parser's results *)




(** C9.  A spec that ends in a bare [@] has the empty string, not
    [undefined], for its scale: the scale parses to [NaN].  The default [1]
    is what a spec without any [@] gets. *)
Theorem C9_bare_at_scale_is_NaN (size : string) :
  has_char "@" size = false ->
  deviceScaleFactor (parse_viewport (size +:+ "@")) = NaN
  /\ deviceScaleFactor (parse_viewport size) = one.
Proof.
  intros Hsize. split.
  - change (size +:+ "@") with (size +:+ "@" +:+ EmptyString).
    by rewrite parse_viewport_at.
  - by rewrite parse_viewport_no_at.
Qed.

Lemma C9_bare_at_scale_is_NaN_witness :
  deviceScaleFactor (parse_viewport "1024x768@") = NaN
  /\ deviceScaleFactor (parse_viewport "1024x768") = one.
Proof. exact (C9_bare_at_scale_is_NaN "1024x768" eq_refl). Defined.

(** ** C2: the target of the navigation *)

(** C2, as amended.  The target is resolved by this branch order: when
    serving is active, the join of [http://localhost:<assigned-port>] with
    the configured url (default [/]), whether or not a file is configured;
    else, when a file path is configured, the [file://] url of the working
    directory joined with it; else the configured url verbatim.  Every
    navigation of a run goes to that target, with the port [getPort]
    assigned. *)
Theorem C2_target_serve_first `{Node} env argv fs ds :
  (forall port, symbolsUrl argv port = serve_first_url argv port)
  /\ (JS.truthy (serve argv) = true -> JS.truthy (file argv) = true ->
      forall port,
        symbolsUrl argv port
        = Some (urlJoin ("http://localhost:" +:+ port_string port)
                        (JS.or_else (url argv) "/")))
  /\ (forall target wu f,
        Await (CGoto target wu) f ∈ log (run env argv (fresh fs ds)) ->
        target = serve_first_url argv (assigned_port env argv)
        /\ wu = puppeteerWaitUntil argv).
Proof.
  assert (Hsame : forall port, symbolsUrl argv port = serve_first_url argv port).
  { intros port. unfold symbolsUrl, target_url, serve_first_url.
    by destruct (JS.truthy (serve argv)), (JS.truthy (file argv)). }
  split; [exact Hsame|]. split.
  - intros Hs _ port. unfold symbolsUrl. by rewrite Hs.
  - intros target wu f Hin.
    destruct (run_fresh env argv fs ds) as (tr & o & Ht & Hlog & _).
    rewrite Hlog in Hin. clear Hlog. unfold assigned_port.
    exit_paths; loop_histories; unfold_segments; simpl in Hin; split_membership;
      try discriminate;
      try solve [not_of_the_loop];
      injection Hin as -> -> _;
      repeat match goal with
             | Hs : JS.truthy (serve argv) = _ |- _ => rewrite Hs
             | Hp : getPort env = _ |- _ => rewrite Hp
             end;
      (split; [|done]);
      rewrite Hsame; unfold serve_first_url;
      repeat match goal with
             | Hs : JS.truthy (serve argv) = _ |- _ => rewrite Hs
             end; done.
Qed.

Lemma C2_target_serve_first_witness :
  symbolsUrl serve_and_file (Some 3000%N) = Some "http://localhost:3000/"
  /\ (forall target wu f,
        Await (CGoto target wu) f
          ∈ log (run (all_ok 3000 (fun n => n)) serve_and_file (fresh ∅ ∅)) ->
        target = Some "http://localhost:3000/" /\ wu = "networkidle2").
Proof.
  destruct (C2_target_serve_first (all_ok 3000 (fun n => n)) serve_and_file ∅ ∅)
    as (_ & Hboth & Hrun).
  split; [exact (Hboth eq_refl eq_refl (Some 3000%N))|exact Hrun].
Defined.

(** The claim as worded fails: with both a file and a served directory
    configured, the file branch does not apply; the navigation goes to the
    served origin. *)
Lemma C2_file_branch_loses_to_serve :
  symbolsUrl serve_and_file (Some 3000%N) = Some "http://localhost:3000/"
  /\ file_first_url serve_and_file (Some 3000%N) = Some "file:///work/index.html"
  /\ symbolsUrl serve_and_file (Some 3000%N)
     <> file_first_url serve_and_file (Some 3000%N)
  /\ Await (CGoto (Some "http://localhost:3000/") "networkidle2") None
       ∈ log (run (all_ok 3000 (fun n => n)) serve_and_file (fresh ∅ ∅)).
Proof.
  split; [reflexivity|]. split; [reflexivity|]. split; [discriminate|].
  vm_compute log. set_solver.
Qed.


(** ** Acquisition and teardown *)

Lemma in_loop_on_page e : in_loop e -> on_page e.
Proof. by destruct e as [[] ?|[]|?]. Qed.

Lemma page_ready_on_page `{Node} argv port : Forall on_page (page_ready argv port).
Proof.
  unfold page_ready, debug_events. apply Forall_cons_2; [done|].
  apply Forall_app_2; [destruct (debug argv)|]; by repeat constructor.
Qed.

Lemma page_trace_on_page `{Node} env argv port k pg o :
  page_trace env argv port k pg o -> Forall on_page pg.
Proof.
  assert (Hdbg : Forall on_page (debug_events argv)).
  { unfold debug_events. destruct (debug argv); by repeat constructor. }
  pose proof (page_ready_on_page argv port) as Hready.
  assert (Hloop : forall k ps0 evs ps o',
    loop_trace env argv k ps0 (viewport_entries argv) evs ps o' -> Forall on_page evs).
  { intros k' ps0 evs ps o' Hl. eapply Forall_impl; [by eapply loop_trace_in_loop|].
    apply in_loop_on_page. }
  inversion 1; subst.
  - by repeat constructor.
  - apply Forall_cons_2; [done|]. apply Forall_app_2; [done|]. by repeat constructor.
  - apply Forall_cons_2; [done|]. apply Forall_app_2; [done|]. by repeat constructor.
  - apply Forall_app_2; [done|]. by eapply Hloop.
  - apply Forall_app_2; [done|]. apply Forall_app_2; [by eapply Hloop|].
    by repeat constructor.
Qed.

(** *** The end of the process by the runtime *)

(** Every event of a history written out satisfies what [tac] proves. *)
Ltac each_event tac :=
  repeat (apply Forall_cons_2; [tac|]); try apply Forall_nil_2; try done.

Lemma first_rejection_in ps p :
  first_rejection ps = Some p -> p ∈ ps /\ exists e, outcome p = Rejected e.
Proof.
  revert p. induction ps as [|q ps IH]; intros p Hp; [done|].
  simpl in Hp. destruct (outcome q) as [[]|e] eqn:Hq.
  - destruct (IH p Hp) as [Hin He]. split; [by right|done].
  - destruct (first_rejection ps) as [r|] eqn:Hr.
    + destruct (sooner q r); injection Hp as <-.
      * split; [left|by exists e].
      * destruct (IH r eq_refl) as [Hin He]. split; [by right|done].
    + injection Hp as <-. split; [left|by exists e].
Qed.

Lemma doom_at_cause k ps e :
  doom_at k ps = Some e -> exists p, p ∈ ps /\ outcome p = Rejected e.
Proof.
  unfold doom_at. destruct (first_rejection ps) as [p|] eqn:Hp; [|done].
  destruct (first_rejection_in _ _ Hp) as [Hin [e' He']].
  destruct (instant p <=? k)%nat; [|done].
  rewrite He'. simpl. intros [= <-]. by exists p.
Qed.

(** The loop's history when the runtime ends the process: calls that
    resolved, then the end; the error is the rejection of a write issued
    before. *)
Lemma loop_death_shape `{Node} env argv k ps0 entries evs e :
  loop_death env argv k ps0 entries evs e ->
  exists pre,
    evs = pre ++ [Abort e]
    /\ Forall underway pre
    /\ Forall in_loop pre
    /\ ((exists p, p ∈ ps0 /\ outcome p = Rejected e)
        \/ (exists name path content,
              Fire (CWriteFile name path content) ∈ pre
              /\ writeFile env name path content = Rejected e)).
Proof.
  induction 1 as [k ps0 n s rest e Hd|k ps0 n s rest e Hd0 Hs Hd
                  |k ps0 n s rest doc e Hd0 Hs Hev Hd
                  |k ps0 n s rest doc evs e Hd0 Hs Hev Hm Hl IH].
  - exists []. repeat split; [done|done|]. left. by eapply doom_at_cause.
  - exists [Await (CSetViewport n (parse_viewport s)) None].
    repeat split;
      [each_event ltac:(unfold underway; simpl; tauto)
      |each_event ltac:(done)|].
    left. by eapply doom_at_cause.
  - exists [Await (CSetViewport n (parse_viewport s)) None; Await (CEvaluate n) None].
    repeat split;
      [each_event ltac:(unfold underway; simpl; tauto)
      |each_event ltac:(done)|].
    left. by eapply doom_at_cause.
  - destruct IH as (pre & -> & Hpre & Hin & Hc).
    exists (iteration argv n s doc ++ pre).
    split; [by rewrite <- app_assoc|].
    split; [apply Forall_app_2; [|done];
            each_event ltac:(unfold underway; simpl; tauto)|].
    split; [apply Forall_app_2; [|done];
            each_event ltac:(done)|].
    destruct Hc as [(p & Hp & Ho)|(name & path & content & Hw & Ho)].
    + apply elem_of_app in Hp as [Hp|Hp].
      * left. by exists p.
      * apply list_elem_of_singleton in Hp as ->. right.
        exists n, (outputPagePath argv s), doc. split; [|done].
        apply elem_of_app. left. unfold iteration. set_solver.
    + right. exists name, path, content. split; [|done].
      apply elem_of_app. by right.
Qed.

Lemma page_death_shape `{Node} env argv port k pg e :
  page_death env argv port k pg e ->
  exists pre,
    pg = pre ++ [Abort e]
    /\ Forall underway pre
    /\ Forall on_page pre
    /\ exists name path content,
         Fire (CWriteFile name path content) ∈ pre
         /\ writeFile env name path content = Rejected e.
Proof.
  inversion 1 as [evs e' Hn Hg Ha Hl]; subst.
  destruct (loop_death_shape _ _ _ _ _ _ _ Hl) as (pre & -> & Hu & Hin & Hc).
  exists (page_ready argv port ++ pre).
  split; [by rewrite <- app_assoc|].
  split; [|split].
  - apply Forall_app_2; [|done]. unfold page_ready, debug_events.
    apply Forall_cons_2; [unfold underway; simpl; tauto|].
    apply Forall_app_2; [destruct (debug argv)|];
      each_event ltac:(unfold underway; simpl; tauto).
  - apply Forall_app_2; [apply page_ready_on_page|].
    eapply Forall_impl; [done|]. apply in_loop_on_page.
  - destruct Hc as [(p & Hp & _)|(name & path & content & Hw & Ho)].
    + by apply elem_of_nil in Hp.
    + exists name, path, content. split; [|done]. apply elem_of_app. by right.
Qed.

(** The exit paths down to the page region, which stays abstract. *)
Ltac outer_paths :=
  repeat match goal with
         | Ht : run_trace _ _ _ _ |- _ => inversion Ht; subst; clear Ht
         | Ht : browser_trace _ _ _ _ _ _ |- _ => inversion Ht; subst; clear Ht
         | Ht : browser_death _ _ _ _ _ _ |- _ => inversion Ht; subst; clear Ht
         end.

Ltac page_events Hpg :=
  match goal with
  | Ht : page_trace _ _ _ _ _ _ |- _ =>
      pose proof (page_trace_on_page _ _ _ _ _ _ Ht) as Hpg;
      rewrite Forall_forall in Hpg
  | Ht : page_death _ _ _ _ _ _ |- _ =>
      let Hu := fresh "Hu" in
      let Hc := fresh "Hc" in
      destruct (page_death_shape _ _ _ _ _ _ Ht) as (? & -> & Hu & Hpg & Hc);
      rewrite Forall_forall in Hpg
  end.

Lemma report_winding_down o : Forall winding_down (report_events o).
Proof. destruct o; by repeat constructor. Qed.

Lemma underway_working e : underway e -> working e.
Proof. intros [[He|He] _]; by destruct e as [[] ?|[]|?]. Qed.

(** A run in whose history the runtime ends the process: the history
    stops there, after calls that resolved; nothing was released and
    nothing reported by the handler. *)
Lemma run_abort `{Node} env argv fs ds e :
  Abort e ∈ log (run env argv (fresh fs ds)) ->
  exists pre,
    log (run env argv (fresh fs ds)) = pre ++ [Abort e]
    /\ Forall underway pre
    /\ exit_code (run env argv (fresh fs ds)) = 1
    /\ abort_cause env argv (log (run env argv (fresh fs ds))) e.
Proof.
  destruct (run_fresh env argv fs ds) as (tr & o & Ht & -> & _ & _ & ->).
  intros Hin.
  outer_paths; try page_events Hpg; unfold_segments; simpl in Hin;
    split_membership; try discriminate;
    try (by apply Hpg in Hin).
  - injection Hin as ->. exists [Await CGetPort None].
    repeat split; [each_event ltac:(unfold underway; simpl; tauto)|].
    left. split; [done|]. by exists p.
  - injection Hin as ->.
    destruct Hc as (name & path & content & Hw & Ho).
    exists (Await CGetPort None :: Await (CListen (served_dir argv) (Some p)) None
            :: Await (CLaunch (launchArgs argv)) None :: x).
    repeat split; [each_event ltac:(unfold underway; simpl; tauto)|].
    right. exists name, path, content. split; [|done].
    do 3 apply list_elem_of_further. apply elem_of_app. by left.
  - injection Hin as ->.
    destruct Hc as (name & path & content & Hw & Ho).
    exists (Await (CLaunch (launchArgs argv)) None :: x).
    repeat split; [each_event ltac:(unfold underway; simpl; tauto)|].
    right. exists name, path, content. split; [|done].
    apply list_elem_of_further. apply elem_of_app. by left.
Qed.

(** ** C7: debug mode *)




(** ** C1: teardown on every exit path *)

Lemma on_page_working e : on_page e -> working e.
Proof. by destruct e as [[] ?|[]|?]. Qed.

Lemma on_page_acquires_nothing pg :
  Forall on_page pg ->
  existsb is_listen_ok pg = false /\ existsb is_launch_ok pg = false.
Proof.
  induction 1 as [|e pg He _ [IH1 IH2]]; [done|].
  simpl. rewrite IH1, IH2. by destruct e as [[] ?|[]|?].
Qed.

Lemma launch_not_on_page pg l1 la f l2 :
  Forall on_page pg -> pg = l1 ++ Await (CLaunch la) f :: l2 -> False.
Proof.
  intros Hpg ->. apply Forall_app in Hpg as [_ Hpg].
  by apply Forall_cons in Hpg as [Hpg _].
Qed.

(** The history of a path on which the runtime ends the process holds
    the end. *)
Ltac ended_by_runtime Hno :=
  exfalso; eapply Hno; simpl;
  repeat first [apply list_elem_of_here
               |apply list_elem_of_further
               |apply elem_of_app; right]; fail.




(** ** C8: exit codes, the report and the files left behind *)

Ltac find_event :=
  repeat (apply elem_of_cons; first [left; reflexivity | right]).

Ltac forall_events :=
  repeat (apply Forall_cons_2; [simpl; tauto|]); try apply Forall_nil_2.

Lemma ends_with_prepend o l0 l :
  Forall (fun x => ~ failed x) l0 -> ends_with o l -> ends_with o (l0 ++ l).
Proof.
  intros Hl0. destruct o as [e|]; simpl.
  - intros (pre & c & -> & Hpre). exists (l0 ++ pre), c.
    split; [by rewrite app_assoc|]. by apply Forall_app_2.
  - intros Hl. by apply Forall_app_2.
Qed.

Lemma loop_trace_ends_with `{Node} env argv k ps0 entries evs ps o :
  loop_trace env argv k ps0 entries evs ps o -> ends_with o evs.
Proof.
  induction 1 as [|k ps0 n s rest e|k ps0 n s rest e|k ps0 n s rest doc e
                  |k ps0 n s rest doc evs ps o ? ? ? ? ? IH].
  - by constructor.
  - exists [], (CSetViewport n (parse_viewport s)). by split.
  - exists [Await (CSetViewport n (parse_viewport s)) None], (CEvaluate n).
    split; [done|]. forall_events.
  - exists [Await (CSetViewport n (parse_viewport s)) None; Await (CEvaluate n) None],
      (CMkdirp n (outputPath argv)).
    split; [done|]. forall_events.
  - apply ends_with_prepend; [|done]. unfold iteration. forall_events.
Qed.

Lemma debug_events_resolved argv : Forall (fun x => ~ failed x) (debug_events argv).
Proof. unfold debug_events. destruct (debug argv); forall_events. Qed.

Lemma page_trace_ends_with `{Node} env argv port k pg o :
  page_trace env argv port k pg o -> ends_with o pg.
Proof.
  pose proof (debug_events_resolved argv) as Hdbg.
  assert (Hready : Forall (fun x => ~ failed x) (page_ready argv port)).
  { unfold page_ready. apply Forall_cons_2; [simpl; tauto|].
    apply Forall_app_2; [done|]. forall_events. }
  inversion 1; subst.
  - exists [], CNewPage. by split.
  - exists (Await CNewPage None :: debug_events argv),
      (CGoto (symbolsUrl argv port) (puppeteerWaitUntil argv)).
    split; [done|]. apply Forall_cons_2; [simpl; tauto|done].
  - exists (Await CNewPage None :: debug_events argv
            ++ [Await (CGoto (symbolsUrl argv port) (puppeteerWaitUntil argv)) None]),
      (CAddScriptTag (script_path)).
    split; [simpl; by rewrite <- app_assoc|].
    apply Forall_cons_2; [simpl; tauto|]. apply Forall_app_2; [done|].
    forall_events.
  - apply ends_with_prepend; [done|]. by eapply loop_trace_ends_with.
  - match goal with Hl : loop_trace _ _ _ _ _ _ _ None |- _ =>
      apply loop_trace_ends_with in Hl; simpl in Hl end.
    destruct (all_settled ps) as [[]|e]; unfold rejection, ends_with.
    + apply Forall_app_2; [done|]. apply Forall_app_2; [done|].
      forall_events.
    + exists (page_ready argv port ++ evs), CPromiseAll.
      split; [by rewrite <- app_assoc|]. by apply Forall_app_2.
Qed.

Lemma browser_close_events_close argv :
  Forall is_close (browser_close_events argv)
  /\ Forall (fun x => ~ failed x) (browser_close_events argv).
Proof.
  unfold browser_close_events. destruct (debug argv); split; forall_events.
Qed.

Lemma replay_app env b l1 l2 fs :
  replay env b (l1 ++ l2) fs = replay env b l2 (replay env b l1 fs).
Proof. unfold replay. by rewrite fold_left_app. Qed.

(** Files are only ever added or overwritten. *)
Lemma replay_keeps env b l : forall fs p,
  is_Some (fs !! p) -> is_Some (replay env b l fs !! p).
Proof.
  unfold replay. induction l as [|e l IH]; intros fs p Hp; [done|].
  simpl. apply IH. destruct e as [c f|c|?]; try done.
  destruct c; try done. simpl.
  destruct b; [|destruct (write_cut env name); [|done]];
    rewrite lookup_insert_is_Some; destruct (decide (path = p)); auto.
Qed.

(** A path no write of the history goes to keeps its file. *)
Lemma replay_other env b p l : forall fs,
  (forall name content, ~ (Fire (CWriteFile name p content) ∈ l)) ->
  replay env b l fs !! p = fs !! p.
Proof.
  unfold replay. induction l as [|e l IH]; intros fs Hp; [done|].
  simpl. rewrite IH by (intros name content Hin; apply (Hp name content); by right).
  destruct e as [c f|c|?]; try done. destruct c; try done. simpl.
  assert (path <> p) by (intros ->; apply (Hp name content); by left).
  destruct b; [|destruct (write_cut env name); [|done]];
    by apply lookup_insert_ne.
Qed.

(** How a run ends: without a rejection and with exit code 0; with the
    first rejection of an awaited call, the releases, the report and exit
    code 1; or by the runtime, with exit code 1. *)
Lemma run_outcome `{Node} env argv fs ds :
  (exit_code (run env argv (fresh fs ds)) = 0
   /\ Forall (fun x => ~ failed x) (log (run env argv (fresh fs ds)))
   /\ (forall c, c = CExit 1 \/ (exists e, c = CConsoleError e) ->
                 ~ (Fire c ∈ log (run env argv (fresh fs ds))))
   /\ (forall e, ~ (Abort e ∈ log (run env argv (fresh fs ds)))))
  \/ (exit_code (run env argv (fresh fs ds)) = 1
      /\ exists pre c e closes,
           log (run env argv (fresh fs ds))
           = pre ++ Await c (Some e) :: closes
             ++ [Fire (CConsoleError e); Fire (CExit 1)]
           /\ Forall (fun x => ~ failed x) pre
           /\ Forall is_close closes)
  \/ (exit_code (run env argv (fresh fs ds)) = 1
      /\ exists pre e,
           log (run env argv (fresh fs ds)) = pre ++ [Abort e]
           /\ Forall underway pre
           /\ abort_cause env argv (log (run env argv (fresh fs ds))) e).
Proof.
  assert (Hdead : forall e, Abort e ∈ log (run env argv (fresh fs ds)) ->
    exit_code (run env argv (fresh fs ds)) = 1
    /\ exists pre e,
         log (run env argv (fresh fs ds)) = pre ++ [Abort e]
         /\ Forall underway pre
         /\ abort_cause env argv (log (run env argv (fresh fs ds))) e).
  { intros e Hin.
    destruct (run_abort env argv fs ds e Hin) as (pre & Heq & Hu & Hx & Hc).
    split; [done|]. by exists pre, e. }
  revert Hdead.
  destruct (run_fresh env argv fs ds) as (tr & o & Ht & -> & _ & _ & ->).
  intros Hdead.
  outer_paths;
    try match goal with
        | Ht : page_trace _ _ _ _ _ _ |- _ =>
            pose proof (page_trace_on_page _ _ _ _ _ _ Ht) as Hpg;
            rewrite Forall_forall in Hpg;
            apply page_trace_ends_with in Ht
        end;
    try (right; right; eapply Hdead; try page_events Hpg; simpl;
         repeat first [apply list_elem_of_here
                      |apply list_elem_of_further
                      |apply elem_of_app; right]; fail).
  - right. left. split; [done|]. exists [], CGetPort, e, []. by repeat split.
  - right. left. split; [done|].
    exists [Await CGetPort None; Await (CListen (served_dir argv) (Some p)) None],
      (CLaunch (launchArgs argv)), e, [Fire CServerClose].
    repeat split; forall_events.
  - destruct (browser_close_events_close argv) as [Hclose Hquiet].
    destruct o as [e|]; simpl in H5.
    + right. left. split; [done|]. destruct H5 as (pre & c & -> & Hpre).
      exists (Await CGetPort None :: Await (CListen (served_dir argv) (Some p)) None
              :: Await (CLaunch (launchArgs argv)) None :: pre),
        c, e, (browser_close_events argv ++ [Fire CServerClose]).
      split; [simpl; by rewrite <- !app_assoc|]. split.
      * repeat (apply Forall_cons_2; [simpl; tauto|]). done.
      * apply Forall_app_2; [done|]. forall_events.
    + left. split; [done|]. split; [|split].
      * simpl. repeat (apply Forall_cons_2; [simpl; tauto|]).
        apply Forall_app_2; [by apply Forall_app_2|]. forall_events.
      * intros c Hc Hin. unfold_segments. simpl in Hin.
        split_membership; try discriminate;
          try (apply Hpg in Hin; destruct Hc as [->|[e ->]]; by destruct Hin);
          destruct Hc as [->|[e ->]]; discriminate.
      * intros e Hin. unfold_segments. simpl in Hin.
        split_membership; try discriminate. by apply Hpg in Hin.
  - right. left. split; [done|].
    exists [], (CLaunch (launchArgs argv)), e, []. by repeat split.
  - destruct (browser_close_events_close argv) as [Hclose Hquiet].
    destruct o as [e|]; simpl in H3.
    + right. left. split; [done|]. destruct H3 as (pre & c & -> & Hpre).
      exists (Await (CLaunch (launchArgs argv)) None :: pre),
        c, e, (browser_close_events argv).
      split; [simpl; by rewrite <- !app_assoc|]. split; [|done].
      by apply Forall_cons_2; [simpl; tauto|].
    + left. split; [done|]. split; [|split].
      * simpl. rewrite app_nil_r. apply Forall_cons_2; [simpl; tauto|].
        by apply Forall_app_2.
      * intros c Hc Hin. unfold_segments. simpl in Hin.
        split_membership; try discriminate;
          try (apply Hpg in Hin; destruct Hc as [->|[e ->]]; by destruct Hin);
          destruct Hc as [->|[e ->]]; discriminate.
      * intros e Hin. unfold_segments. simpl in Hin.
        split_membership; try discriminate. by apply Hpg in Hin.
Qed.

(** What the last write to its path has left in the file. *)
Lemma replay_last env b l1 name path content l2 fs :
  (forall name' content', ~ (Fire (CWriteFile name' path content') ∈ l2)) ->
  replay env b (l1 ++ Fire (CWriteFile name path content) :: l2) fs !! path
  = if b then Some content
    else match write_cut env name with
         | Some n => Some (String.substring 0 n content)
         | None => replay env b l1 fs !! path
         end.
Proof.
  intros Hl2. rewrite replay_app.
  change (replay env b (Fire (CWriteFile name path content) :: l2) (replay env b l1 fs))
    with (replay env b l2
            (landed env b (replay env b l1 fs) (Fire (CWriteFile name path content)))).
  rewrite replay_other by done. simpl.
  destruct b; [by rewrite lookup_insert_eq|].
  destruct (write_cut env name); [by rewrite lookup_insert_eq|done].
Qed.



(** ** C3: output files are keyed by the spec string *)

Lemma replay_on_page_quiet env b l fs :
  Forall (fun e => ~ in_loop e) l -> replay env b l fs = fs.
Proof.
  unfold replay. induction 1 as [|e l He _ IH]; [done|].
  simpl. rewrite <- IH at 2. f_equal.
  destruct e as [c f|[]|?]; done.
Qed.

Lemma replay_skip env b e l fs :
  ~ in_loop e -> replay env b (e :: l) fs = replay env b l fs.
Proof.
  intros He. unfold replay. simpl. f_equal.
  destruct e as [c f|[]|?]; done.
Qed.

(** When the loop completes and every write succeeds, the files are those
    of the entries, written in the order of the entries. *)
Lemma loop_trace_files `{Node} env argv k ps0 entries evs ps o :
  loop_trace env argv k ps0 entries evs ps o ->
  o = None ->
  forall fs, replay env true evs fs = fold_left (write_entry env argv) entries fs.
Proof.
  induction 1 as [|k ps0 n s rest e|k ps0 n s rest e|k ps0 n s rest doc e
                  |k ps0 n s rest doc evs ps o ? ? Hev ? ? IH];
    intros Ho fs; try discriminate; [done|].
  rewrite replay_app, (IH Ho). simpl. f_equal.
  unfold replay, iteration, write_entry, doc_of. simpl.
  by rewrite Hev.
Qed.

Lemma loop_trace_extracted `{Node} env argv k ps0 entries evs ps o :
  loop_trace env argv k ps0 entries evs ps o -> o = None ->
  forall name viewport, (name, viewport) ∈ entries ->
    evaluate env name (parse_viewport viewport)
    = Resolved (doc_of env name viewport).
Proof.
  induction 1 as [|k ps0 n s rest e|k ps0 n s rest e|k ps0 n s rest doc e
                  |k ps0 n s rest doc evs ps o ? ? Hev ? ? IH];
    intros Ho name viewport Hin; try discriminate.
  - by apply elem_of_nil in Hin.
  - apply elem_of_cons in Hin as [Heq|Hin]; [|by apply IH].
    injection Heq as -> ->. unfold doc_of. by rewrite Hev.
Qed.

(** The files after a run that ends with exit code 0. *)
Lemma run_success_files `{Node} env argv fs ds :
  exit_code (run env argv (fresh fs ds)) = 0 ->
  files (run env argv (fresh fs ds))
  = fold_left (write_entry env argv) (viewport_entries argv) fs
  /\ forall name viewport, (name, viewport) ∈ viewport_entries argv ->
       evaluate env name (parse_viewport viewport)
       = Resolved (doc_of env name viewport).
Proof.
  destruct (run_fresh env argv fs ds) as (tr & o & Ht & _ & -> & _ & ->).
  intros Hexit. destruct o as [e|]; [discriminate|]. clear Hexit.
  assert (Hdbg : Forall (fun e => ~ in_loop e) (debug_events argv)).
  { unfold debug_events. destruct (debug argv); forall_events. }
  assert (Hclose : Forall (fun e => ~ in_loop e) (browser_close_events argv)).
  { unfold browser_close_events. destruct (debug argv); forall_events. }
  assert (Hready : forall port, Forall (fun e => ~ in_loop e) (page_ready argv port)).
  { intros port. unfold page_ready. apply Forall_cons_2; [simpl; tauto|].
    apply Forall_app_2; [done|]. forall_events. }
  exit_paths;
    match goal with
    | Hs : rejection (all_settled ?ps) = None |- _ =>
        assert (Hps : all_settled ps = Resolved tt)
          by (by destruct (all_settled ps) as [[]|]);
        rewrite Hs in *; clear Hs
    end;
    match goal with
    | Hl : loop_trace _ _ _ _ _ ?evs ?ps None |- _ =>
        pose proof (loop_trace_files _ _ _ _ _ _ _ _ Hl eq_refl) as Hfiles;
        pose proof (loop_trace_extracted _ _ _ _ _ _ _ _ Hl eq_refl) as Hdocs
    end;
    (split; [|exact Hdocs]).
  all: change (report_events None) with (@nil Event).
  all: repeat first
         [ rewrite replay_app
         | rewrite replay_skip by (simpl; tauto)
         | rewrite (replay_on_page_quiet env true (page_ready _ _)) by done
         | rewrite (replay_on_page_quiet env true (browser_close_events _)) by done
         | rewrite Hfiles ].
  all: reflexivity.
Qed.

Lemma write_entries_dom `{Node} env argv entries : forall fs,
  dom (fold_left (write_entry env argv) entries fs)
  = dom fs ∪ list_to_set (map (fun entry => outputPagePath argv entry.2) entries).
Proof.
  induction entries as [|entry entries IH]; intros fs; simpl.
  - by rewrite (right_id_L ∅ (∪)).
  - rewrite IH. unfold write_entry. rewrite dom_insert_L.
    rewrite (comm_L (∪) {[outputPagePath argv entry.2]} (dom fs)).
    by rewrite (assoc_L (∪)).
Qed.

Lemma write_entries_other `{Node} env argv entries path : forall fs,
  Forall (fun later => outputPagePath argv later.2 <> path) entries ->
  fold_left (write_entry env argv) entries fs !! path = fs !! path.
Proof.
  induction entries as [|entry entries IH]; intros fs Hlater; [done|].
  apply Forall_cons in Hlater as [Hne Hlater]. simpl.
  rewrite (IH _ Hlater). unfold write_entry. by rewrite lookup_insert_ne.
Qed.

(** C3.  Every write of a run goes to
    [<outDir>/page-<viewportSpecString>.asketch.json], the spec string being
    that of the entry the write was issued for, and carries the document
    extracted for that entry; the entry's name does not enter the path.
    When the run succeeds, the files on disk are those it started with and
    one per distinct path among the entries; the file of a spec string
    holds the document of the last processed entry with that path.  So two
    entries with different names and the same spec string leave one file,
    holding the later one's document. *)
Theorem C3_output_keyed_by_spec `{Node} env argv fs ds :
  (forall name path content,
      Fire (CWriteFile name path content) ∈ log (run env argv (fresh fs ds)) ->
      exists viewport,
        (name, viewport) ∈ viewport_entries argv
        /\ path = path_join (path_resolve cwd (outDir argv))
                    ("page-" +:+ viewport +:+ ".asketch.json")
        /\ evaluate env name (parse_viewport viewport) = Resolved content)
  /\ (exit_code (run env argv (fresh fs ds)) = 0 ->
      dom (files (run env argv (fresh fs ds)))
      = dom fs ∪ list_to_set (map (fun entry => outputPagePath argv entry.2)
                                  (viewport_entries argv))
      /\ (forall before name viewport after,
            viewport_entries argv = before ++ (name, viewport) :: after ->
            Forall (fun later =>
                      outputPagePath argv later.2 <> outputPagePath argv viewport)
                   after ->
            exists doc,
              evaluate env name (parse_viewport viewport) = Resolved doc
              /\ files (run env argv (fresh fs ds)) !! outputPagePath argv viewport
                 = Some doc)
      /\ (forall name1 name2 viewport,
            viewports argv = Some [(name1, viewport); (name2, viewport)] ->
            exists doc2,
              evaluate env name2 (parse_viewport viewport) = Resolved doc2
              /\ files (run env argv (fresh fs ds))
                 = <[outputPagePath argv viewport := doc2]> fs)).
Proof.
  split.
  - intros name path content Hin.
    destruct (run_loop_events env argv fs ds _ Hin I) as (evs & Hl & Hev).
    by eapply loop_events_written.
  - intros Hexit.
    destruct (run_success_files env argv fs ds Hexit) as [Hfiles Hdocs].
    rewrite Hfiles. split; [apply write_entries_dom|]. split.
    + intros before name viewport after Hentries Hafter.
      exists (doc_of env name viewport). split.
      * apply Hdocs. rewrite Hentries. apply elem_of_app. right. left.
      * rewrite Hentries, fold_left_app. simpl.
        rewrite (write_entries_other _ _ _ _ _ Hafter).
        unfold write_entry. simpl. by rewrite lookup_insert_eq.
    + intros name1 name2 viewport Hv.
      exists (doc_of env name2 viewport). split.
      * apply Hdocs. unfold viewport_entries. rewrite Hv. simpl.
        right. left.
      * unfold viewport_entries. rewrite Hv. simpl. unfold write_entry. simpl.
        by rewrite insert_insert_eq.
Qed.

Lemma C3_output_keyed_by_spec_witness :
  exists doc2,
    evaluate (all_ok 3000 (fun n => "document of " +:+ n)) "Tablet"
      (parse_viewport "1024x768") = Resolved doc2
    /\ files (run (all_ok 3000 (fun n => "document of " +:+ n)) same_spec_twice
                (fresh ∅ ∅))
       = <[outputPagePath same_spec_twice "1024x768" := doc2]> ∅.
Proof.
  exact (proj2 (proj2 (proj2 (C3_output_keyed_by_spec
           (all_ok 3000 (fun n => "document of " +:+ n)) same_spec_twice ∅ ∅)
           eq_refl)) "Desktop" "Tablet" "1024x768" eq_refl).
Defined.

Example same_spec_twice_one_file :
  files (run (all_ok 3000 (fun n => "document of " +:+ n)) same_spec_twice
           (fresh ∅ ∅))
  = {[ "/work/out/page-1024x768.asketch.json" := "document of Tablet" ]}.
Proof. by vm_compute. Qed.


(** ** C4: the order of the pipeline's events *)

Section Precedes.

Context (P Q : Event -> Prop).

Lemma precedes_nil : precedes P Q [].
Proof. intros [|a l1] e l2 Heq; discriminate Heq. Qed.

Lemma precedes_cons_other e l :
  ~ Q e -> precedes P Q l -> precedes P Q (e :: l).
Proof.
  intros He Hl [|a l1] x l2 Heq Hx; simplify_eq/=; [done|].
  apply Exists_cons_tl. by eapply Hl.
Qed.

Lemma precedes_cons_done e l : P e -> ~ Q e -> precedes P Q (e :: l).
Proof.
  intros HP HQ [|a l1] x l2 Heq Hx; simplify_eq/=; [done|].
  by apply Exists_cons_hd.
Qed.

Lemma precedes_none l : Forall (fun e => ~ Q e) l -> precedes P Q l.
Proof.
  intros Hl l1 e l2 -> He. apply Forall_app in Hl as [_ Hl].
  apply Forall_cons in Hl as [Hl _]. by destruct Hl.
Qed.

Lemma precedes_app l l' :
  precedes P Q l -> Exists P l \/ precedes P Q l' -> precedes P Q (l ++ l').
Proof.
  intros Hl Hl' l1 e l2 Heq He.
  apply app_eq_inv in Heq as [(k & -> & Hk)|(k & -> & Hk)].
  - destruct k as [|x k]; simpl in Hk.
    + destruct Hl' as [Hseen|Hl'].
      * by rewrite app_nil_r in Hseen.
      * assert (Hx : Exists P []) by (apply (Hl' [] e l2); [by rewrite <- Hk|done]).
        by apply Exists_nil in Hx.
    + injection Hk as <- ->. by eapply Hl.
  - apply Exists_app. destruct Hl' as [Hseen|Hl']; [by left|].
    right. by eapply Hl'.
Qed.

End Precedes.

(** A step of a history where exactly one event has the property [P]. *)
Lemma unique_split (P : Event -> Prop) pre x post l1 y l2 :
  Forall (fun e => ~ P e) pre -> Forall (fun e => ~ P e) post -> P y ->
  pre ++ x :: post = l1 ++ y :: l2 ->
  l1 = pre /\ y = x /\ l2 = post.
Proof.
  intros Hpre Hpost Hy. revert l1.
  induction Hpre as [|a pre Ha Hpre IH]; intros [|b l1] Heq; simplify_eq/=.
  - done.
  - apply Forall_app in Hpost as [_ Hpost].
    apply Forall_cons in Hpost as [Hpost _]. by destruct Hpost.
  - by destruct Ha.
  - destruct (IH _ H0) as (-> & -> & ->). done.
Qed.

Lemma debug_events_setting_up argv : Forall setting_up (debug_events argv).
Proof. unfold debug_events. destruct (debug argv); forall_events. Qed.

Lemma page_ready_setting_up `{Node} argv port :
  Forall setting_up (page_ready argv port)
  /\ exists l0, page_ready argv port = l0 ++ [Await (CAddScriptTag script_path) None].
Proof.
  pose proof (debug_events_setting_up argv) as Hdbg. unfold page_ready. split.
  - apply Forall_cons_2; [done|]. apply Forall_app_2; [done|]. forall_events.
  - exists (Await CNewPage None :: debug_events argv
            ++ [Await (CGoto (symbolsUrl argv port) (puppeteerWaitUntil argv)) None]).
    simpl. by rewrite <- app_assoc.
Qed.

(** The page region as a setup, the loop's calls and the joint wait. *)
Lemma page_trace_segments `{Node} env argv port k pg o :
  page_trace env argv port k pg o ->
  exists setup evs ps o',
    pg = setup ++ evs ++ join_events ps o'
    /\ Forall setting_up setup
    /\ ((evs = [] /\ o' <> None)
        \/ (loop_events env argv (viewport_entries argv) evs
            /\ exists l0, setup = l0 ++ [Await (CAddScriptTag script_path) None])).
Proof.
  pose proof (debug_events_setting_up argv) as Hdbg.
  destruct (page_ready_setting_up argv port) as [Hready Hlast].
  inversion 1; subst.
  - exists [Await CNewPage (Some e)], [], [], (Some e).
    split; [done|]. split; [forall_events|]. by left.
  - eexists _, [], [], (Some e).
    split; [by rewrite app_nil_r|]. split; [|by left].
    apply Forall_cons_2; [done|]. apply Forall_app_2; [done|]. forall_events.
  - eexists _, [], [], (Some e).
    split; [by rewrite app_nil_r|]. split; [|by left].
    apply Forall_cons_2; [done|]. apply Forall_app_2; [done|]. forall_events.
  - exists (page_ready argv port), evs, ps, (Some e).
    split; [by rewrite app_nil_r|]. split; [done|]. right.
    split; [by eapply loop_trace_events|done].
  - exists (page_ready argv port), evs, ps, None.
    split; [done|]. split; [done|]. right.
    split; [by eapply loop_trace_events|done].
Qed.

(** The page region when the runtime ends the process in the loop. *)
Lemma page_death_segments `{Node} env argv port k pg e :
  page_death env argv port k pg e ->
  exists setup evs,
    pg = setup ++ evs
    /\ Forall setting_up setup
    /\ loop_events env argv (viewport_entries argv) evs
    /\ exists l0, setup = l0 ++ [Await (CAddScriptTag script_path) None].
Proof.
  destruct (page_ready_setting_up argv port) as [Hready Hlast].
  inversion 1; subst.
  exists (page_ready argv port), evs.
  split; [done|]. split; [done|]. split; [by eapply loop_death_events|done].
Qed.

Lemma report_events_winding o : Forall winding (report_events o).
Proof. destruct o; forall_events. Qed.

Lemma browser_close_events_winding argv : Forall winding (browser_close_events argv).
Proof. unfold browser_close_events. destruct (debug argv); forall_events. Qed.

(** Every history: a setup, the loop's calls, the joint wait, then the
    releases and the report, or the end the runtime puts to the process. *)
Lemma run_segments `{Node} env argv fs ds :
  exists setup evs ps o rest,
    log (run env argv (fresh fs ds)) = setup ++ evs ++ join_events ps o ++ rest
    /\ Forall setting_up setup
    /\ Forall (fun e => winding e \/ dying e) rest
    /\ (o = None -> Forall winding rest)
    /\ ((evs = [] /\ o <> None)
        \/ (loop_events env argv (viewport_entries argv) evs
            /\ exists l0, setup = l0 ++ [Await (CAddScriptTag script_path) None])).
Proof.
  destruct (run_fresh env argv fs ds) as (tr & o & Ht & -> & _).
  pose proof (report_events_winding o) as Hrep.
  pose proof (browser_close_events_winding argv) as Hbc.
  assert (Hor : forall l, Forall winding l -> Forall (fun e => winding e \/ dying e) l).
  { intros l Hl. eapply Forall_impl; [exact Hl|]. tauto. }
  outer_paths;
    try match goal with
        | Ht : page_trace _ _ _ _ _ _ |- _ =>
            apply page_trace_segments in Ht
              as (setup & evs & ps & o' & -> & Hsetup & Hloop)
        | Ht : page_death _ _ _ _ _ _ |- _ =>
            apply page_death_segments in Ht
              as (setup & evs & -> & Hsetup & Hloop & l0 & ->)
        end.
  - exists [Await CGetPort (Some e)], [], [], (Some e), (report_events (Some e)).
    split; [done|]. split; [forall_events|].
    split; [by apply Hor|]. split; [done|]. by left.
  - exists [Await CGetPort None], [], [], (Some e), [Abort e].
    split; [done|]. split; [forall_events|]. split; [forall_events|].
    split; [done|]. by left.
  - exists [Await CGetPort None; Await (CListen (served_dir argv) (Some p)) None;
            Await (CLaunch (launchArgs argv)) (Some e)],
      [], [], (Some e), (Fire CServerClose :: report_events (Some e)).
    split; [done|]. split; [forall_events|].
    split; [apply Hor; by apply Forall_cons_2|]. split; [done|]. by left.
  - assert (Hrest : Forall winding
      (browser_close_events argv ++ Fire CServerClose :: report_events o)).
    { apply Forall_app_2; [done|]. by apply Forall_cons_2. }
    exists (Await CGetPort None :: Await (CListen (served_dir argv) (Some p)) None
            :: Await (CLaunch (launchArgs argv)) None :: setup),
      evs, ps, o', (browser_close_events argv ++ Fire CServerClose :: report_events o).
    split; [simpl; by rewrite <- !app_assoc|].
    split; [by repeat (apply Forall_cons_2; [done|])|].
    split; [by apply Hor|]. split; [done|].
    destruct Hloop as [?|[Hl [l0 ->]]]; [by left|]. right. split; [done|].
    by exists (Await CGetPort None :: Await (CListen (served_dir argv) (Some p)) None
               :: Await (CLaunch (launchArgs argv)) None :: l0).
  - exists (Await CGetPort None :: Await (CListen (served_dir argv) (Some p)) None
            :: Await (CLaunch (launchArgs argv)) None
            :: l0 ++ [Await (CAddScriptTag script_path) None]),
      evs, [], (Some e), [].
    split; [simpl; by rewrite !app_nil_r|].
    split; [by repeat (apply Forall_cons_2; [done|])|].
    split; [done|]. split; [done|]. right. split; [done|].
    by exists (Await CGetPort None :: Await (CListen (served_dir argv) (Some p)) None
               :: Await (CLaunch (launchArgs argv)) None :: l0).
  - exists [Await (CLaunch (launchArgs argv)) (Some e)], [], [], (Some e),
      (report_events (Some e)).
    split; [done|]. split; [forall_events|].
    split; [by apply Hor|]. split; [done|]. by left.
  - assert (Hrest : Forall winding (browser_close_events argv ++ report_events o)).
    { by apply Forall_app_2. }
    exists (Await (CLaunch (launchArgs argv)) None :: setup),
      evs, ps, o', (browser_close_events argv ++ report_events o).
    split; [simpl; by rewrite <- !app_assoc|].
    split; [by apply Forall_cons_2|].
    split; [by apply Hor|]. split; [done|].
    destruct Hloop as [?|[Hl [l0 ->]]]; [by left|]. right. split; [done|].
    by exists (Await (CLaunch (launchArgs argv)) None :: l0).
  - exists (Await (CLaunch (launchArgs argv)) None
            :: l0 ++ [Await (CAddScriptTag script_path) None]),
      evs, [], (Some e), [].
    split; [simpl; by rewrite !app_nil_r|].
    split; [by apply Forall_cons_2|].
    split; [done|]. split; [done|]. right. split; [done|].
    by exists (Await (CLaunch (launchArgs argv)) None :: l0).
Qed.

Section LoopOrder.

Context `{Node} (env : Env) (argv : Argv).

Lemma loop_events_resize_first entries evs name :
  loop_events env argv entries evs ->
  precedes (resized name) (extracting name) evs.
Proof.
  induction 1 as [|entries e|n s rest e|n s rest e|n s rest e|n s rest e
                  |n s rest e|n s rest doc evs Hev Hl IH];
    try (apply precedes_none; forall_events; fail).
  - destruct (decide (n = name)) as [->|Hne].
    + apply precedes_cons_done; simpl; [done|tauto].
    + apply precedes_none. forall_events.
  - destruct (decide (n = name)) as [->|Hne].
    + apply precedes_cons_done; simpl; [done|tauto].
    + apply precedes_none. forall_events.
  - destruct (decide (n = name)) as [->|Hne].
    + apply precedes_cons_done; simpl; [done|tauto].
    + apply precedes_none. forall_events.
  - unfold iteration. simpl. destruct (decide (n = name)) as [->|Hne].
    + apply precedes_cons_done; simpl; [done|tauto].
    + apply precedes_cons_other; [simpl; tauto|].
      apply precedes_cons_other; [simpl; tauto|].
      apply precedes_cons_other; [simpl; tauto|].
      apply precedes_cons_other; [simpl; tauto|]. done.
Qed.

Lemma loop_events_extract_first entries evs name :
  loop_events env argv entries evs ->
  precedes (extracted name) (writing name) evs.
Proof.
  induction 1 as [|entries e|n s rest e|n s rest e|n s rest e|n s rest e
                  |n s rest e|n s rest doc evs Hev Hl IH];
    try (apply precedes_none; forall_events; fail).
  - unfold iteration. simpl. apply precedes_cons_other; [simpl; tauto|].
    destruct (decide (n = name)) as [->|Hne].
    + apply precedes_cons_done; simpl; [done|tauto].
    + apply precedes_cons_other; [simpl; tauto|].
      apply precedes_cons_other; [simpl; tauto|].
      apply precedes_cons_other; [simpl; tauto|]. done.
Qed.

Lemma loop_events_schedule entries evs :
  loop_events env argv entries evs ->
  captures evs `prefix_of` schedule entries.
Proof.
  induction 1 as [|entries e|n s rest e|n s rest e|n s rest e|n s rest e
                  |n s rest e|n s rest doc evs Hev Hl IH].
  - done.
  - apply prefix_nil.
  - by exists (Extract n :: schedule rest).
  - by exists (Extract n :: schedule rest).
  - by exists (schedule rest).
  - by exists (schedule rest).
  - by exists (schedule rest).
  - unfold iteration, captures. simpl. fold (captures evs).
    by do 2 apply prefix_cons.
Qed.

End LoopOrder.

Lemma quiet_outside_loop (Q : Event -> Prop) l :
  (forall e, Q e -> in_loop e) ->
  Forall (fun e => setting_up e \/ winding e \/ is_join e \/ dying e) l ->
  Forall (fun e => ~ Q e) l.
Proof.
  intros HQ Hl. eapply Forall_impl; [exact Hl|]. intros e He Hq. apply HQ in Hq.
  destruct e as [[] ?|[]|?]; simpl in *; tauto.
Qed.

Lemma join_events_join ps o : Forall is_join (join_events ps o).
Proof. destruct o; forall_events. Qed.

(** An order that holds among the loop's calls holds in the whole history. *)
Lemma run_precedes_of_loop `{Node} env argv fs ds (P Q : Event -> Prop) :
  (forall e, Q e -> in_loop e) ->
  (forall evs,
      loop_events env argv (viewport_entries argv) evs -> precedes P Q evs) ->
  precedes P Q (log (run env argv (fresh fs ds))).
Proof.
  intros HQ Hloop.
  destruct (run_segments env argv fs ds)
    as (setup & evs & ps & o & rest & -> & Hsetup & Hrest & _ & Hevs).
  pose proof (join_events_join ps o) as Hjoin.
  apply precedes_app.
  { apply precedes_none, quiet_outside_loop; [done|].
    eapply Forall_impl; [exact Hsetup|]. tauto. }
  right. apply precedes_app.
  { destruct Hevs as [[-> _]|[Hl _]]; [apply precedes_nil|by eapply Hloop]. }
  right. apply precedes_none, quiet_outside_loop; [done|].
  apply Forall_app_2; (eapply Forall_impl; [eassumption|]); simpl; tauto.
Qed.

Lemma captures_outside_loop l :
  Forall (fun e => setting_up e \/ winding e \/ is_join e \/ dying e) l ->
  captures l = [].
Proof.
  induction 1 as [|e l He _ IH]; [done|].
  unfold captures in *.
  destruct e as [[] ?|[]|?]; simpl in *; try tauto; exact IH.
Qed.

Lemma is_capture_in_loop e : is_capture e -> in_loop e.
Proof. by destruct e as [[] ?|[]|?]. Qed.

(** The events of the segments, by kind. *)
Lemma segments_not_join setup evs rest :
  Forall setting_up setup ->
  Forall (fun e => in_loop e \/ dying e) evs ->
  Forall (fun e => winding e \/ dying e) rest ->
  Forall (fun e => ~ is_join e) setup
  /\ Forall (fun e => ~ is_join e) evs
  /\ Forall (fun e => ~ is_join e) rest.
Proof.
  intros Hs He Hr. repeat split;
    (eapply Forall_impl; [eassumption|]);
    intros [[] ?|[]|?]; simpl; tauto.
Qed.

(** C4.  In every history of the handler:
    (a) when a directory is served, the server listens before any
        navigation;
    (b) the script is injected before any resize or extraction;
    (c) each viewport's extraction has that viewport's resize, completed,
        before it;
    (d) the resizes and extractions follow the entries one by one, each
        entry's resize then its extraction, and a call that rejects is
        followed by nothing but the releases and the report, so a capture
        only starts once the previous one has completed;
    (e) each viewport's write is issued after that viewport's extraction
        has completed;
    (f) no write is awaited on its own: the only wait on the writes is the
        one [Promise.all], made once, after the last write was issued, so
        the handler puts no order between the writes of different
        viewports. *)
Theorem C4_pipeline_order `{Node} env argv fs ds :
  (JS.truthy (serve argv) = true ->
   precedes listening navigating (log (run env argv (fresh fs ds))))
  /\ precedes injected is_capture (log (run env argv (fresh fs ds)))
  /\ (forall name,
        precedes (resized name) (extracting name) (log (run env argv (fresh fs ds))))
  /\ captures (log (run env argv (fresh fs ds)))
       `prefix_of` schedule (viewport_entries argv)
  /\ (forall l1 e l2,
        log (run env argv (fresh fs ds)) = l1 ++ e :: l2 ->
        failed e -> Forall winding l2)
  /\ (forall name,
        precedes (extracted name) (writing name) (log (run env argv (fresh fs ds))))
  /\ (forall c f,
        Await c f ∈ log (run env argv (fresh fs ds)) ->
        forall name path content, c <> CWriteFile name path content)
  /\ (forall l1 e l2,
        log (run env argv (fresh fs ds)) = l1 ++ e :: l2 ->
        is_join e ->
        Forall (fun x => ~ is_join x) l1 /\ Forall winding l2).
Proof.
  split; [|split; [|split; [|split; [|split; [|split; [|split]]]]]].
  - intros Hserve.
    destruct (run_fresh env argv fs ds) as (tr & o & Ht & -> & _).
    outer_paths; try congruence;
      first [ apply precedes_none; simpl; forall_events; fail
            | apply precedes_cons_other; [simpl; tauto|];
              apply precedes_cons_done; simpl; tauto ].
  - destruct (run_segments env argv fs ds)
      as (setup & evs & ps & o & rest & -> & Hsetup & Hrest & _ & Hevs).
    pose proof (join_events_join ps o) as Hjoin.
    destruct Hevs as [[-> Ho]|[Hl [l0 ->]]].
    + apply precedes_none, quiet_outside_loop; [apply is_capture_in_loop|].
      repeat apply Forall_app_2; try done;
        (eapply Forall_impl; [eassumption|]); simpl; tauto.
    + apply precedes_app.
      * apply precedes_none, quiet_outside_loop; [apply is_capture_in_loop|].
        eapply Forall_impl; [exact Hsetup|]. tauto.
      * left. apply Exists_app. right. by apply Exists_cons_hd.
  - intros name. apply run_precedes_of_loop.
    + intros [[] ?|[]|?]; simpl; tauto.
    + intros evs. apply loop_events_resize_first.
  - destruct (run_segments env argv fs ds)
      as (setup & evs & ps & o & rest & -> & Hsetup & Hrest & _ & Hevs).
    pose proof (join_events_join ps o) as Hjoin.
    unfold captures. rewrite !omap_app. fold (captures setup) (captures evs)
      (captures (join_events ps o)) (captures rest).
    rewrite (captures_outside_loop setup), (captures_outside_loop (join_events ps o)),
      (captures_outside_loop rest);
      try (eapply Forall_impl; [eassumption|]; simpl; tauto).
    rewrite app_nil_r. simpl.
    destruct Hevs as [[-> _]|[Hl _]]; [apply prefix_nil|].
    by eapply loop_events_schedule.
  - intros l1 e l2 Hlog He.
    destruct (run_outcome env argv fs ds)
      as [(_ & Hquiet & _)|[(_ & pre & c & err & closes & Hshape & Hpre & Hcloses)
                           |(_ & pre & err & Hshape & Hpre & _)]].
    + rewrite Hlog in Hquiet. apply Forall_app in Hquiet as [_ Hquiet].
      apply Forall_cons in Hquiet as [Hquiet _]. by destruct Hquiet.
    + rewrite Hlog in Hshape. symmetry in Hshape.
      apply (unique_split failed) in Hshape as (_ & _ & ->); try done.
      * apply Forall_app_2; [|forall_events].
        eapply Forall_impl; [exact Hcloses|]. intros [[] ?|[]|?]; simpl; tauto.
      * apply Forall_app_2; [|forall_events].
        eapply Forall_impl; [exact Hcloses|]. intros [[] ?|[]|?]; simpl; tauto.
    + exfalso.
      assert (Hnone : Forall (fun x => ~ failed x) (l1 ++ e :: l2)).
      { rewrite <- Hlog, Hshape. apply Forall_app_2; [|forall_events].
        eapply Forall_impl; [exact Hpre|]. by intros x [_ Hx]. }
      apply Forall_app in Hnone as [_ Hnone].
      apply Forall_cons in Hnone as [Hnone _]. by destruct Hnone.
  - intros name. apply run_precedes_of_loop.
    + intros [[] ?|[]|?]; simpl; tauto.
    + intros evs. apply loop_events_extract_first.
  - intros c f Hin name path content ->.
    destruct (run_segments env argv fs ds)
      as (setup & evs & ps & o & rest & Hlog & Hsetup & Hrest & _ & Hevs).
    pose proof (join_events_join ps o) as Hjoin.
    rewrite Hlog in Hin. rewrite Forall_forall in Hsetup, Hrest, Hjoin.
    repeat (apply elem_of_app in Hin as [Hin|Hin]).
    + by apply Hsetup in Hin.
    + destruct Hevs as [[-> _]|[Hl _]]; [by apply elem_of_nil in Hin|].
      apply loop_events_kinds in Hl. rewrite Forall_forall in Hl.
      apply Hl in Hin. simpl in Hin. tauto.
    + by apply Hjoin in Hin.
    + apply Hrest in Hin. simpl in Hin. tauto.
  - intros l1 e l2 Hlog He.
    destruct (run_segments env argv fs ds)
      as (setup & evs & ps & o & rest & Hshape & Hsetup & Hrest & Hwind & Hevs).
    assert (Hloop : Forall (fun e => in_loop e \/ dying e) evs).
    { destruct Hevs as [[-> _]|[Hl _]]; [done|by eapply loop_events_kinds]. }
    destruct (segments_not_join setup evs rest Hsetup Hloop Hrest)
      as (Hs & Hv & Hr).
    rewrite Hlog in Hshape. destruct o as [err|]; simpl in Hshape.
    + assert (Hnone : Forall (fun x => ~ is_join x) (l1 ++ e :: l2)).
      { rewrite Hshape. by repeat apply Forall_app_2. }
      apply Forall_app in Hnone as [_ Hnone].
      apply Forall_cons in Hnone as [Hnone _]. by destruct Hnone.
    + rewrite app_assoc in Hshape. symmetry in Hshape.
      apply (unique_split is_join) in Hshape as (-> & _ & ->); try done.
      * split; [by apply Forall_app_2|by apply Hwind].
      * by apply Forall_app_2.
Qed.

Lemma C4_pipeline_order_witness :
  precedes listening navigating
    (log (run (all_ok 3000 (fun n => n)) served_two_viewports (fresh ∅ ∅))).
Proof.
  exact (proj1 (C4_pipeline_order (all_ok 3000 (fun n => n))
                  served_two_viewports ∅ ∅) eq_refl).
Defined.

(** The end-to-end scenario of two viewports: the history of a served run
    in which every collaborator succeeds. *)
Example served_two_viewports_history :
  log (run (all_ok 3000 (fun n => n)) served_two_viewports (fresh ∅ ∅))
  = [Await CGetPort None;
     Await (CListen "dist" (Some 3000%N)) None;
     Await (CLaunch {| args := []; executablePath := None; headless := true;
                       userDataDir := None |}) None;
     Await CNewPage None;
     Await (CGoto (Some "http://localhost:3000/") "networkidle2") None;
     Await (CAddScriptTag "/opt/cli/bin/page2layers.bundle.js") None;
     Await (CSetViewport "Desktop"
              {| width := Some (Dec false 1024 0); height := Some (Dec false 768 0);
                 deviceScaleFactor := one |}) None;
     Await (CEvaluate "Desktop") None;
     Await (CMkdirp "Desktop" "/work/out") None;
     Fire (CWriteFile "Desktop" "/work/out/page-1024x768.asketch.json" "Desktop");
     Await (CSetViewport "Mobile"
              {| width := Some (Dec false 320 0); height := Some (Dec false 568 0);
                 deviceScaleFactor := one |}) None;
     Await (CEvaluate "Mobile") None;
     Await (CMkdirp "Mobile" "/work/out") None;
     Fire (CWriteFile "Mobile" "/work/out/page-320x568.asketch.json" "Mobile");
     Await CPromiseAll None;
     Fire CBrowserClose;
     Fire CServerClose].
Proof. reflexivity. Qed.

Example served_two_viewports_files :
  files (run (all_ok 3000 (fun _ => "{layers: []}")) served_two_viewports
           (fresh ∅ ∅))
  = {[ "/work/out/page-1024x768.asketch.json" := "{layers: []}";
       "/work/out/page-320x568.asketch.json" := "{layers: []}" ]}.
Proof. by vm_compute. Qed.

Example parse_1024x768 :
  parse_viewport "1024x768"
  = {| width := Some (Dec false 1024 0); height := Some (Dec false 768 0);
       deviceScaleFactor := one |}.
Proof. reflexivity. Qed.

Example parse_retina :
  parse_viewport "320x568@2.5"
  = {| width := Some (Dec false 320 0); height := Some (Dec false 568 0);
       deviceScaleFactor := Dec false 25 (-1) |}.
Proof. reflexivity. Qed.

Example parse_width_only :
  parse_viewport "1024"
  = {| width := Some (Dec false 1024 0); height := None; deviceScaleFactor := one |}.
Proof. reflexivity. Qed.

(** * Further properties *)

(** ** [split] *)

Lemma split_nonempty sep s : exists h t, JS.split sep s = h :: t.
Proof.
  induction s as [|c s (h & t & IH)]; simpl; [by eauto|].
  destruct (Ascii.eqb c sep); [by eauto|]. rewrite IH. by eauto.
Qed.

Lemma split_second sep s :
  has_char sep s = true -> exists a b t, JS.split sep s = a :: b :: t.
Proof.
  induction s as [|c s IH]; simpl; [discriminate|].
  destruct (Ascii.eqb c sep); simpl.
  - intros _. destruct (split_nonempty sep s) as (h & t & ->). by eauto.
  - intros Hs. destruct (IH Hs) as (a & b & t & ->). by eauto.
Qed.

Lemma concat_cons sep a b l :
  String.concat sep (a :: b :: l) = a +:+ sep +:+ String.concat sep (b :: l).
Proof. reflexivity. Qed.

Lemma split_concat sep s :
  String.concat (String sep EmptyString) (JS.split sep s) = s.
Proof.
  induction s as [|c s IH]; [done|]. simpl JS.split.
  destruct (split_nonempty sep s) as (h & t & Hs). rewrite Hs in *.
  destruct (Ascii.eqb_spec c sep) as [->|Hc].
  - rewrite concat_cons, IH. reflexivity.
  - destruct t as [|b t].
    + simpl in *. by rewrite IH.
    + rewrite concat_cons in *. rewrite append_cons. by rewrite IH.
Qed.

Lemma split_parts_plain sep s :
  Forall (fun a => has_char sep a = false) (JS.split sep s).
Proof.
  induction s as [|c s IH]; simpl; [by repeat constructor|].
  destruct (Ascii.eqb c sep) eqn:Hc; [by constructor|].
  destruct (JS.split sep s) as [|h t]; [by repeat constructor; simpl; rewrite Hc|].
  apply Forall_cons in IH as [Hh Ht].
  constructor; [|done]. simpl. by rewrite Hc, Hh.
Qed.

Lemma split_length sep s :
  length (JS.split sep s) = S (count_char sep s).
Proof.
  induction s as [|c s IH]; simpl; [done|].
  destruct (Ascii.eqb c sep); simpl; [by rewrite IH|].
  destruct (JS.split sep s) as [|h t]; simpl in *; lia.
Qed.

Lemma split_doubled sep a b :
  exists h t,
    JS.split sep (a +:+ String sep (String sep b)) = h :: t /\ EmptyString ∈ t.
Proof.
  induction a as [|c a (h & t & IH & Hin)].
  - rewrite append_nil_l. simpl. rewrite Ascii.eqb_refl.
    eexists _, _. split; [reflexivity|]. by apply elem_of_cons; left.
  - rewrite append_cons. simpl. rewrite IH.
    destruct (Ascii.eqb c sep).
    + eexists _, _. split; [reflexivity|]. by apply elem_of_cons; right.
    + by eauto.
Qed.

Lemma count_char_trailing sep a :
  (1 <= count_char sep (a +:+ String sep EmptyString))%nat.
Proof.
  induction a as [|x a IH].
  - rewrite append_nil_l. simpl. rewrite Ascii.eqb_refl. lia.
  - rewrite append_cons. simpl. lia.
Qed.

Lemma split_trailing sep a :
  last (JS.split sep (a +:+ String sep EmptyString)) = Some EmptyString.
Proof.
  induction a as [|c a IH].
  - rewrite append_nil_l. simpl. by rewrite Ascii.eqb_refl.
  - rewrite append_cons. simpl.
    pose proof (split_length sep (a +:+ String sep EmptyString)) as Hl.
    pose proof (count_char_trailing sep a) as Hc.
    destruct (JS.split sep (a +:+ String sep EmptyString)) as [|h [|b t]];
      simpl in Hl; [lia|lia|].
    by destruct (Ascii.eqb c sep).
Qed.

(** ** The launch arguments (line 100) *)

(** X1.  When [--puppeteer-args] is given and not empty, the arguments
    handed to the browser are its pieces between single spaces: none of
    them holds a space, there is one more of them than there are spaces,
    and joined by spaces they give the option back.  When the option is
    absent or empty the browser gets no argument at all. *)
Theorem launchArgs_split_round_trip `{Node} argv :
  (JS.truthy (puppeteerArgs argv) = true ->
   String.concat " " (args (launchArgs argv))
   = default EmptyString (puppeteerArgs argv)
   /\ Forall (fun a => has_char " " a = false) (args (launchArgs argv))
   /\ length (args (launchArgs argv))
      = S (count_char " " (default EmptyString (puppeteerArgs argv))))
  /\ (JS.truthy (puppeteerArgs argv) = false -> args (launchArgs argv) = []).
Proof.
  unfold launchArgs. simpl. split; intros ->.
  - split; [apply split_concat|]. split; [apply split_parts_plain|apply split_length].
  - reflexivity.
Qed.

Lemma launchArgs_split_round_trip_witness :
  String.concat " "
    (args (launchArgs (with_puppeteerArgs "--no-sandbox --disable-gpu" base_argv)))
  = "--no-sandbox --disable-gpu"
  /\ length (args (launchArgs (with_puppeteerArgs "--no-sandbox --disable-gpu"
                                 base_argv))) = 2%nat
  /\ args (launchArgs base_argv) = [].
Proof.
  pose proof (launchArgs_split_round_trip
                (with_puppeteerArgs "--no-sandbox --disable-gpu" base_argv))
    as [Hgiven _].
  pose proof (launchArgs_split_round_trip base_argv) as [_ Habsent].
  destruct (Hgiven eq_refl) as (Hjoin & _ & Hlen).
  split; [exact Hjoin|]. split; [exact Hlen|]. exact (Habsent eq_refl).
Defined.

(** X2.  The option is cut at every single space and nothing is trimmed: a
    doubled space inside it, or a space at its end, hands the browser an
    empty argument. *)
Theorem launchArgs_empty_argument `{Node} argv a b :
  (puppeteerArgs argv = Some (a +:+ "  " +:+ b) ->
   EmptyString ∈ args (launchArgs argv))
  /\ (puppeteerArgs argv = Some (a +:+ " ") ->
      last (args (launchArgs argv)) = Some EmptyString).
Proof.
  unfold launchArgs. simpl. split; intros ->; simpl.
  - destruct (split_doubled " " a b) as (h & t & Hs & Hin).
    change (a +:+ "  " +:+ b) with (a +:+ String " " (String " " b)).
    destruct a; rewrite Hs; by apply elem_of_cons; right.
  - change (a +:+ " ") with (a +:+ String " " EmptyString).
    destruct a; apply split_trailing.
Qed.

Lemma launchArgs_empty_argument_witness :
  EmptyString
    ∈ args (launchArgs (with_puppeteerArgs "--no-sandbox  --disable-gpu" base_argv))
  /\ last (args (launchArgs (with_puppeteerArgs "--no-sandbox " base_argv)))
     = Some EmptyString.
Proof.
  split.
  - exact (proj1 (launchArgs_empty_argument
                    (with_puppeteerArgs "--no-sandbox  --disable-gpu" base_argv)
                    "--no-sandbox" "--disable-gpu") eq_refl).
  - exact (proj2 (launchArgs_empty_argument
                    (with_puppeteerArgs "--no-sandbox " base_argv)
                    "--no-sandbox" EmptyString) eq_refl).
Defined.

(** ** The parser on irregular specs (lines 133-135) *)

Lemma lookup_second_parsed sep s :
  map JS.parseInt10 (JS.split sep s) !! 1%nat = None <-> has_char sep s = false.
Proof.
  split.
  - destruct (has_char sep s) eqn:Hs; [|done].
    destruct (split_second sep s Hs) as (a & b & t & ->). discriminate.
  - intros Hs. by rewrite split_no_sep.
Qed.

(** X3.  Whatever the spec string, the width handed to the resize is
    defined (a number or [NaN]); the height is [undefined] exactly when the
    part of the spec before the first [@] has no [x]. *)
Theorem parse_viewport_defined_parts (viewport : string) :
  is_Some (width (parse_viewport viewport))
  /\ (height (parse_viewport viewport) = None
      <-> has_char "x" (hd EmptyString (JS.split "@" viewport)) = false).
Proof.
  unfold parse_viewport. simpl. split.
  - destruct (split_nonempty "x" (hd EmptyString (JS.split "@" viewport)))
      as (h & t & ->). by eexists.
  - apply lookup_second_parsed.
Qed.

Lemma take_digits_stops u :
  no_leading_digit u = true -> JS.take_digits u = (EmptyString, u).
Proof.
  destruct u as [|c u]; simpl; [done|]. by intros ->%negb_true_iff.
Qed.

Lemma parseInt10_digits_then ds u :
  all_digits ds = true -> ds <> EmptyString -> no_leading_digit u = true ->
  JS.parseInt10 (ds +:+ u) = Dec false (JS.dec_value ds) 0.
Proof.
  intros Hds Hne Hu. unfold JS.parseInt10.
  destruct ds as [|c ds]; [done|].
  pose proof Hds as Hall. simpl in Hds. apply andb_prop in Hds as [Hc Hds].
  destruct (digit_is_plain c Hc) as (Hsp & Hm & Hp & _).
  rewrite append_cons. simpl JS.trim_start. rewrite Hsp.
  unfold JS.strip_sign. rewrite Hm, Hp. rewrite <- append_cons.
  rewrite (take_digits_all _ u Hall) by (by rewrite take_digits_stops).
  done.
Qed.

Lemma split_head_no_digit sep u h t :
  JS.split sep u = h :: t -> no_leading_digit u = true ->
  no_leading_digit h = true.
Proof.
  destruct u as [|c u]; simpl.
  - by intros [= <- <-].
  - destruct (Ascii.eqb c sep); [by intros [= <- <-]|].
    destruct (JS.split sep u); by intros [= <- <-].
Qed.

(** X4.  What follows the digits of a dimension is ignored: a unit or any
    other text after the height, that starts with no digit and holds no
    [@], leaves the viewport as it is without it. *)
Theorem parse_viewport_trailing_text (W Hh u : string) :
  all_digits W = true -> W <> EmptyString ->
  all_digits Hh = true -> Hh <> EmptyString ->
  no_leading_digit u = true -> has_char "@" u = false ->
  parse_viewport (W +:+ "x" +:+ Hh +:+ u)
  = {| width := Some (Dec false (JS.dec_value W) 0);
       height := Some (Dec false (JS.dec_value Hh) 0);
       deviceScaleFactor := one |}.
Proof.
  intros HW HWne HH HHne Hu Hat.
  rewrite parse_viewport_no_at.
  2:{ rewrite !has_char_append, Hat.
      by rewrite (all_digits_no_char W "@"), (all_digits_no_char Hh "@"). }
  change (W +:+ "x" +:+ Hh +:+ u) with (W +:+ String "x" (Hh +:+ u)).
  rewrite split_at_sep by (by apply all_digits_no_char).
  destruct (split_nonempty "x" u) as (h & t & Hsplit).
  rewrite (split_prefix "x" Hh u h t) by (by try apply all_digits_no_char).
  simpl. rewrite parseInt10_digits, parseInt10_digits_then; try done.
  by eapply split_head_no_digit.
Qed.

Lemma parse_viewport_trailing_text_witness :
  parse_viewport "1024x768px"
  = {| width := Some (Dec false 1024 0); height := Some (Dec false 768 0);
       deviceScaleFactor := one |}.
Proof.
  exact (parse_viewport_trailing_text "1024" "768" "px"
           eq_refl ltac:(discriminate) eq_refl ltac:(discriminate)
           eq_refl eq_refl).
Defined.

(** X5.  Only the first two dimensions and the first scale are read: a
    third [x]-separated part and a second [@]-separated part are dropped,
    whatever they hold. *)
Theorem parse_viewport_extra_parts (W Hh S extra more : string) :
  all_digits W = true -> W <> EmptyString ->
  all_digits Hh = true -> Hh <> EmptyString ->
  has_char "@" S = false -> has_char "@" extra = false ->
  parse_viewport (W +:+ "x" +:+ Hh +:+ "x" +:+ extra)
  = {| width := Some (Dec false (JS.dec_value W) 0);
       height := Some (Dec false (JS.dec_value Hh) 0);
       deviceScaleFactor := one |}
  /\ parse_viewport ((W +:+ "x" +:+ Hh) +:+ "@" +:+ S +:+ "@" +:+ more)
     = {| width := Some (Dec false (JS.dec_value W) 0);
          height := Some (Dec false (JS.dec_value Hh) 0);
          deviceScaleFactor := JS.parseFloat S |}.
Proof.
  intros HW HWne HH HHne HS Hextra. split.
  - rewrite parse_viewport_no_at.
    2:{ rewrite !has_char_append, Hextra.
        by rewrite (all_digits_no_char W "@"), (all_digits_no_char Hh "@"). }
    change (W +:+ "x" +:+ Hh +:+ "x" +:+ extra)
      with (W +:+ String "x" (Hh +:+ String "x" extra)).
    rewrite !split_at_sep by (by apply all_digits_no_char).
    destruct (split_nonempty "x" extra) as (h & t & ->).
    simpl. by rewrite !parseInt10_digits.
  - unfold parse_viewport.
    change ((W +:+ "x" +:+ Hh) +:+ "@" +:+ S +:+ "@" +:+ more)
      with ((W +:+ "x" +:+ Hh) +:+ String "@" (S +:+ String "@" more)).
    rewrite (split_at_sep "@" (W +:+ "x" +:+ Hh)) by (by apply size_has_no_at).
    rewrite (split_at_sep "@" S) by done.
    simpl hd. rewrite parse_viewport_size by done. reflexivity.
Qed.

Lemma parse_viewport_extra_parts_witness :
  parse_viewport "1024x768x32"
  = {| width := Some (Dec false 1024 0); height := Some (Dec false 768 0);
       deviceScaleFactor := one |}
  /\ parse_viewport "1024x768@2@x3"
     = {| width := Some (Dec false 1024 0); height := Some (Dec false 768 0);
          deviceScaleFactor := Dec false 2 0 |}.
Proof.
  exact (parse_viewport_extra_parts "1024" "768" "2" "32" "x3"
           eq_refl ltac:(discriminate) eq_refl ltac:(discriminate)
           eq_refl eq_refl).
Defined.

Lemma parseInt10_minus ds :
  all_digits ds = true -> ds <> EmptyString ->
  JS.parseInt10 (String "-" ds) = Dec true (JS.dec_value ds) 0.
Proof.
  intros Hds Hne. unfold JS.parseInt10. simpl.
  rewrite take_digits_only by done. by destruct ds.
Qed.

(** X6.  A sign is read as part of a dimension: a width or a height
    written with a leading [-] reaches the resize as a negative number,
    nothing in the parser requires a dimension to be positive. *)
Theorem parse_viewport_negative (W Hh : string) :
  all_digits W = true -> W <> EmptyString ->
  all_digits Hh = true -> Hh <> EmptyString ->
  parse_viewport ("-" +:+ W +:+ "x" +:+ "-" +:+ Hh)
  = {| width := Some (Dec true (JS.dec_value W) 0);
       height := Some (Dec true (JS.dec_value Hh) 0);
       deviceScaleFactor := one |}.
Proof.
  intros HW HWne HH HHne.
  assert (Hminus : forall ds c, (Ascii.eqb c "-" = false) ->
            JS.is_digit c = false -> all_digits ds = true ->
            has_char c (String "-" ds) = false).
  { intros ds c Hc Hd Hds.
    change (has_char c (String "-" ds)) with (Ascii.eqb "-" c || has_char c ds).
    rewrite Ascii.eqb_sym, Hc. by apply all_digits_no_char. }
  rewrite parse_viewport_no_at.
  2:{ change ("-" +:+ W +:+ "x" +:+ "-" +:+ Hh)
        with (String "-" W +:+ "x" +:+ String "-" Hh).
      rewrite !has_char_append. by rewrite !Hminus. }
  change ("-" +:+ W +:+ "x" +:+ "-" +:+ Hh)
    with (String "-" W +:+ String "x" (String "-" Hh)).
  rewrite split_at_sep by (by apply Hminus).
  rewrite split_no_sep by (by apply Hminus).
  simpl. by rewrite !parseInt10_minus.
Qed.

Lemma parse_viewport_negative_witness :
  parse_viewport "-1024x-768"
  = {| width := Some (Dec true 1024 0); height := Some (Dec true 768 0);
       deviceScaleFactor := one |}.
Proof.
  exact (parse_viewport_negative "1024" "768"
           eq_refl ltac:(discriminate) eq_refl ltac:(discriminate)).
Defined.

(** ** The [install] command (lines 167-190) *)

Lemma part_lookup parts i s : parts !! i = Some s -> Install.part parts i = s.
Proof. unfold Install.part. by intros ->. Qed.

(** X7.  For a version of three dot-separated components the release
    asked for is
    [.../download/v<version>/asketch2sketch-<major>-<minor>-<patch>.sketchplugin.zip];
    what follows a third dot is in the directory of the release but not
    in the name of the file. *)
Theorem releaseUrl_three_components (major minor patch extra : string) :
  has_char "." major = false -> has_char "." minor = false ->
  has_char "." patch = false ->
  Install.releaseUrl (major +:+ "." +:+ minor +:+ "." +:+ patch)
  = "http://github.com/brainly/html-sketchapp/releases/download/v"
    +:+ (major +:+ "." +:+ minor +:+ "." +:+ patch)
    +:+ "/asketch2sketch-" +:+ major +:+ "-" +:+ minor +:+ "-" +:+ patch
    +:+ ".sketchplugin.zip"
  /\ Install.releaseUrl (major +:+ "." +:+ minor +:+ "." +:+ patch +:+ "." +:+ extra)
     = "http://github.com/brainly/html-sketchapp/releases/download/v"
       +:+ (major +:+ "." +:+ minor +:+ "." +:+ patch +:+ "." +:+ extra)
       +:+ "/asketch2sketch-" +:+ major +:+ "-" +:+ minor +:+ "-" +:+ patch
       +:+ ".sketchplugin.zip".
Proof.
  intros Hmajor Hminor Hpatch. unfold Install.releaseUrl. split.
  - change (major +:+ "." +:+ minor +:+ "." +:+ patch)
      with (major +:+ String "." (minor +:+ String "." patch)).
    rewrite !split_at_sep, (split_no_sep "." patch) by done.
    reflexivity.
  - change (major +:+ "." +:+ minor +:+ "." +:+ patch +:+ "." +:+ extra)
      with (major +:+ String "." (minor +:+ String "." (patch +:+ String "." extra))).
    rewrite !split_at_sep by done.
    reflexivity.
Qed.

Lemma releaseUrl_three_components_witness :
  Install.releaseUrl "0.12.1"
  = "http://github.com/brainly/html-sketchapp/releases/download/v0.12.1/asketch2sketch-0-12-1.sketchplugin.zip"
  /\ Install.releaseUrl "1.0.0-beta.2"
     = "http://github.com/brainly/html-sketchapp/releases/download/v1.0.0-beta.2/asketch2sketch-1-0-0-beta.sketchplugin.zip".
Proof.
  split.
  - exact (proj1 (releaseUrl_three_components "0" "12" "1" EmptyString
                    eq_refl eq_refl eq_refl)).
  - exact (proj2 (releaseUrl_three_components "1" "0" "0-beta" "2"
                    eq_refl eq_refl eq_refl)).
Defined.

(** X8.  Nothing checks the shape of the version: with fewer than three
    components the missing ones are [undefined] in the name of the file. *)
Theorem releaseUrl_missing_components (major minor : string) :
  has_char "." major = false -> has_char "." minor = false ->
  Install.releaseUrl major
  = "http://github.com/brainly/html-sketchapp/releases/download/v" +:+ major
    +:+ "/asketch2sketch-" +:+ major +:+ "-undefined-undefined.sketchplugin.zip"
  /\ Install.releaseUrl (major +:+ "." +:+ minor)
     = "http://github.com/brainly/html-sketchapp/releases/download/v"
       +:+ (major +:+ "." +:+ minor)
       +:+ "/asketch2sketch-" +:+ major +:+ "-" +:+ minor
       +:+ "-undefined.sketchplugin.zip".
Proof.
  intros Hmajor Hminor. unfold Install.releaseUrl. split.
  - rewrite (split_no_sep "." major) by done. reflexivity.
  - change (major +:+ "." +:+ minor) with (major +:+ String "." minor).
    rewrite split_at_sep, (split_no_sep "." minor) by done. reflexivity.
Qed.

Lemma releaseUrl_missing_components_witness :
  Install.releaseUrl "2"
  = "http://github.com/brainly/html-sketchapp/releases/download/v2/asketch2sketch-2-undefined-undefined.sketchplugin.zip"
  /\ Install.releaseUrl "2.1"
     = "http://github.com/brainly/html-sketchapp/releases/download/v2.1/asketch2sketch-2-1-undefined.sketchplugin.zip".
Proof.
  exact (releaseUrl_missing_components "2" "1" eq_refl eq_refl).
Defined.

(** X9.  The command makes its steps in one fixed order and stops at the
    first that rejects: when the four awaited calls resolve, the steps are
    the whole script, the folder emptied and created anew before the
    download, the archive unpacked into that folder and the plugin opened
    from it last; when one rejects, the command rejects with that error,
    the rejected call is its last step, every call before it resolved, and
    the plugin is not opened. *)
Theorem install_steps `{Node} host version :
  match Install.install host version [] with
  | (Resolved _, steps) =>
      exists data,
        Install.axios host (Install.releaseUrl version) = Resolved data
        /\ steps = Install.script version data
  | (Rejected e, steps) =>
      exists pre last_step data,
        steps = pre ++ [last_step]
        /\ Install.failure_of last_step = Some e
        /\ Forall (fun s => Install.failure_of s = None) pre
        /\ pre `prefix_of` Install.script version data
        /\ (forall path, ~ (Install.Open path ∈ steps))
  end.
Proof.
  unfold Install.install, Install.script, mbind, Install.Cmd_bind,
    Install.wait_for, Install.emit. simpl.
  destruct (Install.rimrafAsync host Install.tmpDirPath) as [[]|e] eqn:Hrm; simpl.
  2:{ exists [Install.Print ("Detected html-sketchapp v" +:+ version)],
        (Install.Rimraf Install.tmpDirPath (Some e)), EmptyString.
      split; [done|]. split; [done|]. split; [by repeat constructor|].
      split; [by eexists|].
      intros path Hin. repeat (apply elem_of_cons in Hin as [Hin|Hin]; [done|]).
      by apply elem_of_nil in Hin. }
  destruct (Install.mkdirpAsync host Install.tmpDirPath) as [[]|e] eqn:Hmk; simpl.
  2:{ eexists [_; _], (Install.Mkdirp Install.tmpDirPath (Some e)), EmptyString.
      split; [done|]. split; [done|]. split; [by repeat constructor|].
      split; [by eexists|].
      intros path Hin. repeat (apply elem_of_cons in Hin as [Hin|Hin]; [done|]).
      by apply elem_of_nil in Hin. }
  destruct (Install.axios host (Install.releaseUrl version)) as [data|e] eqn:Hget;
    simpl.
  2:{ eexists [_; _; _; _], (Install.Get (Install.releaseUrl version) (Some e)),
        EmptyString.
      split; [done|]. split; [done|]. split; [by repeat constructor|].
      split; [by eexists|].
      intros path Hin. repeat (apply elem_of_cons in Hin as [Hin|Hin]; [done|]).
      by apply elem_of_nil in Hin. }
  destruct (Install.decompress host data Install.tmpDirPath) as [[]|e] eqn:Hun;
    simpl.
  2:{ eexists [_; _; _; _; _; _],
        (Install.Decompress data Install.tmpDirPath (Some e)), data.
      split; [done|]. split; [done|]. split; [by repeat constructor|].
      split; [by eexists|].
      intros path Hin. repeat (apply elem_of_cons in Hin as [Hin|Hin]; [done|]).
      by apply elem_of_nil in Hin. }
  by exists data.
Qed.


(** ** The run as a whole *)

Ltac same_answers :=
  repeat match goal with
         | H1 : ?a = Resolved _, H2 : ?a = Rejected _ |- _ => congruence
         | H1 : ?a = None, H2 : ?a = Some _ |- _ => congruence
         | H1 : ?a = Resolved ?x, H2 : ?a = Resolved ?y |- _ =>
             assert (x = y) by congruence; subst; clear H2
         | H1 : ?a = Rejected ?x, H2 : ?a = Rejected ?y |- _ =>
             assert (x = y) by congruence; subst; clear H2
         | H1 : ?a = Some ?x, H2 : ?a = Some ?y |- _ =>
             assert (x = y) by congruence; subst; clear H2
         | H1 : ?a = true, H2 : ?a = false |- _ => congruence
         end.

(** A rejection that has reached the runtime stays. *)
Lemma doom_at_earlier k ps : doom_at (S k) ps = None -> doom_at k ps = None.
Proof.
  unfold doom_at. destruct (first_rejection ps) as [p|]; [|done].
  destruct (Nat.leb_spec (instant p) (S k)), (Nat.leb_spec (instant p) k);
    try done; lia.
Qed.

Ltac earlier_doom :=
  repeat match goal with
         | H : doom_at (S ?k) ?ps = None |- _ =>
             lazymatch goal with
             | _ : doom_at k ps = None |- _ => fail
             | _ => pose proof (doom_at_earlier _ _ H)
             end
         end.

Section Determinism.

Context `{Node} (env : Env) (argv : Argv).

Lemma loop_trace_det k ps0 entries evs ps o : forall evs' ps' o',
  loop_trace env argv k ps0 entries evs ps o ->
  loop_trace env argv k ps0 entries evs' ps' o' ->
  evs = evs' /\ ps = ps' /\ o = o'.
Proof.
  intros evs' ps' o' Hl. revert evs' ps' o'.
  induction Hl as [|k ps0 n s rest e|k ps0 n s rest e|k ps0 n s rest doc e
                   |k ps0 n s rest doc evs ps o ? ? ? ? ? IH];
    intros evs' ps' o' Hl'; inversion Hl'; subst; same_answers; try done.
  match goal with
  | Hr : loop_trace _ _ _ _ rest _ _ _ |- _ => apply IH in Hr as (-> & -> & ->)
  end.
  done.
Qed.

Lemma loop_death_det k ps0 entries evs e : forall evs' e',
  loop_death env argv k ps0 entries evs e ->
  loop_death env argv k ps0 entries evs' e' ->
  evs = evs' /\ e = e'.
Proof.
  intros evs' e' Hl. revert evs' e'.
  induction Hl as [k ps0 n s rest e|k ps0 n s rest e|k ps0 n s rest doc e
                   |k ps0 n s rest doc evs e ? ? ? ? ? IH];
    intros evs' e' Hl'; inversion Hl'; subst; earlier_doom; same_answers;
    try done.
  match goal with
  | Hr : loop_death _ _ _ _ rest _ _ |- _ => apply IH in Hr as (-> & ->)
  end.
  done.
Qed.

(** The loop ends one way. *)
Lemma loop_trace_not_death k ps0 entries evs ps o evs' e :
  loop_trace env argv k ps0 entries evs ps o ->
  loop_death env argv k ps0 entries evs' e -> False.
Proof.
  intros Hl. revert evs' e.
  induction Hl as [|k ps0 n s rest e0|k ps0 n s rest e0|k ps0 n s rest doc e0
                   |k ps0 n s rest doc evs ps o ? ? ? ? ? IH];
    intros evs' e Hd; inversion Hd; subst; earlier_doom; same_answers.
  by eapply IH.
Qed.

Lemma page_trace_det port k pg o pg' o' :
  page_trace env argv port k pg o -> page_trace env argv port k pg' o' ->
  pg = pg' /\ o = o'.
Proof.
  intros Hp Hp'. inversion Hp; subst; inversion Hp'; subst; same_answers;
    try done;
    match goal with
    | Ha : loop_trace _ _ _ _ _ _ _ _, Hb : loop_trace _ _ _ _ _ _ _ _ |- _ =>
        destruct (loop_trace_det _ _ _ _ _ _ _ _ _ Ha Hb) as (? & ? & ?)
    end; subst; done.
Qed.

Lemma page_death_det port k pg e pg' e' :
  page_death env argv port k pg e -> page_death env argv port k pg' e' ->
  pg = pg' /\ e = e'.
Proof.
  intros Hp Hp'. inversion Hp; subst; inversion Hp'; subst.
  match goal with
  | Ha : loop_death _ _ _ _ _ _ _, Hb : loop_death _ _ _ _ _ _ _ |- _ =>
      destruct (loop_death_det _ _ _ _ _ _ _ Ha Hb) as (-> & ->)
  end.
  done.
Qed.

Lemma page_trace_not_death port k pg o pg' e :
  page_trace env argv port k pg o -> page_death env argv port k pg' e -> False.
Proof.
  intros Hp Hd. inversion Hd; subst. inversion Hp; subst; same_answers;
    by eapply loop_trace_not_death.
Qed.

Lemma browser_trace_det port k body o body' o' :
  browser_trace env argv port k body o -> browser_trace env argv port k body' o' ->
  body = body' /\ o = o'.
Proof.
  intros Hb Hb'. inversion Hb; subst; inversion Hb'; subst; same_answers;
    try done.
  match goal with
  | Ha : page_trace _ _ _ _ _ _, Hc : page_trace _ _ _ _ _ _ |- _ =>
      destruct (page_trace_det _ _ _ _ _ _ Ha Hc) as [-> ->]
  end.
  done.
Qed.

Lemma browser_death_det port k body e body' e' :
  browser_death env argv port k body e -> browser_death env argv port k body' e' ->
  body = body' /\ e = e'.
Proof.
  intros Hb Hb'. inversion Hb; subst; inversion Hb'; subst.
  match goal with
  | Ha : page_death _ _ _ _ _ _, Hc : page_death _ _ _ _ _ _ |- _ =>
      destruct (page_death_det _ _ _ _ _ _ Ha Hc) as [-> ->]
  end.
  done.
Qed.

Lemma browser_trace_not_death port k body o body' e :
  browser_trace env argv port k body o -> browser_death env argv port k body' e ->
  False.
Proof.
  intros Hb Hd. inversion Hd; subst. inversion Hb; subst; same_answers.
  by eapply page_trace_not_death.
Qed.

Lemma run_trace_det tr o tr' o' :
  run_trace env argv tr o -> run_trace env argv tr' o' -> tr = tr' /\ o = o'.
Proof.
  intros Hr Hr'. inversion Hr; subst; inversion Hr'; subst; same_answers;
    try done;
    try (exfalso; by eapply browser_trace_not_death);
    match goal with
    | Ha : browser_trace _ _ _ _ _ _, Hc : browser_trace _ _ _ _ _ _ |- _ =>
        destruct (browser_trace_det _ _ _ _ _ _ Ha Hc) as [-> ->]
    | Ha : browser_death _ _ _ _ _ _, Hc : browser_death _ _ _ _ _ _ |- _ =>
        destruct (browser_death_det _ _ _ _ _ _ Ha Hc) as [-> ->]
    end; done.
Qed.

End Determinism.

(** With the same answers from the collaborators, the history and the exit
    status are the same from any disk: the handler branches on no file. *)
Lemma history_ignores_disk `{Node} env argv fs ds fs' ds' :
  log (run env argv (fresh fs ds)) = log (run env argv (fresh fs' ds'))
  /\ exit_code (run env argv (fresh fs ds))
     = exit_code (run env argv (fresh fs' ds')).
Proof.
  destruct (run_fresh env argv fs ds) as (tr & o & Ht & -> & _ & _ & ->).
  destruct (run_fresh env argv fs' ds') as (tr' & o' & Ht' & -> & _ & _ & ->).
  by destruct (run_trace_det env argv _ _ _ _ Ht Ht') as [-> ->].
Qed.

(** A run either stops ahead of the loop, on the stage that failed, or
    goes through the loop and ends as the loop and the joint wait do, or
    is ended by the runtime in the loop. *)
Lemma run_trace_cases `{Node} env argv tr o :
  run_trace env argv tr o ->
  (~ before_loop_ok env argv /\ o <> None
   /\ Forall (fun e => setting_up e \/ winding e \/ dying e) tr)
  \/ (before_loop_ok env argv
      /\ exists pre evs ps ol closes,
           loop_trace env argv (loop_start argv) [] (viewport_entries argv) evs ps ol
           /\ tr = pre ++ evs ++ join_events ps ol ++ closes ++ report_events o
           /\ Forall setting_up pre
           /\ Forall is_close closes
           /\ o = loop_outcome ol ps)
  \/ (before_loop_ok env argv
      /\ exists pre evs e,
           loop_death env argv (loop_start argv) [] (viewport_entries argv) evs e
           /\ tr = pre ++ evs
           /\ Forall setting_up pre
           /\ o = Some e).
Proof.
  intros Ht. unfold before_loop_ok, assigned_port, loop_start.
  exit_paths;
    repeat match goal with
           | Hs : JS.truthy (serve argv) = _ |- _ => rewrite Hs
           | Hp : getPort env = _ |- _ => rewrite Hp
           end.
  all: try (left; split;
            [intros (Hsrv & Hla & Hnp & Hgo & Hadd);
             try (destruct Hsrv as (p' & Hp' & Hl'); [done|]); congruence
            |split; [done|];
             unfold_segments; destruct (debug argv); simpl; forall_events]).
  all: pose proof (browser_close_events_close argv) as [Hbc _].
  all: pose proof (page_ready_setting_up argv) as Hready.
  - right. left. split; [repeat split; eauto; congruence|].
    exists (Await CGetPort None :: Await (CListen (served_dir argv) (Some p)) None
            :: Await (CLaunch (launchArgs argv)) None :: page_ready argv (Some p)),
      evs, ps, (Some e), (browser_close_events argv ++ [Fire CServerClose]).
    split; [done|]. split; [simpl; by rewrite <- !app_assoc|].
    split; [do 3 (apply Forall_cons_2; [done|]); apply (proj1 (Hready _))|].
    split; [apply Forall_app_2; [done|forall_events]|done].
  - right. left. split; [repeat split; eauto; congruence|].
    exists (Await CGetPort None :: Await (CListen (served_dir argv) (Some p)) None
            :: Await (CLaunch (launchArgs argv)) None :: page_ready argv (Some p)),
      evs, ps, None, (browser_close_events argv ++ [Fire CServerClose]).
    split; [done|]. split; [simpl; by rewrite <- !app_assoc|].
    split; [do 3 (apply Forall_cons_2; [done|]); apply (proj1 (Hready _))|].
    split; [apply Forall_app_2; [done|forall_events]|done].
  - right. right. split; [repeat split; eauto; congruence|].
    exists (Await CGetPort None :: Await (CListen (served_dir argv) (Some p)) None
            :: Await (CLaunch (launchArgs argv)) None :: page_ready argv (Some p)),
      evs, e.
    split; [done|]. split; [done|].
    split; [do 3 (apply Forall_cons_2; [done|]); apply (proj1 (Hready _))|done].
  - right. left. split; [repeat split; eauto; congruence|].
    exists (Await (CLaunch (launchArgs argv)) None :: page_ready argv None),
      evs, ps, (Some e), (browser_close_events argv).
    split; [done|]. split; [simpl; by rewrite <- !app_assoc|].
    split; [apply Forall_cons_2; [done|]; apply (proj1 (Hready _))|done].
  - right. left. split; [repeat split; eauto; congruence|].
    exists (Await (CLaunch (launchArgs argv)) None :: page_ready argv None),
      evs, ps, None, (browser_close_events argv).
    split; [done|]. split; [simpl; by rewrite <- !app_assoc|].
    split; [apply Forall_cons_2; [done|]; apply (proj1 (Hready _))|done].
  - right. right. split; [repeat split; eauto; congruence|].
    exists (Await (CLaunch (launchArgs argv)) None :: page_ready argv None),
      evs, e.
    split; [done|]. split; [done|].
    split; [apply Forall_cons_2; [done|]; apply (proj1 (Hready _))|done].
Qed.

(** *** Which rejection the joint wait reports *)

Lemma sooner_spec p q :
  sooner p q = true
  <-> (instant p < instant q \/ (instant p = instant q /\ rank p <= rank q))%nat.
Proof.
  unfold sooner.
  rewrite orb_true_iff, andb_true_iff, Nat.ltb_lt, Nat.eqb_eq, Nat.leb_le.
  done.
Qed.

Lemma first_rejection_none ps :
  first_rejection ps = None -> Forall (fun p => outcome p = Resolved tt) ps.
Proof.
  induction ps as [|p ps IH]; intros Hp; [done|].
  simpl in Hp. destruct (outcome p) as [[]|e] eqn:Ho.
  - by apply Forall_cons_2; [|apply IH].
  - destruct (first_rejection ps) as [q|]; [by destruct (sooner p q)|done].
Qed.

(** The rejection [first_rejection] picks is no later than any other. *)
Lemma first_rejection_least ps p :
  first_rejection ps = Some p ->
  forall q, q ∈ ps -> (exists e, outcome q = Rejected e) -> sooner p q = true.
Proof.
  revert p. induction ps as [|a ps IH]; intros p Hp q Hq [e He]; [done|].
  simpl in Hp. destruct (outcome a) as [[]|ea] eqn:Ha.
  - apply elem_of_cons in Hq as [->|Hq]; [congruence|].
    apply (IH p Hp q Hq). by exists e.
  - destruct (first_rejection ps) as [r|] eqn:Hr.
    + destruct (sooner a r) eqn:Har; injection Hp as <-.
      * apply elem_of_cons in Hq as [->|Hq]; [apply sooner_spec; lia|].
        assert (Hrq : sooner r q = true) by (apply (IH r eq_refl q Hq); by exists e).
        apply sooner_spec in Har, Hrq. apply sooner_spec. lia.
      * apply elem_of_cons in Hq as [->|Hq].
        -- apply sooner_spec.
           assert (Hn : ~ (instant a < instant r
                           \/ (instant a = instant r /\ rank a <= rank r))%nat).
           { rewrite <- sooner_spec. by rewrite Har. }
           lia.
        -- apply (IH r eq_refl q Hq). by exists e.
    + injection Hp as <-.
      apply elem_of_cons in Hq as [->|Hq]; [apply sooner_spec; lia|].
      apply first_rejection_none in Hr. rewrite Forall_forall in Hr.
      apply Hr in Hq. congruence.
Qed.

Lemma all_settled_cons p ps :
  all_settled (p :: ps) = Resolved tt
  <-> outcome p = Resolved tt /\ all_settled ps = Resolved tt.
Proof.
  unfold all_settled. simpl.
  destruct (outcome p) as [[]|e] eqn:Ho.
  - tauto.
  - destruct (first_rejection ps) as [q|] eqn:Hq.
    + destruct (first_rejection_in _ _ Hq) as [_ [eq Heq]].
      destruct (sooner p q); rewrite ?Ho, ?Heq; split; try done;
        intros [? ?]; done.
    + rewrite Ho. split; [done|]. by intros [? _].
Qed.

(** What the joint wait rejects with is the rejection of one of the
    promises, and no other rejection comes sooner. *)
Lemma all_settled_first ps e :
  all_settled ps = Rejected e ->
  exists p,
    p ∈ ps /\ outcome p = Rejected e
    /\ forall q, q ∈ ps -> (exists e', outcome q = Rejected e') -> sooner p q = true.
Proof.
  unfold all_settled. destruct (first_rejection ps) as [p|] eqn:Hp; [|done].
  intros Ho. exists p. destruct (first_rejection_in _ _ Hp) as [Hin _].
  split; [done|]. split; [done|]. by apply first_rejection_least.
Qed.

Section LoopOutcome.

Context `{Node} (env : Env) (argv : Argv).

Lemma loop_trace_success k ps0 entries evs ps o :
  loop_trace env argv k ps0 entries evs ps o ->
  (o = None /\ all_settled ps = Resolved tt)
  <-> Forall (entry_ok env argv) entries.
Proof.
  induction 1 as [|k ps0 n s rest e ? Hsv|k ps0 n s rest e ? Hsv Hev
                  |k ps0 n s rest doc e ? Hsv Hev Hmk
                  |k ps0 n s rest doc evs ps o ? Hsv Hev Hmk Hl IH].
  - split; [by constructor|done].
  - split; [by intros [? _]|].
    intros [((Hsv' & _) & _) _]%Forall_cons. simpl in Hsv'. congruence.
  - split; [by intros [? _]|].
    intros [((_ & (doc & Hev') & _) & _) _]%Forall_cons. simpl in Hev'. congruence.
  - split; [by intros [? _]|].
    intros [((_ & _ & Hmk') & _) _]%Forall_cons. simpl in Hmk'. congruence.
  - split.
    + intros [Ho [Hw Hps]%all_settled_cons]. apply Forall_cons_2.
      * split; [by repeat split; eauto|].
        unfold write_result, doc_of. simpl. by rewrite Hev.
      * by apply IH.
    + intros [[_ Hw] Hrest]%Forall_cons. apply IH in Hrest as [-> Hps].
      split; [done|]. apply all_settled_cons. split; [|done].
      unfold write_result, doc_of in Hw. simpl in Hw.
      by rewrite Hev in Hw.
Qed.

Lemma loop_trace_complete k ps0 entries evs ps o :
  loop_trace env argv k ps0 entries evs ps o ->
  Forall (capture_ok env argv) entries ->
  o = None
  /\ ps = loop_promises env argv k entries
  /\ evs = flat_map (full_iteration env argv) entries.
Proof.
  induction 1 as [|k ps0 n s rest e ? Hsv|k ps0 n s rest e ? Hsv Hev
                  |k ps0 n s rest doc e ? Hsv Hev Hmk
                  |k ps0 n s rest doc evs ps o ? Hsv Hev Hmk Hl IH].
  - done.
  - intros [(Hsv' & _) _]%Forall_cons. simpl in Hsv'. congruence.
  - intros [(_ & (doc & Hev') & _) _]%Forall_cons. simpl in Hev'. congruence.
  - intros [(_ & _ & Hmk') _]%Forall_cons. simpl in Hmk'. congruence.
  - intros [_ Hrest]%Forall_cons. destruct (IH Hrest) as (-> & -> & ->).
    split; [done|]. simpl. unfold full_iteration, doc_of. simpl.
    by rewrite Hev.
Qed.

(** The runtime ends the process in the loop only on a write that is
    rejected. *)
Lemma loop_death_rejected k ps0 entries evs e :
  loop_death env argv k ps0 entries evs e ->
  Forall (fun p => outcome p = Resolved tt) ps0 ->
  ~ Forall (entry_ok env argv) entries.
Proof.
  assert (Hbase : forall k ps0 e,
    doom_at k ps0 = Some e -> Forall (fun p => outcome p = Resolved tt) ps0 -> False).
  { intros k' ps e' Hd Hps. destruct (doom_at_cause _ _ _ Hd) as (p & Hp & Ho).
    rewrite Forall_forall in Hps. apply Hps in Hp. congruence. }
  induction 1 as [k ps0 n s rest e Hd|k ps0 n s rest e Hd0 Hs Hd
                  |k ps0 n s rest doc e Hd0 Hs Hev Hd
                  |k ps0 n s rest doc evs e Hd0 Hs Hev Hm Hl IH];
    intros Hps Hall; try (by eapply Hbase).
  apply Forall_cons in Hall as [[_ Hw] Hrest].
  apply IH; [|done]. apply Forall_app_2; [done|].
  apply Forall_cons_2; [|done].
  unfold write_result, doc_of in Hw. simpl in Hw. by rewrite Hev in Hw.
Qed.

Lemma captures_full entries :
  captures (flat_map (full_iteration env argv) entries) = schedule entries.
Proof.
  induction entries as [|[n s] rest IH]; [done|].
  change (flat_map (full_iteration env argv) ((n, s) :: rest))
    with (full_iteration env argv (n, s)
          ++ flat_map (full_iteration env argv) rest).
  unfold captures in *. by rewrite omap_app, IH.
Qed.

Lemma captures_app l1 l2 : captures (l1 ++ l2) = captures l1 ++ captures l2.
Proof. unfold captures. apply omap_app. Qed.

Lemma write_entries_covered entries p :
  Exists (fun entry => outputPagePath argv entry.2 = p) entries ->
  forall fs fs',
    fold_left (write_entry env argv) entries fs !! p
    = fold_left (write_entry env argv) entries fs' !! p.
Proof.
  induction entries as [|entry rest IH]; intros Hex fs fs'.
  - by apply Exists_nil in Hex.
  - simpl.
    destruct (decide (Exists (fun later => outputPagePath argv later.2 = p) rest))
      as [Hrest|Hrest]; [by apply IH|].
    apply not_Exists_Forall in Hrest; [|apply _].
    apply Exists_cons in Hex as [Hhere|Hex].
    2:{ apply Exists_exists in Hex as (later & Hin & Hlater).
        rewrite Forall_forall in Hrest. exfalso. exact (Hrest later Hin Hlater). }
    rewrite !write_entries_other by exact Hrest.
    unfold write_entry. rewrite Hhere. by rewrite !lookup_insert_eq.
Qed.

Lemma write_entries_twice entries fs :
  fold_left (write_entry env argv) entries
    (fold_left (write_entry env argv) entries fs)
  = fold_left (write_entry env argv) entries fs.
Proof.
  apply map_eq. intros p.
  destruct (decide (Exists (fun entry => outputPagePath argv entry.2 = p) entries))
    as [Hex|Hex].
  - by apply write_entries_covered.
  - apply not_Exists_Forall in Hex; [|apply _].
    apply write_entries_other. exact Hex.
Qed.

End LoopOutcome.

(** X10.  The run ends with the status [0] exactly when every stage ahead
    of the loop resolves and, for every entry of the viewports, the resize,
    the extraction, the creation of the output directory and the write all
    resolve. *)
Theorem run_succeeds_iff `{Node} env argv fs ds :
  exit_code (run env argv (fresh fs ds)) = 0
  <-> before_loop_ok env argv
      /\ Forall (entry_ok env argv) (viewport_entries argv).
Proof.
  destruct (run_fresh env argv fs ds) as (tr & o & Ht & _ & _ & _ & ->).
  destruct (run_trace_cases _ _ _ _ Ht)
    as [(Hno & Ho & _)
       |[(Hok & pre & evs & ps & ol & closes & Hl & _ & _ & _ & ->)
        |(Hok & pre & evs & e & Hl & _ & _ & ->)]].
  - destruct o; [|done]. split; [discriminate|]. by intros [? _].
  - pose proof (loop_trace_success _ _ _ _ _ _ _ _ Hl) as Hiff.
    unfold loop_outcome. split.
    + intros Hexit. split; [done|]. apply Hiff.
      destruct ol; [discriminate|].
      by destruct (all_settled ps) as [[]|].
    + intros [_ Hall]. by apply Hiff in Hall as [-> ->].
  - split; [discriminate|]. intros [_ Hall]. exfalso.
    by eapply (loop_death_rejected _ _ _ _ _ _ _ Hl).
Qed.

(** X11.  Where the rejection of a write surfaces, when every stage ahead
    of the loop and every awaited call of the loop resolve.  Unless the
    runtime ends the process, each entry goes through its whole pass
    (resize, extraction, directory, write issued), the joint wait follows
    the last pass, and the run ends as the joint wait does: with the
    status [0] when no write is rejected, otherwise with the rejection that
    comes first in time among the writes (not the first in the order of
    the entries), reported with the status [1].  When the runtime ends the
    process, it is on the rejection of the write of one of the entries,
    and the joint wait is never made. *)
Theorem write_rejections `{Node} env argv fs ds :
  before_loop_ok env argv ->
  Forall (capture_ok env argv) (viewport_entries argv) ->
  ((forall e, ~ (Abort e ∈ log (run env argv (fresh fs ds)))) ->
   exists pre closes,
     log (run env argv (fresh fs ds))
     = pre ++ flat_map (full_iteration env argv) (viewport_entries argv)
       ++ [Await CPromiseAll
             (rejection (all_settled (loop_promises env argv (loop_start argv)
                                        (viewport_entries argv))))]
       ++ closes
       ++ report_events
            (rejection (all_settled (loop_promises env argv (loop_start argv)
                                       (viewport_entries argv))))
     /\ Forall setting_up pre
     /\ Forall is_close closes
     /\ captures (log (run env argv (fresh fs ds)))
        = schedule (viewport_entries argv)
     /\ exit_code (run env argv (fresh fs ds))
        = match all_settled (loop_promises env argv (loop_start argv)
                               (viewport_entries argv))
          with Resolved _ => 0 | Rejected _ => 1 end)
  /\ (forall e,
        all_settled (loop_promises env argv (loop_start argv) (viewport_entries argv))
        = Rejected e ->
        exists p,
          p ∈ loop_promises env argv (loop_start argv) (viewport_entries argv)
          /\ outcome p = Rejected e
          /\ forall q,
               q ∈ loop_promises env argv (loop_start argv) (viewport_entries argv) ->
               (exists e', outcome q = Rejected e') ->
               sooner p q = true)
  /\ (forall e,
        Abort e ∈ log (run env argv (fresh fs ds)) ->
        (exists entry,
           entry ∈ viewport_entries argv
           /\ write_result env argv entry = Rejected e)
        /\ forall f, ~ (Await CPromiseAll f ∈ log (run env argv (fresh fs ds)))).
Proof.
  intros Hok Hcap. split; [|split].
  - intros Hno.
    destruct (run_fresh env argv fs ds) as (tr & o & Ht & Hlog & _ & _ & Hx).
    rewrite Hlog in *. rewrite Hx. clear Hlog Hx.
    destruct (run_trace_cases _ _ _ _ Ht)
      as [(Hnok & _)
         |[(_ & pre & evs & ps & ol & closes & Hl & -> & Hpre & Hcl & ->)
          |(_ & pre & evs & e & Hl & -> & _)]];
      [done| |].
    2:{ exfalso. destruct (loop_death_shape _ _ _ _ _ _ _ Hl) as (l0 & -> & _).
        apply (Hno e). apply elem_of_app. right. apply elem_of_app. right. left. }
    destruct (loop_trace_complete _ _ _ _ _ _ _ _ Hl Hcap) as (-> & -> & ->).
    exists pre, closes. split; [done|]. split; [done|]. split; [done|].
    split; [|unfold loop_outcome; by destruct (all_settled _)].
    rewrite !captures_app, captures_full.
    rewrite (captures_outside_loop pre)
      by (eapply Forall_impl; [exact Hpre|]; simpl; tauto).
    rewrite (captures_outside_loop (join_events _ _))
      by (eapply Forall_impl; [apply join_events_join|]; simpl; tauto).
    rewrite (captures_outside_loop closes)
      by (eapply Forall_impl; [exact Hcl|]; intros [[] ?|[]|?]; simpl; tauto).
    rewrite (captures_outside_loop (report_events _))
      by (eapply Forall_impl; [apply report_events_winding|]; simpl; tauto).
    simpl. by rewrite app_nil_r.
  - intros e. apply all_settled_first.
  - intros e Hin.
    destruct (run_abort env argv fs ds e Hin) as (pre & Heq & Hu & _ & Hc).
    split.
    + destruct Hc as [(Hs & p & Hp & Hl)|(name & path & content & Hw & Hr)].
      * destruct Hok as [Hsrv _]. destruct (Hsrv Hs) as (p' & Hp' & Hl').
        congruence.
      * destruct (run_loop_events env argv fs ds _ Hw I) as (evs & Hl & Hev).
        destruct (loop_events_written _ _ _ _ _ _ _ Hl Hev)
          as (viewport & Hentry & -> & Hdoc).
        exists (name, viewport). split; [done|].
        unfold write_result, doc_of. simpl. by rewrite Hdoc.
    + intros f Hj. rewrite Heq in Hj. apply elem_of_app in Hj as [Hj|Hj].
      * rewrite Forall_forall in Hu. apply Hu in Hj as [[Hj|Hj] _]; done.
      * apply list_elem_of_singleton in Hj. discriminate.
Qed.

Lemma write_rejections_witness :
  (exists pre closes,
     log (run (write_fails "Mobile" (fun n => n)) two_viewports (fresh ∅ ∅))
     = pre ++ flat_map (full_iteration (write_fails "Mobile" (fun n => n))
                          two_viewports) (viewport_entries two_viewports)
       ++ [Await CPromiseAll (Some "ENOSPC: no space left on device")]
       ++ closes
       ++ report_events (Some "ENOSPC: no space left on device")
     /\ Forall setting_up pre
     /\ Forall is_close closes
     /\ captures (log (run (write_fails "Mobile" (fun n => n)) two_viewports
                         (fresh ∅ ∅)))
        = schedule (viewport_entries two_viewports)
     /\ exit_code (run (write_fails "Mobile" (fun n => n)) two_viewports
                     (fresh ∅ ∅)) = 1)
  /\ (exists p,
        p ∈ loop_promises (write_fails "Mobile" (fun n => n)) two_viewports
              (loop_start two_viewports) (viewport_entries two_viewports)
        /\ outcome p = Rejected "ENOSPC: no space left on device"
        /\ forall q,
             q ∈ loop_promises (write_fails "Mobile" (fun n => n)) two_viewports
                   (loop_start two_viewports) (viewport_entries two_viewports) ->
             (exists e', outcome q = Rejected e') ->
             sooner p q = true)
  /\ ((exists entry,
         entry ∈ viewport_entries two_viewports
         /\ write_result (write_fails "Desktop" (fun n => n)) two_viewports entry
            = Rejected "ENOSPC: no space left on device")
      /\ forall f,
           ~ (Await CPromiseAll f
                ∈ log (run (write_fails "Desktop" (fun n => n)) two_viewports
                         (fresh ∅ ∅)))).
Proof.
  assert (Hcap : forall bad,
    Forall (capture_ok (write_fails bad (fun n => n)) two_viewports)
      (viewport_entries two_viewports)).
  { intros bad. repeat apply Forall_cons_2; try apply Forall_nil_2;
      (split; [reflexivity|split; [by eexists|reflexivity]]). }
  split; [|split].
  - apply (proj1 (write_rejections (write_fails "Mobile" (fun n => n))
                    two_viewports ∅ ∅ ltac:(by repeat split) (Hcap _))).
    intros e Hc. vm_compute log in Hc. split_membership; discriminate.
  - exact (proj1 (proj2 (write_rejections (write_fails "Mobile" (fun n => n))
                    two_viewports ∅ ∅ ltac:(by repeat split) (Hcap _)))
             "ENOSPC: no space left on device" eq_refl).
  - apply (proj2 (proj2 (write_rejections (write_fails "Desktop" (fun n => n))
                           two_viewports ∅ ∅ ltac:(by repeat split) (Hcap _)))).
    vm_compute log. set_solver.
Defined.

(** X12.  With the same answers from the collaborators, running the
    command again after a run that ended with the status [0] ends with the
    status [0] again and leaves every file as the first run left it: each
    write replaces the file of its spec string by the same document. *)
Theorem rerun_leaves_files `{Node} env argv fs ds ds' :
  exit_code (run env argv (fresh fs ds)) = 0 ->
  exit_code (run env argv (fresh (files (run env argv (fresh fs ds))) ds')) = 0
  /\ files (run env argv (fresh (files (run env argv (fresh fs ds))) ds'))
     = files (run env argv (fresh fs ds)).
Proof.
  intros Hexit.
  assert (Hagain :
    exit_code (run env argv (fresh (files (run env argv (fresh fs ds))) ds')) = 0).
  { by rewrite <- (proj2 (history_ignores_disk env argv fs ds _ ds')). }
  split; [done|].
  destruct (run_success_files env argv _ ds' Hagain) as [-> _].
  destruct (run_success_files env argv fs ds Hexit) as [-> _].
  apply write_entries_twice.
Qed.

Lemma rerun_leaves_files_witness :
  exit_code
    (run (all_ok 3000 (fun n => "document of " +:+ n)) two_viewports
       (fresh (files (run (all_ok 3000 (fun n => "document of " +:+ n))
                        two_viewports (fresh ∅ ∅))) ∅)) = 0
  /\ files
       (run (all_ok 3000 (fun n => "document of " +:+ n)) two_viewports
          (fresh (files (run (all_ok 3000 (fun n => "document of " +:+ n))
                           two_viewports (fresh ∅ ∅))) ∅))
     = files (run (all_ok 3000 (fun n => "document of " +:+ n)) two_viewports
                (fresh ∅ ∅)).
Proof.
  apply (rerun_leaves_files (all_ok 3000 (fun n => "document of " +:+ n))
           two_viewports ∅ ∅ ∅).
  reflexivity.
Defined.


(** ** The output directory and the files left alone *)

Section LoopDirectories.

Context `{Node} (env : Env) (argv : Argv).

Lemma loop_events_mkdirp entries evs name path f :
  loop_events env argv entries evs ->
  Await (CMkdirp name path) f ∈ evs -> path = outputPath argv.
Proof.
  induction 1 as [|entries e|n s rest e|n s rest e|n s rest e|n s rest e
                  |n s rest e|n s rest doc evs Hev Hl IH];
    intros Hin;
    try (unfold iteration in Hin; simpl in Hin);
    repeat (apply elem_of_cons in Hin as [Hin|Hin]; try discriminate Hin);
    try (by apply elem_of_nil in Hin);
    try (by injection Hin as -> -> _).
  by apply IH.
Qed.

Lemma loop_events_mkdirp_first entries evs name :
  loop_events env argv entries evs ->
  precedes (dir_made name) (writing name) evs.
Proof.
  induction 1 as [|entries e|n s rest e|n s rest e|n s rest e|n s rest e
                  |n s rest e|n s rest doc evs Hev Hl IH];
    try (apply precedes_none; forall_events; fail).
  unfold iteration. simpl. apply precedes_cons_other; [simpl; tauto|].
  apply precedes_cons_other; [simpl; tauto|].
  destruct (decide (n = name)) as [->|Hne].
  - apply precedes_cons_done; simpl; [done|tauto].
  - apply precedes_cons_other; [simpl; tauto|].
    apply precedes_cons_other; [simpl; tauto|]. done.
Qed.

End LoopDirectories.

Lemma made_dirs_one_path op l : forall ds,
  (forall name path, Await (CMkdirp name path) None ∈ l -> path = op) ->
  made_dirs l ds
  = if existsb is_mkdirp_ok l then list_to_set (ancestors op) ∪ ds else ds.
Proof.
  unfold made_dirs. induction l as [|e l IH]; intros ds Hop; [done|].
  simpl. rewrite IH by (intros name path Hin; apply (Hop name path); by right).
  destruct e as [[] [?|]|[]|?]; simpl; try done.
  rewrite (Hop name path) by (by left).
  destruct (existsb is_mkdirp_ok l); [|done].
  by rewrite (assoc_L (∪)), (idemp_L (∪)).
Qed.





(** X15.  When [--viewports] is absent the one entry of line 127 stands
    in: the only resize is the one of [Desktop] to 1024 by 768 at scale 1,
    and a run that ends with the status [0] has written the page's
    document to [page-1024x768.asketch.json] in the output directory, and
    nothing else. *)
Theorem default_viewport `{Node} env argv fs ds :
  viewports argv = None ->
  (forall name v f,
      Await (CSetViewport name v) f ∈ log (run env argv (fresh fs ds)) ->
      name = "Desktop" /\ v = desktop)
  /\ (exit_code (run env argv (fresh fs ds)) = 0 ->
      exists doc,
        evaluate env "Desktop" desktop = Resolved doc
        /\ files (run env argv (fresh fs ds))
           = <[path_join (path_resolve cwd (outDir argv))
                 "page-1024x768.asketch.json" := doc]> fs).
Proof.
  intros Hv.
  assert (Hentries : viewport_entries argv = [("Desktop", "1024x768")])
    by (unfold viewport_entries; by rewrite Hv).
  split.
  - intros name v f Hin.
    destruct (run_loop_events env argv fs ds _ Hin) as (evs & Hl & Hevs);
      [done|].
    destruct (loop_events_resized _ _ _ _ _ _ _ Hl Hevs) as (viewport & Hentry & ->).
    rewrite Hentries in Hentry.
    apply list_elem_of_singleton in Hentry. by injection Hentry as -> ->.
  - intros Hexit.
    destruct (run_success_files env argv fs ds Hexit) as [-> Hdocs].
    rewrite Hentries in *. exists (doc_of env "Desktop" "1024x768").
    split; [apply (Hdocs "Desktop" "1024x768"); by left|done].
Qed.

Lemma default_viewport_witness :
  (forall name v f,
      Await (CSetViewport name v) f
        ∈ log (run (all_ok 3000 (fun n => "document of " +:+ n)) default_run
                 (fresh ∅ ∅)) ->
      name = "Desktop" /\ v = desktop)
  /\ exists doc,
       evaluate (all_ok 3000 (fun n => "document of " +:+ n)) "Desktop" desktop
       = Resolved doc
       /\ files (run (all_ok 3000 (fun n => "document of " +:+ n)) default_run
                   (fresh ∅ ∅))
          = <[path_join (path_resolve cwd (outDir default_run))
                "page-1024x768.asketch.json" := doc]> ∅.
Proof.
  destruct (default_viewport (all_ok 3000 (fun n => "document of " +:+ n))
              default_run ∅ ∅ eq_refl) as [Hresize Hfiles].
  split; [exact Hresize|]. exact (Hfiles eq_refl).
Defined.


(** ** Calls made once, and the calls of the server and of the debug mode *)

Lemma on_page_not_on_server e : on_page e -> ~ on_server e.
Proof. destruct e as [[] ?|[]|?]; simpl; tauto. Qed.

(** X16.  The server exists only for [--serve]: with the option absent or
    empty the handler asks for no port, starts no server and closes none;
    with it, asking for a free port is the first thing it does, and the
    server it starts serves the directory of the option on the port it was
    given. *)
Theorem server_only_when_serving `{Node} env argv fs ds :
  (JS.truthy (serve argv) = false ->
   Forall (fun e => ~ on_server e) (log (run env argv (fresh fs ds))))
  /\ (JS.truthy (serve argv) = true ->
      exists f rest, log (run env argv (fresh fs ds)) = Await CGetPort f :: rest)
  /\ (forall dir port f,
        Await (CListen dir port) f ∈ log (run env argv (fresh fs ds)) ->
        serve argv = Some dir
        /\ exists p, port = Some p /\ getPort env = Resolved p).
Proof.
  destruct (run_fresh env argv fs ds) as (tr & o & Ht & -> & _).
  assert (Hbc : Forall (fun e => ~ on_server e) (browser_close_events argv)).
  { unfold browser_close_events. destruct (debug argv); forall_events. }
  assert (Hrep : forall o', Forall (fun e => ~ on_server e) (report_events o')).
  { intros [?|]; forall_events. }
  assert (Hdir : JS.truthy (serve argv) = true -> serve argv = Some (served_dir argv)).
  { unfold served_dir. by destruct (serve argv). }
  split; [|split].
  - intros Hserve. outer_paths; try congruence.
    + forall_events.
    + page_events Hpg. apply Forall_cons_2; [simpl; tauto|].
      repeat apply Forall_app_2; try done.
      apply Forall_forall. intros e He. by apply on_page_not_on_server, Hpg.
    + page_events Hpg. apply Forall_cons_2; [simpl; tauto|].
      apply Forall_app_2; [|forall_events].
      apply Forall_forall. intros e' He. by apply on_page_not_on_server, Hpg.
  - intros Hserve. outer_paths; try congruence; by eauto.
  - intros dir port f Hin.
    outer_paths; try page_events Hpg; unfold_segments; simpl in Hin;
      split_membership; subst;
      try match goal with
          | Hin : Await (CListen _ _) _ ∈ _ |- _ => by apply Hpg in Hin
          end;
      try discriminate;
      match goal with
      | Heq : Await (CListen _ _) _ = Await (CListen _ _) _ |- _ =>
          injection Heq as -> -> ->
      end;
      (split; [by apply Hdir|by eauto]).
Qed.

Lemma server_only_when_serving_witness :
  Forall (fun e => ~ on_server e)
    (log (run (all_ok 3000 (fun n => n)) two_viewports (fresh ∅ ∅)))
  /\ exists f rest,
       log (run (all_ok 3000 (fun n => n)) served_two_viewports (fresh ∅ ∅))
       = Await CGetPort f :: rest.
Proof.
  split.
  - exact (proj1 (server_only_when_serving (all_ok 3000 (fun n => n))
                    two_viewports ∅ ∅) eq_refl).
  - exact (proj1 (proj2 (server_only_when_serving (all_ok 3000 (fun n => n))
                           served_two_viewports ∅ ∅)) eq_refl).
Defined.

Lemma stage_of_in_loop evs :
  Forall (fun e => in_loop e \/ dying e) evs -> omap stage_of evs = [].
Proof.
  induction 1 as [|e l He _ IH]; [done|].
  destruct e as [[] ?|[]|?]; simpl in *; try tauto; exact IH.
Qed.

(** X17.  Outside the capture loop every call is made once at most in a
    run: one request for a port, one server, one launch, one page, one
    navigation, one injection, one joint wait, one close of the browser,
    one close of the server, one report and one exit. *)
Theorem calls_made_once `{Node} env argv fs ds :
  NoDup (omap stage_of (log (run env argv (fresh fs ds)))).
Proof.
  destruct (run_fresh env argv fs ds) as (tr & o & Ht & -> & _).
  exit_paths; loop_histories;
    try match goal with
        | Hl : loop_events _ _ _ _ |- _ =>
            pose proof (stage_of_in_loop _ (loop_events_kinds _ _ _ _ Hl))
              as Hstage;
            pose proof Hstage as Hstage'; unfold omap in Hstage'
        end;
    try match goal with
        | |- context [all_settled ?ps] => destruct (all_settled ps) as [[]|?]
        end;
    unfold_segments; destruct (debug argv); simpl;
    rewrite ?omap_app, ?Hstage, ?Hstage'; simpl;
    by apply (bool_decide_unpack _).
Qed.

Lemma in_schedule c entries :
  c ∈ schedule entries ->
  exists name, (c = Resize name \/ c = Extract name) /\ name ∈ entries.*1.
Proof.
  induction entries as [|[n s] rest IH]; simpl; intros Hin.
  - by apply elem_of_nil in Hin.
  - apply elem_of_cons in Hin as [->|Hin];
      [exists n; split; [by left|by left]|].
    apply elem_of_cons in Hin as [->|Hin];
      [exists n; split; [by right|by left]|].
    destruct (IH Hin) as (name & Hc & Hname).
    exists name. split; [done|by right].
Qed.

Lemma schedule_NoDup entries : NoDup entries.*1 -> NoDup (schedule entries).
Proof.
  induction entries as [|[n s] rest IH]; simpl; [constructor|].
  intros [Hn Hrest]%NoDup_cons.
  apply NoDup_cons. split.
  - intros Hin. apply elem_of_cons in Hin as [Hin|Hin]; [discriminate|].
    apply in_schedule in Hin as (name & [[= <-]|Hc] & Hname); done.
  - apply NoDup_cons. split; [|by apply IH].
    intros Hin. apply in_schedule in Hin as (name & [Hc|[= <-]] & Hname); done.
Qed.

Lemma run_captures_prefix `{Node} env argv fs ds :
  captures (log (run env argv (fresh fs ds)))
    `prefix_of` schedule (viewport_entries argv).
Proof.
  destruct (run_segments env argv fs ds)
    as (setup & evs & ps & o & rest & -> & Hsetup & Hrest & _ & Hevs).
  pose proof (join_events_join ps o) as Hjoin.
  unfold captures. rewrite !omap_app. fold (captures setup) (captures evs)
    (captures (join_events ps o)) (captures rest).
  rewrite (captures_outside_loop setup), (captures_outside_loop (join_events ps o)),
    (captures_outside_loop rest);
    try (eapply Forall_impl; [eassumption|]; simpl; tauto).
  rewrite app_nil_r. simpl.
  destruct Hevs as [[-> _]|[Hl _]]; [apply prefix_nil|].
  by eapply loop_events_schedule.
Qed.

(** X18.  The names of the viewports being distinct (they are the keys of
    one object), no viewport is resized twice and none is extracted twice
    in a run. *)
Theorem captures_once `{Node} env argv fs ds :
  NoDup (viewport_entries argv).*1 ->
  NoDup (captures (log (run env argv (fresh fs ds)))).
Proof.
  intros Hnames.
  destruct (run_captures_prefix env argv fs ds) as [k Hk].
  apply schedule_NoDup in Hnames. rewrite Hk in Hnames.
  by apply NoDup_app in Hnames as [? _].
Qed.

Lemma captures_once_witness :
  NoDup (captures (log (run (evaluate_fails "Mobile" (fun n => n)) two_viewports
                          (fresh ∅ ∅)))).
Proof.
  apply (captures_once (evaluate_fails "Mobile" (fun n => n)) two_viewports ∅ ∅).
  by apply (bool_decide_unpack _).
Defined.

Ltac settle_join :=
  try match goal with
      | |- context [all_settled ?ps] => destruct (all_settled ps) as [[]|?]
      end.

Ltac walk_history :=
  repeat first
    [ apply precedes_nil
    | apply precedes_cons_done; [simpl; tauto|simpl; tauto]
    | apply precedes_cons_other; [simpl; tauto|] ].

(** X19.  The two hooks of the debug mode, bringing the page to the front
    and listening to its console, are set only in that mode, only on a
    page that has opened, and before the navigation starts, so that what
    the page logs while it loads is heard. *)
Theorem debug_hooks_before_navigation `{Node} env argv fs ds :
  (debug argv = false ->
   Forall (fun e => ~ is_hook e) (log (run env argv (fresh fs ds))))
  /\ precedes page_opened is_hook (log (run env argv (fresh fs ds)))
  /\ (debug argv = true ->
      precedes brought_to_front navigating (log (run env argv (fresh fs ds)))
      /\ precedes console_hooked navigating (log (run env argv (fresh fs ds)))).
Proof.
  destruct (run_fresh env argv fs ds) as (tr & o & Ht & -> & _).
  split; [|split].
  - intros Hd.
    exit_paths; loop_histories; settle_join; unfold_segments; rewrite ?Hd; simpl;
      repeat (apply Forall_cons_2; [simpl; tauto|]);
      rewrite ?Forall_app;
      repeat match goal with
             | |- _ /\ _ => split
             | Hl : loop_events _ _ _ ?evs |- Forall _ ?evs =>
                 apply loop_events_kinds in Hl;
                 eapply Forall_impl; [exact Hl|];
                 intros [[] ?|[]|?]; simpl; tauto
             | |- Forall _ (report_events ?o) => destruct o
             | |- Forall _ _ => forall_events
             end.
  - exit_paths; loop_histories; settle_join; unfold_segments;
      destruct (debug argv); simpl; walk_history.
    all: apply precedes_none.
    all: rewrite ?Forall_app;
      repeat match goal with
             | |- _ /\ _ => split
             | Hl : loop_events _ _ _ ?evs |- Forall _ ?evs =>
                 apply loop_events_kinds in Hl;
                 eapply Forall_impl; [exact Hl|];
                 intros [[] ?|[]|?]; simpl; tauto
             | |- Forall _ (report_events ?o) => destruct o
             | |- Forall _ _ => forall_events
             end.
  - intros Hd.
    split; exit_paths; settle_join; unfold_segments; rewrite ?Hd; simpl; walk_history.
Qed.

Lemma debug_hooks_before_navigation_witness :
  Forall (fun e => ~ is_hook e)
    (log (run (all_ok 3000 (fun n => n)) plain_run (fresh ∅ ∅)))
  /\ precedes brought_to_front navigating
       (log (run (all_ok 3000 (fun n => n)) debug_run (fresh ∅ ∅)))
  /\ precedes console_hooked navigating
       (log (run (all_ok 3000 (fun n => n)) debug_run (fresh ∅ ∅))).
Proof.
  split.
  - exact (proj1 (debug_hooks_before_navigation (all_ok 3000 (fun n => n))
                    plain_run ∅ ∅) eq_refl).
  - exact (proj2 (proj2 (debug_hooks_before_navigation (all_ok 3000 (fun n => n))
                           debug_run ∅ ∅)) eq_refl).
Defined.
